(** * Signature hashes of a Zcash-style transaction (lib/transaction/sighash.js)

    A shallow embedding of the three exported functions [sighash], [sign]
    and [verify], of the Sapling-era builder [sighashSapling], and of the
    legacy builder, followed by the properties the specification states
    about them and by further properties read off the code: what a digest
    does not commit to, when a call throws, what the preimage holds.

    Conventions.
    - A [Buffer] is a list of bytes.  JavaScript numbers that the code
      treats as integers are [Z]; the 32-bit conversions behind [&], [|],
      [<<] and [>>> 0] are written out.
    - A [BufferWriter] is the list of the buffers written so far, as in
      lib/encoding/bufferwriter.js ([bufs]); [toBuffer] concatenates them.
    - The hash functions, the curve primitive, the serialisers of
      transactions and outputs and the codeseparator stripper are not part
      of sighash.js: they are the fields of the interface [Primitives].
    - A thrown exception is the [Err] branch of [result].
    - The builders are read twice: as functions on values, for what the
      digest is, and over a store of objects ([Heap]), for what a call does
      to the objects of its caller.  [HeapRefinement] shows that the second
      reading returns what the first returns. *)

From Stdlib Require Import ZArith Lia Strings.String Strings.Ascii Strings.Byte.
From stdpp Require Import base option list.

Local Open Scope Z_scope.

(* ===================================================================== *)
(** ** Buffers *)
(* ===================================================================== *)

Abbreviation Buffer := (list byte).

Definition byte_of_Z (z : Z) : byte :=
  default x00 (Byte.of_N (Z.to_N (z mod 256))).

Definition Z_of_byte (b : byte) : Z := Z.of_N (Byte.to_N b).

(** [n] bytes of [z], least significant first; a negative [z] comes out in
    two's complement, a [z] that does not fit loses its high bits. *)
Fixpoint le_bytes (n : nat) (z : Z) : Buffer :=
  match n with
  | O => []
  | S n' => byte_of_Z z :: le_bytes n' (Z.shiftr z 8)
  end.

(** Little-endian reading of a buffer as a number. *)
Fixpoint le_value (b : Buffer) : Z :=
  match b with
  | [] => 0
  | x :: b' => Z_of_byte x + 256 * le_value b'
  end.

Definition hex_digit (c : ascii) : Z :=
  let n := Z.of_nat (nat_of_ascii c) in
  if (48 <=? n) && (n <=? 57) then n - 48
  else if (97 <=? n) && (n <=? 102) then n - 87
  else if (65 <=? n) && (n <=? 70) then n - 55
  else 0.

(** [Buffer.from(s, 'hex')]. *)
Fixpoint Buffer_from_hex (s : string) : Buffer :=
  match s with
  | String hi (String lo rest) =>
      byte_of_Z (16 * hex_digit hi + hex_digit lo) :: Buffer_from_hex rest
  | _ => []
  end.

(** [Buffer.from(s)] for an ASCII string. *)
Definition Buffer_from_string (s : string) : Buffer := list_byte_of_string s.

(** [Buffer.alloc(n)]: [n] zero bytes. *)
Definition Buffer_alloc (n : nat) : Buffer := replicate n x00.

(** [buf.write(data, offset)] and [buf.writeUInt32LE(v, offset)]: overwrite
    in place from [offset] on; the buffer keeps its length. *)
Definition Buffer_write_at (buf : Buffer) (offset : nat) (data : Buffer) : Buffer :=
  take (length buf) (take offset buf ++ data ++ drop (offset + length data) buf).

(* ===================================================================== *)
(** ** JavaScript integer operators *)
(* ===================================================================== *)

Definition ToUint32 (z : Z) : Z := z mod 2 ^ 32.

Definition ToInt32 (z : Z) : Z :=
  let u := z mod 2 ^ 32 in if u <? 2 ^ 31 then u else u - 2 ^ 32.

(** [a & b] *)
Definition js_band (a b : Z) : Z := Z.land (ToInt32 a) (ToInt32 b).
(** [a | b] *)
Definition js_bor (a b : Z) : Z := Z.lor (ToInt32 a) (ToInt32 b).
(** [a << n] *)
Definition js_shl (a n : Z) : Z := ToInt32 (Z.shiftl (ToInt32 a) (ToUint32 n mod 32)).
(** [a >>> 0] *)
Definition js_ushr0 (a : Z) : Z := ToUint32 a.
(** Truthiness of a number: everything but zero. *)
Definition js_truthy (a : Z) : bool := negb (a =? 0).

(* ===================================================================== *)
(** ** Exceptions *)
(* ===================================================================== *)

Inductive error :=
| InvalidArgument   (* thrown by [$.checkArgument] *)
| TypeError.        (* a property read or a construction on [undefined] *)

Inductive result (A : Type) :=
| Ok (a : A)
| Err (e : error).
Arguments Ok {A} a.
Arguments Err {A} e.

#[global] Instance result_ret : MRet result := fun A a => Ok a.
#[global] Instance result_bind : MBind result := fun A B f m =>
  match m with Ok a => f a | Err e => Err e end.
#[global] Instance result_fmap : FMap result := fun A B f m =>
  match m with Ok a => Ok (f a) | Err e => Err e end.

(** Reading a property of a value that may be [undefined]. *)
Definition defined {A} (o : option A) : result A :=
  match o with Some a => Ok a | None => Err TypeError end.

(** [$.checkArgument(c)] *)
Definition checkArgument (c : bool) : result unit :=
  if c then Ok tt else Err InvalidArgument.

(** [for (i = 0; i < n; i++) body], threading the state. *)
Definition for_upto {S : Type} (n : nat) (body : nat -> S -> S) (s : S) : S :=
  foldl (fun s i => body i s) s (seq 0 n).

(** The list after the first [k] rounds of a loop whose round [j] rewrites
    the element at index [j]. *)
Definition rounds {A : Type} (F : nat -> A -> A) (k : nat) (l : list A) : list A :=
  imap (fun j x => if decide (j < k)%nat then F j x else x) l.

(* ===================================================================== *)
(** ** Data model *)
(* ===================================================================== *)

(** A script, seen through [toBuffer]. *)
Abbreviation Script := (list byte).

(** [Script.empty()] *)
Definition Script_empty : Script := [].

Record Output := mkOutput {
  satoshis : Z;
  out_script : Script
}.

Record Input := mkInput {
  prevTxId : Buffer;
  outputIndex : Z;
  sequenceNumber : Z;
  script : Script;
  output : option Output      (* the output this input spends, when known *)
}.

Record Transaction := mkTransaction {
  version : Z;
  nVersionGroupId : Z;
  inputs : list Input;
  outputs : list Output;
  nLockTime : Z;
  nExpiryHeight : Z;
  valueBalance : Z;
  branchId : option Z         (* [undefined] when the caller set none *)
}.

Record Signature := mkSignature {
  sig_r : Z;
  sig_s : Z;
  nhashtype : option Z
}.

Inductive Endian := Big | Little.

(** Modelled from the spec: the flag values of lib/crypto/signature.js,
    which is not under src/ ("bits 0-4 select one of ALL=1, NONE=2,
    SINGLE=3; bit 0x80 is the independent ANYONECANPAY modifier"). *)
Definition SIGHASH_ALL : Z := 1.
Definition SIGHASH_NONE : Z := 2.
Definition SIGHASH_SINGLE : Z := 3.
Definition SIGHASH_ANYONECANPAY : Z := 128.

(** Modelled from the spec: [Signature.prototype.set({nhashtype: t})] of
    lib/crypto/signature.js, not under src/ ("attaches signatureType to the
    result"). *)
Definition Signature_set_nhashtype (sig : Signature) (t : Z) : Signature :=
  {| sig_r := sig_r sig; sig_s := sig_s sig; nhashtype := Some t |}.

(** [input.setScript(s)] and the assignment [input.sequenceNumber = q]. *)
Definition setScript (i : Input) (s : Script) : Input :=
  {| prevTxId := prevTxId i; outputIndex := outputIndex i;
     sequenceNumber := sequenceNumber i; script := s; output := output i |}.

Definition set_sequenceNumber (i : Input) (q : Z) : Input :=
  {| prevTxId := prevTxId i; outputIndex := outputIndex i;
     sequenceNumber := q; script := script i; output := output i |}.

Definition set_inputs (t : Transaction) (l : list Input) : Transaction :=
  {| version := version t; nVersionGroupId := nVersionGroupId t;
     inputs := l; outputs := outputs t; nLockTime := nLockTime t;
     nExpiryHeight := nExpiryHeight t; valueBalance := valueBalance t;
     branchId := branchId t |}.

Definition set_outputs (t : Transaction) (l : list Output) : Transaction :=
  {| version := version t; nVersionGroupId := nVersionGroupId t;
     inputs := inputs t; outputs := l; nLockTime := nLockTime t;
     nExpiryHeight := nExpiryHeight t; valueBalance := valueBalance t;
     branchId := branchId t |}.

(** Modelled from the spec: [new Input(params)] of lib/transaction/input.js,
    not under src/.  The spec requires [inputNumber] to index an existing
    input; constructing from an absent slot is reported as an exception. *)
Definition new_Input (params : option Input) : result Input := defined params.

(* ===================================================================== *)
(** ** The collaborators of sighash.js *)
(* ===================================================================== *)

Class Primitives := {
  (** [Hash.sha256sha256] *)
  sha256sha256 : Buffer -> Buffer;
  (** [blake2b(outlen, null, null, personal).update(data).digest()] *)
  blake2b : nat -> Buffer -> Buffer -> Buffer;
  (** [script.removeCodeseparators()], as a function of the bytes *)
  removeCodeseparators : Script -> Script;
  (** [transaction.toBuffer()] *)
  Transaction_toBuffer : Transaction -> Buffer;
  (** what [output.toBufferWriter(writer)] appends *)
  Output_toBuffer : Output -> Buffer;
  PrivateKey : Type;
  PublicKey : Type;
  toPublicKey : PrivateKey -> PublicKey;
  (** [ECDSA.sign(hashbuf, privateKey, endian)] *)
  ECDSA_sign : Buffer -> PrivateKey -> Endian -> Signature;
  (** [ECDSA.verify(hashbuf, signature, publicKey, endian)] *)
  ECDSA_verify : Buffer -> Signature -> PublicKey -> Endian -> bool
}.

(** The contract of the curve primitive that [sign] and [verify] rely on:
    a signature made with a private key verifies under the matching public
    key over the same digest and byte order, whatever type is attached. *)
Definition ECDSA_contract `{Primitives} : Prop :=
  forall (h : Buffer) (k : PrivateKey) (e : Endian) (t : Z),
    ECDSA_verify h (Signature_set_nhashtype (ECDSA_sign h k e) t) (toPublicKey k) e = true.

(* ===================================================================== *)
(** ** BufferWriter *)
(* ===================================================================== *)

(** Modelled from the spec: the writers of lib/encoding/bufferwriter.js, not
    under src/ ("little-endian fields"): each appends the bytes of its
    argument in the field's width.  The fields of the data model fit their
    widths; a value that does not is cut to the width here. *)
Abbreviation BufferWriter := (list Buffer).

Definition BufferWriter_new : BufferWriter := [].
Definition write (w : BufferWriter) (b : Buffer) : BufferWriter := w ++ [b].
Definition writeReverse (w : BufferWriter) (b : Buffer) : BufferWriter := w ++ [rev b].
Definition writeUInt32LE (w : BufferWriter) (n : Z) : BufferWriter := w ++ [le_bytes 4 n].
Definition writeInt32LE (w : BufferWriter) (n : Z) : BufferWriter := w ++ [le_bytes 4 n].
Definition writeUInt64LEBN (w : BufferWriter) (n : Z) : BufferWriter := w ++ [le_bytes 8 n].

(** Modelled from the spec: [writeVarintNum] of lib/encoding/bufferwriter.js,
    not under src/ ("compact variable-length integer"). *)
Definition varint (n : Z) : Buffer :=
  if n <? 253 then le_bytes 1 n
  else if n <? 2 ^ 16 then byte_of_Z 253 :: le_bytes 2 n
  else if n <? 2 ^ 32 then byte_of_Z 254 :: le_bytes 4 n
  else byte_of_Z 255 :: le_bytes 8 n.

Definition writeVarintNum (w : BufferWriter) (n : Z) : BufferWriter := w ++ [varint n].
Definition toBuffer (w : BufferWriter) : Buffer := concat w.

(** [new BufferReader(buf).readReverse()] *)
Definition readReverse (b : Buffer) : Buffer := rev b.

(* ===================================================================== *)
(** ** Module constants (lines 19-22) *)
(* ===================================================================== *)

Definition SIGHASH_SINGLE_BUG : string :=
  "0000000000000000000000000000000000000000000000000000000000000001".
Definition BITS_64_ON : string := "ffffffffffffffff".
Definition ZERO : Buffer :=
  Buffer_from_hex "0000000000000000000000000000000000000000000000000000000000000000".
Definition DEFAULT_BRANCH_ID : Z := 0x76b809bb.

(** [BN.fromBuffer(buf)]: the big-endian value of the buffer. *)
Definition BN_fromBuffer (b : Buffer) : Z := le_value (rev b).

(* ===================================================================== *)
(** ** The Sapling-era builder (lines 24-172) *)
(* ===================================================================== *)

Section Builders.
Context `{Primitives}.

(** Lines 47-50. *)
Definition getBlake2bHash (bufferToHash personalization : Buffer) : Buffer :=
  blake2b 32 personalization bufferToHash.

(** Lines 52-61. *)
Definition GetPrevoutHash (tx : Transaction) : Buffer :=
  let writer := BufferWriter_new in
  let writer :=
    foldl (fun writer input =>
             let writer := writeReverse writer (prevTxId input) in
             writeUInt32LE writer (outputIndex input))
          writer (inputs tx) in
  getBlake2bHash (toBuffer writer) (Buffer_from_string "ZcashPrevoutHash").

(** Lines 63-71. *)
Definition GetSequenceHash (tx : Transaction) : Buffer :=
  let writer := BufferWriter_new in
  let writer :=
    foldl (fun writer input => writeUInt32LE writer (sequenceNumber input))
          writer (inputs tx) in
  getBlake2bHash (toBuffer writer) (Buffer_from_string "ZcashSequencHash").

(** [output.toBufferWriter(writer)] *)
Definition Output_toBufferWriter (o : Output) (writer : BufferWriter) : BufferWriter :=
  write writer (Output_toBuffer o).

(** Lines 73-85; [n = None] is the call without a second argument. *)
Definition GetOutputsHash (tx : Transaction) (n : option nat) : result Buffer :=
  let writer := BufferWriter_new in
  writer ←
    match n with
    | None => Ok (foldl (fun writer output => Output_toBufferWriter output writer)
                        writer (outputs tx))
    | Some n => o ← defined (outputs tx !! n); Ok (Output_toBufferWriter o writer)
    end;
  Ok (getBlake2bHash (toBuffer writer) (Buffer_from_string "ZcashOutputsHash")).

(** Lines 104-106: the value of [hashPrevouts] when it is written. *)
Definition sapling_hashPrevouts (transaction : Transaction) (sighashType : Z) : Buffer :=
  let hashPrevouts := ZERO in
  if negb (js_truthy (js_band sighashType SIGHASH_ANYONECANPAY))
  then GetPrevoutHash transaction
  else hashPrevouts.

(** Lines 110-114: the value of [hashSequence] when it is written. *)
Definition sapling_hashSequence (transaction : Transaction) (sighashType : Z) : Buffer :=
  let hashSequence := ZERO in
  if negb (js_truthy (js_band sighashType SIGHASH_ANYONECANPAY))
     && negb (js_band sighashType 31 =? SIGHASH_SINGLE)
     && negb (js_band sighashType 31 =? SIGHASH_NONE)
  then GetSequenceHash transaction
  else hashSequence.

(** Lines 118-122: the value of [hashOutputs] when it is written. *)
Definition sapling_hashOutputs (transaction : Transaction) (sighashType : Z)
    (inputNumber : nat) : result Buffer :=
  let hashOutputs := ZERO in
  if negb (js_band sighashType 31 =? SIGHASH_SINGLE)
     && negb (js_band sighashType 31 =? SIGHASH_NONE)
  then GetOutputsHash transaction None
  else if (js_band sighashType 31 =? SIGHASH_SINGLE)
          && bool_decide (inputNumber < length (outputs transaction))%nat
  then GetOutputsHash transaction (Some inputNumber)
  else Ok hashOutputs.

(** Lines 45 and 87-159: the state of [writer] when line 160 is reached.
    [input] is [undefined] when [inputNumber] is not an index of
    [transaction.inputs]; the first read of one of its properties (line 147)
    throws then, and so does reading [input.output.satoshis] (line 155) of
    an input without [output]. *)
Definition sapling_writer (transaction : Transaction) (sighashType : Z)
    (inputNumber : nat) (subscript : Script) : result BufferWriter :=
  let input := inputs transaction !! inputNumber in
  let hashJoinSplits := ZERO in
  let hashShieldedSpends := ZERO in
  let hashShieldedOutputs := ZERO in
  let writer := BufferWriter_new in
  let header := js_bor (version transaction) (js_shl 1 31) in
  let writer := writeInt32LE writer header in
  let writer := writeUInt32LE writer (nVersionGroupId transaction) in
  let writer := write writer (sapling_hashPrevouts transaction sighashType) in
  let writer := write writer (sapling_hashSequence transaction sighashType) in
  hashOutputs ← sapling_hashOutputs transaction sighashType inputNumber;
  let writer := write writer hashOutputs in
  let writer := write writer hashJoinSplits in
  let writer := write writer hashShieldedSpends in
  let writer := write writer hashShieldedOutputs in
  let writer := writeUInt32LE writer (nLockTime transaction) in
  let writer := writeUInt32LE writer (nExpiryHeight transaction) in
  let writer := writeUInt64LEBN writer (valueBalance transaction) in
  let writer := writeUInt32LE writer (js_ushr0 sighashType) in
  input ← defined input;
  let writer := writeReverse writer (prevTxId input) in
  let writer := writeUInt32LE writer (outputIndex input) in
  let writer := writeVarintNum writer (Z.of_nat (length subscript)) in
  let writer := write writer subscript in
  spent ← defined (output input);
  let writer := writeUInt64LEBN writer (satoshis spent) in
  let sequenceNumber := sequenceNumber input in
  let writer := writeUInt32LE writer sequenceNumber in
  Ok writer.

(** Lines 163-166: [if (transaction.branchId)] is a truthiness test, which
    an absent branch id and the branch id 0 both fail. *)
Definition sapling_consensusBranchId (transaction : Transaction) : Z :=
  let consensusBranchId := DEFAULT_BRANCH_ID in
  match branchId transaction with
  | Some b => if js_truthy b then b else consensusBranchId
  | None => consensusBranchId
  end.

(** Lines 161-168. *)
Definition sapling_personalization (transaction : Transaction) : Buffer :=
  let personalization := Buffer_alloc 16 in
  let prefix := "ZcashSigHash"%string in
  let consensusBranchId := sapling_consensusBranchId transaction in
  let personalization := Buffer_write_at personalization 0 (Buffer_from_string prefix) in
  Buffer_write_at personalization (String.length prefix) (le_bytes 4 consensusBranchId).

Definition sighashSapling (transaction : Transaction) (sighashType : Z)
    (inputNumber : nat) (subscript : Script) : result Buffer :=
  writer ← sapling_writer transaction sighashType inputNumber subscript;
  let ret := getBlake2bHash (toBuffer writer) (sapling_personalization transaction) in
  let ret := readReverse ret in
  Ok ret.

(* ===================================================================== *)
(** ** The legacy builder and the dispatcher (lines 184-249) *)
(* ===================================================================== *)

(** The builder either leaves through the early [return] of line 225 or
    reaches line 242 with a transaction copy to serialise. *)
Inductive built :=
| Returned (digest : Buffer)
| Copy (txcopy : Transaction).

(** Lines 200-203. *)
Definition blank_scripts (txcopy : Transaction) : result Transaction :=
  for_upto (length (inputs txcopy))
    (fun i acc =>
       txcopy ← acc;
       input ← new_Input (inputs txcopy !! i);
       Ok (set_inputs txcopy (<[i := setScript input Script_empty]> (inputs txcopy))))
    (Ok txcopy).

(** Lines 211-215. *)
Definition clear_sequenceNumbers (inputNumber : nat) (txcopy : Transaction) : Transaction :=
  for_upto (length (inputs txcopy))
    (fun i txcopy =>
       if bool_decide (i ≠ inputNumber)
       then set_inputs txcopy (alter (fun input => set_sequenceNumber input 0) i (inputs txcopy))
       else txcopy)
    txcopy.

(** Lines 230-235. *)
Definition null_outputs (inputNumber : nat) (txcopy : Transaction) : Transaction :=
  for_upto inputNumber
    (fun i txcopy =>
       set_outputs txcopy
         (<[i := {| satoshis := BN_fromBuffer (Buffer_from_hex BITS_64_ON);
                    out_script := Script_empty |}]> (outputs txcopy)))
    txcopy.

(** Lines 192-240.  The copies of lines 194 and 197 are what makes the
    assignments below invisible to the caller; on values they are the
    identity. *)
Definition legacy_build (transaction : Transaction) (sighashType : Z)
    (inputNumber : nat) (subscript : Script) : result built :=
  let txcopy := transaction in
  let subscript := removeCodeseparators subscript in
  txcopy ← blank_scripts txcopy;
  input ← new_Input (inputs txcopy !! inputNumber);
  let txcopy :=
    set_inputs txcopy (<[inputNumber := setScript input subscript]> (inputs txcopy)) in
  let txcopy :=
    if (js_band sighashType 31 =? SIGHASH_NONE) || (js_band sighashType 31 =? SIGHASH_SINGLE)
    then clear_sequenceNumbers inputNumber txcopy
    else txcopy in
  let collapse (txcopy : Transaction) : result built :=
    if js_truthy (js_band sighashType SIGHASH_ANYONECANPAY)
    then input ← defined (inputs txcopy !! inputNumber); Ok (Copy (set_inputs txcopy [input]))
    else Ok (Copy txcopy) in
  if js_band sighashType 31 =? SIGHASH_NONE then
    collapse (set_outputs txcopy [])
  else if js_band sighashType 31 =? SIGHASH_SINGLE then
    if bool_decide (length (outputs txcopy) ≤ inputNumber)%nat then
      Ok (Returned (Buffer_from_hex SIGHASH_SINGLE_BUG))
    else
      let txcopy := set_outputs txcopy (take (inputNumber + 1) (outputs txcopy)) in
      collapse (null_outputs inputNumber txcopy)
  else collapse txcopy.

(** Lines 184-249. *)
Definition sighash (transaction : Transaction) (sighashType : Z)
    (inputNumber : nat) (subscript : Script) : result Buffer :=
  if version transaction >=? 4 then
    sighashSapling transaction sighashType inputNumber subscript
  else
    b ← legacy_build transaction sighashType inputNumber subscript;
    match b with
    | Returned digest => Ok digest
    | Copy txcopy =>
        let buf := toBuffer (writeInt32LE (write BufferWriter_new (Transaction_toBuffer txcopy))
                                          sighashType) in
        let ret := sha256sha256 buf in
        let ret := readReverse ret in
        Ok ret
    end.

(* ===================================================================== *)
(** ** sign and verify (lines 262-286) *)
(* ===================================================================== *)

Definition sign (transaction : Transaction) (privateKey : PrivateKey) (sighashType : Z)
    (inputIndex : nat) (subscript : Script) : result Signature :=
  hashbuf ← sighash transaction sighashType inputIndex subscript;
  let sig := Signature_set_nhashtype (ECDSA_sign hashbuf privateKey Little) sighashType in
  Ok sig.

(** [transaction] and [signature] may be [undefined]. *)
Definition verify (transaction : option Transaction) (signature : option Signature)
    (publicKey : PublicKey) (inputIndex : nat) (subscript : Script) : result bool :=
  _ ← checkArgument (bool_decide (is_Some transaction));
  _ ← checkArgument (match signature with
                     | Some sig => bool_decide (is_Some (nhashtype sig))
                     | None => false
                     end);
  transaction ← defined transaction;
  signature ← defined signature;
  sighashType ← defined (nhashtype signature);
  hashbuf ← sighash transaction sighashType inputIndex subscript;
  Ok (ECDSA_verify hashbuf signature publicKey Little).

End Builders.

(* ===================================================================== *)
(** ** The specification's wording, to compare the builders with *)
(* ===================================================================== *)

(** The low selector (bits 0-4) and the ANYONECANPAY bit (0x80). *)
Definition selector (signatureType : Z) : Z := Z.land signatureType 31.
Definition anyonecanpay (signatureType : Z) : bool := Z.testbit signatureType 7.

Definition zero32 : Buffer := replicate 32 x00.

(** The digest of the SIGHASH_SINGLE quirk: 31 zero bytes, then 1. *)
Definition single_bug_digest : Buffer := replicate 31 x00 ++ [x01].

(** The null output: all 64 bits set, empty script. *)
Definition null_output : Output :=
  {| satoshis := 0xFFFFFFFFFFFFFFFF; out_script := [] |}.

(** [inputNumber] indexes an input and, in the Sapling era, that input
    knows the output it spends. *)
Definition well_formed (tx : Transaction) (inputNumber : nat) : bool :=
  match inputs tx !! inputNumber with
  | Some input => (version tx <? 4) || bool_decide (is_Some (output input))
  | None => false
  end.

Section Wording.
Context `{Primitives}.

(** "for every input in original order, (reversed previous-transaction-id,
    little-endian output index); suppressed when ANYONECANPAY is set" *)
Definition spec_prevouts_hash (tx : Transaction) (signatureType : Z) : Buffer :=
  if anyonecanpay signatureType then zero32
  else blake2b 32 (Buffer_from_string "ZcashPrevoutHash")
         (concat (map (fun i => rev (prevTxId i) ++ le_bytes 4 (outputIndex i)) (inputs tx))).

(** "for every input in original order, little-endian sequence number;
    suppressed when ANYONECANPAY is set, or selector is SINGLE, or selector
    is NONE" *)
Definition spec_sequence_hash (tx : Transaction) (signatureType : Z) : Buffer :=
  if anyonecanpay signatureType
     || (selector signatureType =? SIGHASH_SINGLE)
     || (selector signatureType =? SIGHASH_NONE)
  then zero32
  else blake2b 32 (Buffer_from_string "ZcashSequencHash")
         (concat (map (fun i => le_bytes 4 (sequenceNumber i)) (inputs tx))).

(** "ALL/default: every output serialized in order; SINGLE: only the output
    at inputNumber if within range, else suppressed (zero); NONE:
    suppressed (zero)" *)
Definition spec_outputs_hash (tx : Transaction) (signatureType : Z) (inputNumber : nat)
    : Buffer :=
  if selector signatureType =? SIGHASH_SINGLE then
    match outputs tx !! inputNumber with
    | Some o => blake2b 32 (Buffer_from_string "ZcashOutputsHash") (Output_toBuffer o)
    | None => zero32
    end
  else if selector signatureType =? SIGHASH_NONE then zero32
  else blake2b 32 (Buffer_from_string "ZcashOutputsHash")
         (concat (map Output_toBuffer (outputs tx))).

(** The preimage layout of section 4.2, field by field. *)
Definition spec_sapling_fields (tx : Transaction) (signatureType : Z) (inputNumber : nat)
    (subscript : Script) (input : Input) (spent : Output) : list Buffer :=
  [ le_bytes 4 (Z.lor (version tx) (2 ^ 31));
    le_bytes 4 (nVersionGroupId tx);
    spec_prevouts_hash tx signatureType;
    spec_sequence_hash tx signatureType;
    spec_outputs_hash tx signatureType inputNumber;
    zero32;
    zero32;
    zero32;
    le_bytes 4 (nLockTime tx);
    le_bytes 4 (nExpiryHeight tx);
    le_bytes 8 (valueBalance tx);
    le_bytes 4 signatureType;
    rev (prevTxId input);
    le_bytes 4 (outputIndex input);
    varint (Z.of_nat (length subscript)) ++ subscript;
    le_bytes 8 (satoshis spent);
    le_bytes 4 (sequenceNumber input) ].

(** "a fixed 12-byte ASCII prefix concatenated with the little-endian 4-byte
    consensus-branch-id", for a given branch id. *)
Definition spec_personalization (consensusBranchId : Z) : Buffer :=
  Buffer_from_string "ZcashSigHash" ++ le_bytes 4 consensusBranchId.

(** "override from the transaction if present, else a fixed default". *)
Definition branch_id_if_present (tx : Transaction) : Z :=
  default DEFAULT_BRANCH_ID (branchId tx).

(** The same, with the branch id 0 counted as absent. *)
Definition branch_id_if_nonzero (tx : Transaction) : Z :=
  match branchId tx with
  | Some b => if decide (b = 0) then DEFAULT_BRANCH_ID else b
  | None => DEFAULT_BRANCH_ID
  end.

(** The Sapling-era digest the specification describes, for a branch id
    chosen by [branch]. *)
Definition spec_sapling_digest (branch : Transaction -> Z) (tx : Transaction)
    (signatureType : Z) (inputNumber : nat) (subscript : Script)
    (input : Input) (spent : Output) : Buffer :=
  rev (blake2b 32 (spec_personalization (branch tx))
         (concat (spec_sapling_fields tx signatureType inputNumber subscript input spent))).

(** Section 4.1: the inputs of the legacy copy before the ANYONECANPAY
    collapse.  Input [inputNumber] carries the stripped subscript and keeps
    its sequence number; every other input has an empty script and, under
    NONE or SINGLE, sequence number 0. *)
Definition spec_legacy_inputs (tx : Transaction) (signatureType : Z) (inputNumber : nat)
    (subscript : Script) : list Input :=
  imap (fun k input =>
          if decide (k = inputNumber)
          then setScript input (removeCodeseparators subscript)
          else if decide (selector signatureType = SIGHASH_NONE
                          \/ selector signatureType = SIGHASH_SINGLE)
          then set_sequenceNumber (setScript input []) 0
          else setScript input [])
       (inputs tx).

(** Section 4.1: the outputs of the legacy copy. *)
Definition spec_legacy_outputs (tx : Transaction) (signatureType : Z) (inputNumber : nat)
    : list Output :=
  if decide (selector signatureType = SIGHASH_NONE) then []
  else if decide (selector signatureType = SIGHASH_SINGLE) then
    replicate inputNumber null_output ++ take 1 (drop inputNumber (outputs tx))
  else outputs tx.

(** Section 4.1: the copy that is serialised, the collapse applied last. *)
Definition spec_legacy_copy (tx : Transaction) (signatureType : Z) (inputNumber : nat)
    (subscript : Script) : Transaction :=
  let ins := spec_legacy_inputs tx signatureType inputNumber subscript in
  let ins := if anyonecanpay signatureType
             then take 1 (drop inputNumber ins) else ins in
  set_outputs (set_inputs tx ins) (spec_legacy_outputs tx signatureType inputNumber).

End Wording.

(** The Sapling-era digest as section 4.2 words it, the branch id taken from
    the transaction whenever it has one. *)
Definition sapling_digest_as_stated : Prop :=
  forall (P : Primitives) (tx : Transaction) (t : Z) (i : nat) (sub : Script)
         (input : Input) (spent : Output),
    4 <= version tx -> inputs tx !! i = Some input -> output input = Some spent ->
    sighash tx t i sub = Ok (spec_sapling_digest branch_id_if_present tx t i sub input spent).

(** [tx'] agrees with [tx] on every field but the input list, and on the
    input at index [i] but for its script. *)
Definition same_but_inputs (tx tx' : Transaction) (i : nat) : Prop :=
  set_inputs tx' [] = set_inputs tx []
  /\ (fun x => setScript x []) <$> inputs tx' !! i
     = (fun x => setScript x []) <$> inputs tx !! i.

(** Another input's script and sequence number replaced. *)
Definition mutate_input (tx : Transaction) (j : nat) (s : Script) (q : Z) : Transaction :=
  set_inputs tx (alter (fun input => set_sequenceNumber (setScript input s) q) j (inputs tx)).

(** Every input given a script of its own: input [j] gets [f j]. *)
Definition set_scripts (tx : Transaction) (f : nat -> Script) : Transaction :=
  set_inputs tx (imap (fun j input => setScript input (f j)) (inputs tx)).

(** The sequence number of input [j] replaced. *)
Definition set_sequence (tx : Transaction) (j : nat) (q : Z) : Transaction :=
  set_inputs tx (alter (fun input => set_sequenceNumber input q) j (inputs tx)).

(* ===================================================================== *)
(** ** An executable instance of the interface *)
(* ===================================================================== *)

(** Checksums stand in for the hash functions and an additive scheme for
    the curve; the instance only serves to run the definitions above on
    concrete transactions. *)
Definition checksum (b : Buffer) : Z :=
  foldl (fun acc x => (acc * 257 + Z_of_byte x + 1) mod 2 ^ 256) 0 b.

Definition scalar (h : Buffer) (e : Endian) : Z :=
  match e with Little => le_value h | Big => le_value (rev h) end.

Definition serialize_output (o : Output) : Buffer :=
  le_bytes 8 (satoshis o) ++ varint (Z.of_nat (length (out_script o))) ++ out_script o.

Definition serialize_input (i : Input) : Buffer :=
  rev (prevTxId i) ++ le_bytes 4 (outputIndex i)
  ++ varint (Z.of_nat (length (script i))) ++ script i
  ++ le_bytes 4 (sequenceNumber i).

Definition serialize_transaction (t : Transaction) : Buffer :=
  le_bytes 4 (version t)
  ++ varint (Z.of_nat (length (inputs t))) ++ concat (map serialize_input (inputs t))
  ++ varint (Z.of_nat (length (outputs t))) ++ concat (map serialize_output (outputs t))
  ++ le_bytes 4 (nLockTime t).

#[global] Instance test_primitives : Primitives := {|
  sha256sha256 b := le_bytes 32 (checksum (le_bytes 32 (checksum b)));
  blake2b n p d := le_bytes n (checksum (p ++ d));
  removeCodeseparators s := List.filter (fun x => negb (Byte.eqb x xab)) s;
  Transaction_toBuffer := serialize_transaction;
  Output_toBuffer := serialize_output;
  PrivateKey := Z;
  PublicKey := Z;
  toPublicKey k := k;
  ECDSA_sign h k e := {| sig_r := scalar h e + k; sig_s := k; nhashtype := None |};
  ECDSA_verify h sig pk e := sig_r sig =? scalar h e + pk
|}.

(** Transactions to run it on: a version-1 and two version-4 ones, each
    with three inputs and two outputs. *)
Definition sample_inputs : list Input :=
  [ {| prevTxId := replicate 31 x11 ++ [x22]; outputIndex := 0;
       sequenceNumber := 0xffffffff; script := [x51];
       output := Some {| satoshis := 5000; out_script := [x51] |} |};
    {| prevTxId := replicate 31 x33 ++ [x44]; outputIndex := 1;
       sequenceNumber := 7; script := [x52];
       output := Some {| satoshis := 7000; out_script := [x52] |} |};
    {| prevTxId := replicate 31 x55 ++ [x66]; outputIndex := 2;
       sequenceNumber := 9; script := [x53];
       output := Some {| satoshis := 9000; out_script := [x53] |} |} ].

Definition sample_outputs : list Output :=
  [ {| satoshis := 1000; out_script := [x76; xa9] |};
    {| satoshis := 2000; out_script := [x87] |} ].

Definition sample_legacy : Transaction :=
  {| version := 1; nVersionGroupId := 0; inputs := sample_inputs;
     outputs := sample_outputs; nLockTime := 0; nExpiryHeight := 0;
     valueBalance := 0; branchId := None |}.

Definition sample_sapling : Transaction :=
  {| version := 4; nVersionGroupId := 0x892f2085; inputs := sample_inputs;
     outputs := sample_outputs; nLockTime := 0; nExpiryHeight := 0;
     valueBalance := 0; branchId := None |}.

(** A version-4 transaction whose branch id is set to 0. *)
Definition sample_branch_zero : Transaction :=
  {| version := 4; nVersionGroupId := 0x892f2085; inputs := sample_inputs;
     outputs := sample_outputs; nLockTime := 0; nExpiryHeight := 0;
     valueBalance := 0; branchId := Some 0 |}.

(* ===================================================================== *)
(** ** The builders over a store of objects *)
(* ===================================================================== *)

(** The definitions above work on values.  To say what a call does to the
    objects of its caller, the same code is read here over a store: a
    transaction, its two arrays, every input, output and script are objects
    at a location; reading a property loads, assigning one stores. *)
Module Heap.

Abbreviation loc := nat.

Inductive object :=
| OScript (code : Script)
| OOutput (o : Output)
| OInput (prevTxId : Buffer) (outputIndex sequenceNumber : Z) (script : loc)
         (output : option Output)
| OArray (elems : list loc)
| OTransaction (version nVersionGroupId : Z) (inputs outputs : loc)
               (nLockTime nExpiryHeight valueBalance : Z) (branchId : option Z).

(** Allocation appends, so a location is an index. *)
Abbreviation heap := (list object).

(** A computation takes a store and hands back the store it leaves behind,
    also when it throws. *)
Definition M (A : Type) : Type := heap -> heap * result A.

#[global] Instance M_ret : MRet M := fun A a h => (h, Ok a).
#[global] Instance M_bind : MBind M := fun A B f m h =>
  match m h with
  | (h', Ok a) => f a h'
  | (h', Err e) => (h', Err e)
  end.

Definition throw {A} (e : error) : M A := fun h => (h, Err e).
Definition lift {A} (r : result A) : M A := fun h => (h, r).
Definition alloc (o : object) : M loc := fun h => (h ++ [o], Ok (length h)).
Definition load (l : loc) : M object := fun h => (h, defined (h !! l)).
Definition store (l : loc) (o : object) : M unit := fun h =>
  if decide (l < length h)%nat then (<[l := o]> h, Ok tt) else (h, Err TypeError).

(** [for (i = 0; i < n; i++) body] *)
Definition for_uptoM (n : nat) (body : nat -> M unit) : M unit :=
  foldr (fun i rest => _ ← body i; rest) (mret tt) (seq 0 n).

(** *** Property reads and assignments *)

Definition load_script (l : loc) : M Script :=
  o ← load l; match o with OScript c => mret c | _ => throw TypeError end.

Definition load_array (l : loc) : M (list loc) :=
  o ← load l; match o with OArray a => mret a | _ => throw TypeError end.

(** [transaction.version], [transaction.inputs], [transaction.outputs] *)
Definition get_version (t : loc) : M Z :=
  o ← load t;
  match o with OTransaction v _ _ _ _ _ _ _ => mret v | _ => throw TypeError end.

Definition get_inputs (t : loc) : M loc :=
  o ← load t;
  match o with OTransaction _ _ a _ _ _ _ _ => mret a | _ => throw TypeError end.

Definition get_outputs (t : loc) : M loc :=
  o ← load t;
  match o with OTransaction _ _ _ b _ _ _ _ => mret b | _ => throw TypeError end.

(** [transaction.inputs = a] and [transaction.outputs = b] *)
Definition assign_inputs (t a : loc) : M unit :=
  o ← load t;
  match o with
  | OTransaction v g _ b lt eh vb br => store t (OTransaction v g a b lt eh vb br)
  | _ => throw TypeError
  end.

Definition assign_outputs (t b : loc) : M unit :=
  o ← load t;
  match o with
  | OTransaction v g a _ lt eh vb br => store t (OTransaction v g a b lt eh vb br)
  | _ => throw TypeError
  end.

(** [input.setScript(s)] and [input.sequenceNumber = q] *)
Definition setScript (i s : loc) : M unit :=
  o ← load i;
  match o with
  | OInput p oi sq _ out => store i (OInput p oi sq s out)
  | _ => throw TypeError
  end.

Definition assign_sequenceNumber (i : loc) (q : Z) : M unit :=
  o ← load i;
  match o with
  | OInput p oi _ s out => store i (OInput p oi q s out)
  | _ => throw TypeError
  end.

(** *** The value an object stands for *)

Definition read_script (h : heap) (l : loc) : option Script :=
  match h !! l with Some (OScript c) => Some c | _ => None end.

Definition read_output (h : heap) (l : loc) : option Output :=
  match h !! l with Some (OOutput o) => Some o | _ => None end.

Definition read_input (h : heap) (l : loc) : option Input :=
  match h !! l with
  | Some (OInput p oi sq s out) =>
      c ← read_script h s;
      Some {| prevTxId := p; outputIndex := oi; sequenceNumber := sq;
              script := c; output := out |}
  | _ => None
  end.

Definition read_array (h : heap) (l : loc) : option (list loc) :=
  match h !! l with Some (OArray a) => Some a | _ => None end.

Definition read_transaction (h : heap) (l : loc) : option Transaction :=
  match h !! l with
  | Some (OTransaction v g a b lt eh vb br) =>
      ia ← read_array h a;
      ins ← mapM (read_input h) ia;
      ob ← read_array h b;
      outs ← mapM (read_output h) ob;
      Some {| version := v; nVersionGroupId := g; inputs := ins; outputs := outs;
              nLockTime := lt; nExpiryHeight := eh; valueBalance := vb;
              branchId := br |}
  | _ => None
  end.

Definition view_transaction (t : loc) : M Transaction :=
  fun h => (h, defined (read_transaction h t)).

(** *** Constructors *)

(** Building the objects of a transaction value, all of them new. *)
Definition alloc_input (i : Input) : M loc :=
  s ← alloc (OScript (script i));
  alloc (OInput (prevTxId i) (outputIndex i) (sequenceNumber i) s (output i)).

Definition alloc_output (o : Output) : M loc := alloc (OOutput o).

Definition alloc_transaction (t : Transaction) : M loc :=
  ia ← mapM alloc_input (inputs t);
  a ← alloc (OArray ia);
  ob ← mapM alloc_output (outputs t);
  b ← alloc (OArray ob);
  alloc (OTransaction (version t) (nVersionGroupId t) a b (nLockTime t)
                      (nExpiryHeight t) (valueBalance t) (branchId t)).

(** Modelled from the spec: [Transaction.shallowCopy] of
    lib/transaction/transaction.js, not under src/ ("a way to obtain an
    immutable snapshot", "never mutate the caller's original"): the copy is
    rebuilt from the value of the original and shares no object with it. *)
Definition Transaction_shallowCopy (t : loc) : M loc :=
  tx ← view_transaction t;
  alloc_transaction tx.

(** Modelled from the spec: [new Script(script)] of lib/script/script.js,
    not under src/: a new script with the same bytes. *)
Definition new_Script (s : loc) : M loc :=
  c ← load_script s;
  alloc (OScript c).

(** [Script.empty()] *)
Definition Script_empty : M loc := alloc (OScript []).

(** Modelled from the spec: [new Input(params)] of lib/transaction/input.js,
    not under src/: a new input with the fields of [params], its script
    object included; an absent [params] is reported as an exception. *)
Definition new_Input (params : option loc) : M loc :=
  l ← lift (defined params);
  o ← load l;
  match o with
  | OInput p oi sq s out => alloc (OInput p oi sq s out)
  | _ => throw TypeError
  end.

(** [new Output({satoshis: v, script: Script.empty()})] *)
Definition new_Output (v : Z) : M loc :=
  alloc (OOutput {| satoshis := v; out_script := [] |}).

Section Builders.
Context `{Primitives}.

(** [script.removeCodeseparators()]: in place. *)
Definition Script_removeCodeseparators (s : loc) : M unit :=
  c ← load_script s;
  store s (OScript (removeCodeseparators c)).

(** Lines 24-172.  The Sapling-era builder assigns to nothing but its own
    locals and its writer: it is the function on values, applied to what
    [transaction] and [subscript] stand for. *)
Definition sighashSapling (transaction : loc) (sighashType : Z) (inputNumber : nat)
    (subscript : loc) : M Buffer :=
  tx ← view_transaction transaction;
  sub ← load_script subscript;
  lift (sighashSapling tx sighashType inputNumber sub).

(** Lines 184-249.  [None] from the middle block stands for falling
    through to line 238, [Some] for the [return] of line 225.  The loop
    bounds [txcopy.inputs.length] are read once: no iteration changes them. *)
Definition sighash (transaction : loc) (sighashType : Z) (inputNumber : nat)
    (subscript : loc) : M Buffer :=
  v ← get_version transaction;
  if v >=? 4 then sighashSapling transaction sighashType inputNumber subscript
  else
    txcopy ← Transaction_shallowCopy transaction;
    subscript ← new_Script subscript;
    _ ← Script_removeCodeseparators subscript;
    n ← (a ← get_inputs txcopy; elems ← load_array a; mret (length elems));
    _ ← for_uptoM n (fun i =>
          a ← get_inputs txcopy;
          elems ← load_array a;
          input ← new_Input (elems !! i);
          e ← Script_empty;
          _ ← setScript input e;
          store a (OArray (<[i := input]> elems)));
    a ← get_inputs txcopy;
    elems ← load_array a;
    input ← new_Input (elems !! inputNumber);
    _ ← setScript input subscript;
    _ ← store a (OArray (<[inputNumber := input]> elems));
    _ ← (if (js_band sighashType 31 =? SIGHASH_NONE)
            || (js_band sighashType 31 =? SIGHASH_SINGLE)
         then
           n ← (a ← get_inputs txcopy; elems ← load_array a; mret (length elems));
           for_uptoM n (fun i =>
             if bool_decide (i ≠ inputNumber) then
               a ← get_inputs txcopy;
               elems ← load_array a;
               l ← lift (defined (elems !! i));
               assign_sequenceNumber l 0
             else mret tt)
         else mret tt);
    returned ←
      (if js_band sighashType 31 =? SIGHASH_NONE then
         b ← alloc (OArray []);
         _ ← assign_outputs txcopy b;
         mret None
       else if js_band sighashType 31 =? SIGHASH_SINGLE then
         b ← get_outputs txcopy;
         elems ← load_array b;
         if bool_decide (length elems ≤ inputNumber)%nat then
           mret (Some (Buffer_from_hex SIGHASH_SINGLE_BUG))
         else
           _ ← store b (OArray (take (inputNumber + 1) elems));
           _ ← for_uptoM inputNumber (fun i =>
                 o ← new_Output (BN_fromBuffer (Buffer_from_hex BITS_64_ON));
                 b ← get_outputs txcopy;
                 elems ← load_array b;
                 store b (OArray (<[i := o]> elems)));
           mret None
       else mret None);
    match returned with
    | Some digest => mret digest
    | None =>
        _ ← (if js_truthy (js_band sighashType SIGHASH_ANYONECANPAY) then
               a ← get_inputs txcopy;
               elems ← load_array a;
               l ← lift (defined (elems !! inputNumber));
               a' ← alloc (OArray [l]);
               assign_inputs txcopy a'
             else mret tt);
        tx ← view_transaction txcopy;
        let buf := toBuffer (writeInt32LE (write BufferWriter_new (Transaction_toBuffer tx))
                                          sighashType) in
        let ret := sha256sha256 buf in
        let ret := readReverse ret in
        mret ret
    end.

(** Lines 262-268. *)
Definition sign (transaction : loc) (privateKey : PrivateKey) (sighashType : Z)
    (inputIndex : nat) (subscript : loc) : M Signature :=
  hashbuf ← sighash transaction sighashType inputIndex subscript;
  let sig := Signature_set_nhashtype (ECDSA_sign hashbuf privateKey Little) sighashType in
  mret sig.

(** Lines 281-286. *)
Definition verify (transaction : option loc) (signature : option Signature)
    (publicKey : PublicKey) (inputIndex : nat) (subscript : loc) : M bool :=
  _ ← lift (checkArgument (bool_decide (is_Some transaction)));
  _ ← lift (checkArgument (match signature with
                           | Some sig => bool_decide (is_Some (nhashtype sig))
                           | None => false
                           end));
  transaction ← lift (defined transaction);
  signature ← lift (defined signature);
  sighashType ← lift (defined (nhashtype signature));
  hashbuf ← sighash transaction sighashType inputIndex subscript;
  mret (ECDSA_verify hashbuf signature publicKey Little).

End Builders.

(** *** A transaction copy, object by object *)

(** The input object at [l] stands for [i]; the output object at [l] for [o]. *)
Definition input_at (h : heap) (l : loc) (i : Input) : Prop :=
  exists s, h !! l = Some (OInput (prevTxId i) (outputIndex i) (sequenceNumber i) s (output i))
    /\ h !! s = Some (OScript (script i)).

Definition output_at (h : heap) (l : loc) (o : Output) : Prop :=
  h !! l = Some (OOutput o).

(** The transaction object at [c] stands for [tx]: its inputs array is at
    [a] with elements [ia], its outputs array at [b] with elements [ob], and
    no input object is in the array twice. *)
Definition holds (h : heap) (c a b : loc) (ia ob : list loc) (tx : Transaction) : Prop :=
  h !! c = Some (OTransaction (version tx) (nVersionGroupId tx) a b (nLockTime tx)
                              (nExpiryHeight tx) (valueBalance tx) (branchId tx))
  /\ h !! a = Some (OArray ia)
  /\ h !! b = Some (OArray ob)
  /\ a <> b
  /\ Forall2 (input_at h) ia (inputs tx)
  /\ Forall2 (output_at h) ob (outputs tx)
  /\ NoDup ia.

(** *** What a call may touch *)

(** A location is new with respect to the caller's store [h0] when it lies
    beyond it. *)
Definition fresh (h0 : heap) (l : loc) : Prop := (length h0 <= l)%nat.

(** The locations an object lets the builder assign through: the arrays of
    a transaction and the elements of an array. *)
Definition refs_fresh (h0 : heap) (o : object) : Prop :=
  match o with
  | OArray elems => Forall (fresh h0) elems
  | OTransaction _ _ a b _ _ _ _ => fresh h0 a /\ fresh h0 b
  | _ => True
  end.

(** The caller's store is still there, and no new object leads back into
    it through an array or a transaction. *)
Definition separated (h0 h : heap) : Prop :=
  h0 `prefix_of` h
  /\ forall l o, fresh h0 l -> h !! l = Some o -> refs_fresh h0 o.

(** Run from any store separated from [h0], the computation leaves one
    that is, and what it returns satisfies [P]. *)
Definition safe {A : Type} (h0 : heap) (m : M A) (P : A -> Prop) : Prop :=
  forall h, separated h0 h ->
    separated h0 (m h).1 /\ forall a, (m h).2 = Ok a -> P a.

(** Every object of [h] is in [h'], unchanged, and so is every transaction
    and script value. *)
Definition unchanged (h h' : heap) : Prop :=
  h `prefix_of` h'
  /\ (forall l o, h !! l = Some o -> h' !! l = Some o)
  /\ (forall l tx, read_transaction h l = Some tx -> read_transaction h' l = Some tx)
  /\ (forall l s, read_script h l = Some s -> read_script h' l = Some s).

(** A store holding [sample_legacy] at location 10 and a subscript at 11. *)
Definition sample_heap : heap :=
  fst ((_ ← alloc_transaction sample_legacy; alloc (OScript [x51; xab])) []).

End Heap.

(* ===================================================================== *)
(** ** Integer conversions and encodings *)
(* ===================================================================== *)

Lemma ToInt32_mod (z : Z) : ToInt32 z mod 2 ^ 32 = z mod 2 ^ 32.
Proof.
  unfold ToInt32. cbv zeta.
  destruct (z mod 2 ^ 32 <? 2 ^ 31).
  - apply Z.mod_mod. lia.
  - replace (z mod 2 ^ 32 - 2 ^ 32) with (z mod 2 ^ 32 + (-1) * 2 ^ 32) by lia.
    rewrite Z.mod_add by lia. apply Z.mod_mod. lia.
Qed.

Lemma ToUint32_mod (z : Z) : ToUint32 z mod 2 ^ 32 = z mod 2 ^ 32.
Proof. unfold ToUint32. apply Z.mod_mod. lia. Qed.

Lemma testbit_congr (a b n k : Z) :
  a mod 2 ^ n = b mod 2 ^ n -> 0 <= k < n -> Z.testbit a k = Z.testbit b k.
Proof.
  intros E Hk.
  rewrite <- (Z.mod_pow2_bits_low a n k), <- (Z.mod_pow2_bits_low b n k) by lia.
  now rewrite E.
Qed.

Lemma mod_pow2_divide (a n m : Z) :
  0 <= m <= n -> (a mod 2 ^ n) mod 2 ^ m = a mod 2 ^ m.
Proof.
  intros Hm. apply Z.mod_mod_divide.
  exists (2 ^ (n - m)). rewrite <- Z.pow_add_r by lia. f_equal. lia.
Qed.

Lemma land_lor_mod (a b n : Z) :
  0 <= n -> Z.lor a b mod 2 ^ n = Z.lor (a mod 2 ^ n) (b mod 2 ^ n).
Proof.
  intros Hn. rewrite <- !Z.land_ones by lia. apply Z.land_lor_distr_l.
Qed.

(** [sighashType & 31] keeps bits 0-4. *)
Lemma js_band_31 (t : Z) : js_band t 31 = selector t.
Proof.
  unfold js_band, selector.
  change (ToInt32 31) with 31. change 31 with (Z.ones 5).
  rewrite !Z.land_ones by lia.
  rewrite <- (mod_pow2_divide (ToInt32 t) 32 5), <- (mod_pow2_divide t 32 5) by lia.
  now rewrite ToInt32_mod.
Qed.

Lemma selector_range (t : Z) : 0 <= selector t < 32.
Proof.
  unfold selector. change 31 with (Z.ones 5). rewrite Z.land_ones by lia.
  apply Z.mod_pos_bound. lia.
Qed.

Lemma land_128 (a : Z) : Z.land a 128 = if Z.testbit a 7 then 128 else 0.
Proof.
  apply Z.bits_inj'. intros n Hn.
  rewrite Z.land_spec. change 128 with (2 ^ 7).
  destruct (Z.eq_dec n 7) as [->|Hne].
  - rewrite Z.pow2_bits_true by lia. rewrite andb_true_r.
    destruct (Z.testbit a 7) eqn:E; [now rewrite Z.pow2_bits_true by lia|].
    now rewrite Z.bits_0.
  - rewrite Z.pow2_bits_false by lia. rewrite andb_false_r.
    destruct (Z.testbit a 7); [now rewrite Z.pow2_bits_false by lia|].
    now rewrite Z.bits_0.
Qed.

(** [sighashType & SIGHASH_ANYONECANPAY] is truthy exactly when bit 7 is set. *)
Lemma js_band_anyonecanpay (t : Z) :
  js_truthy (js_band t SIGHASH_ANYONECANPAY) = anyonecanpay t.
Proof.
  unfold js_truthy, js_band, anyonecanpay, SIGHASH_ANYONECANPAY.
  change (ToInt32 128) with 128. rewrite land_128.
  rewrite (testbit_congr (ToInt32 t) t 32 7) by (apply ToInt32_mod || lia).
  now destruct (Z.testbit t 7).
Qed.

Lemma byte_of_Z_congr (a b : Z) : a mod 256 = b mod 256 -> byte_of_Z a = byte_of_Z b.
Proof. unfold byte_of_Z. now intros ->. Qed.

Lemma le_bytes_congr (n : nat) (a b : Z) :
  a mod 2 ^ (8 * Z.of_nat n) = b mod 2 ^ (8 * Z.of_nat n) -> le_bytes n a = le_bytes n b.
Proof.
  revert a b. induction n as [|n IH]; intros a b E; [reflexivity|].
  cbn [le_bytes].
  replace (8 * Z.of_nat (S n)) with (8 + 8 * Z.of_nat n) in E by lia.
  rewrite Z.pow_add_r in E by lia.
  rewrite !Z.rem_mul_r in E by lia. change (2 ^ 8) with 256 in E.
  assert (E0 : a mod 256 = b mod 256).
  { apply (f_equal (fun z => z mod 256)) in E.
    rewrite !(Z.mul_comm 256), !Z.mod_add, !Z.mod_mod in E by lia. exact E. }
  f_equal; [now apply byte_of_Z_congr|].
  apply IH. rewrite !Z.shiftr_div_pow2 by lia. change (2 ^ 8) with 256. lia.
Qed.

Lemma le_bytes_length (n : nat) (z : Z) : length (le_bytes n z) = n.
Proof. revert z. induction n; intros; cbn; [reflexivity | now rewrite IHn]. Qed.

(** Line 97-98: the four header bytes are the version with bit 31 set. *)
Lemma header_bytes (v : Z) :
  le_bytes 4 (js_bor v (js_shl 1 31)) = le_bytes 4 (Z.lor v (2 ^ 31)).
Proof.
  apply le_bytes_congr. change (8 * Z.of_nat 4) with 32.
  unfold js_bor. change (ToInt32 (js_shl 1 31)) with (- 2 ^ 31).
  rewrite !land_lor_mod by lia. rewrite ToInt32_mod. reflexivity.
Qed.

(** Line 144: [sighashType >>> 0] has the low 32 bits of [sighashType]. *)
Lemma ushr0_bytes (t : Z) : le_bytes 4 (js_ushr0 t) = le_bytes 4 t.
Proof. apply le_bytes_congr. apply ToUint32_mod. Qed.

Lemma ZERO_zero32 : ZERO = zero32.
Proof. reflexivity. Qed.

Lemma SIGHASH_SINGLE_BUG_bytes : Buffer_from_hex SIGHASH_SINGLE_BUG = single_bug_digest.
Proof. reflexivity. Qed.

Lemma BITS_64_ON_value : BN_fromBuffer (Buffer_from_hex BITS_64_ON) = 0xFFFFFFFFFFFFFFFF.
Proof. reflexivity. Qed.

(* ===================================================================== *)
(** ** Writers and loops *)
(* ===================================================================== *)

Lemma for_upto_S {S : Type} (n : nat) (body : nat -> S -> S) (s : S) :
  for_upto (Datatypes.S n) body s = body n (for_upto n body s).
Proof. unfold for_upto. rewrite seq_S, foldl_app. reflexivity. Qed.

(** An [_.each] that writes one or more buffers per element leaves the
    concatenation of what each element contributes. *)
Lemma toBuffer_each {A : Type} (step : BufferWriter -> A -> BufferWriter)
    (bytes_of : A -> Buffer) (l : list A) (w : BufferWriter) :
  (forall w x, toBuffer (step w x) = toBuffer w ++ bytes_of x) ->
  toBuffer (foldl step w l) = toBuffer w ++ concat (map bytes_of l).
Proof.
  intros Hstep. revert w. induction l as [|x l IH]; intros w; cbn.
  - now rewrite app_nil_r.
  - rewrite IH, Hstep, <- app_assoc. reflexivity.
Qed.

Lemma toBuffer_snoc (w : BufferWriter) (b : Buffer) : toBuffer (w ++ [b]) = toBuffer w ++ b.
Proof. unfold toBuffer. rewrite concat_app. cbn. now rewrite app_nil_r. Qed.

Section BuilderFacts.
Context `{Primitives}.

Lemma GetPrevoutHash_spec (tx : Transaction) :
  GetPrevoutHash tx =
  blake2b 32 (Buffer_from_string "ZcashPrevoutHash")
    (concat (map (fun i => rev (prevTxId i) ++ le_bytes 4 (outputIndex i)) (inputs tx))).
Proof.
  unfold GetPrevoutHash, getBlake2bHash. f_equal.
  rewrite (toBuffer_each _ (fun i => rev (prevTxId i) ++ le_bytes 4 (outputIndex i))).
  - reflexivity.
  - intros w x. unfold writeUInt32LE, writeReverse.
    rewrite !toBuffer_snoc, <- app_assoc. reflexivity.
Qed.

Lemma GetSequenceHash_spec (tx : Transaction) :
  GetSequenceHash tx =
  blake2b 32 (Buffer_from_string "ZcashSequencHash")
    (concat (map (fun i => le_bytes 4 (sequenceNumber i)) (inputs tx))).
Proof.
  unfold GetSequenceHash, getBlake2bHash. f_equal.
  rewrite (toBuffer_each _ (fun i => le_bytes 4 (sequenceNumber i))).
  - reflexivity.
  - intros w x. unfold writeUInt32LE. now rewrite toBuffer_snoc.
Qed.

Lemma GetOutputsHash_all (tx : Transaction) :
  GetOutputsHash tx None =
  Ok (blake2b 32 (Buffer_from_string "ZcashOutputsHash")
        (concat (map Output_toBuffer (outputs tx)))).
Proof.
  unfold GetOutputsHash, getBlake2bHash. cbn. do 2 f_equal.
  rewrite (toBuffer_each _ Output_toBuffer).
  - reflexivity.
  - intros w x. unfold Output_toBufferWriter, write. now rewrite toBuffer_snoc.
Qed.

Lemma GetOutputsHash_one (tx : Transaction) (n : nat) (o : Output) :
  outputs tx !! n = Some o ->
  GetOutputsHash tx (Some n) =
  Ok (blake2b 32 (Buffer_from_string "ZcashOutputsHash") (Output_toBuffer o)).
Proof.
  intros E. unfold GetOutputsHash, getBlake2bHash. rewrite E. cbn.
  now rewrite app_nil_r.
Qed.

Lemma sapling_hashPrevouts_spec (tx : Transaction) (t : Z) :
  sapling_hashPrevouts tx t = spec_prevouts_hash tx t.
Proof.
  unfold sapling_hashPrevouts, spec_prevouts_hash.
  rewrite js_band_anyonecanpay, GetPrevoutHash_spec.
  now destruct (anyonecanpay t).
Qed.

Lemma sapling_hashSequence_spec (tx : Transaction) (t : Z) :
  sapling_hashSequence tx t = spec_sequence_hash tx t.
Proof.
  unfold sapling_hashSequence, spec_sequence_hash.
  rewrite js_band_anyonecanpay, js_band_31, GetSequenceHash_spec.
  destruct (anyonecanpay t), (selector t =? SIGHASH_SINGLE),
    (selector t =? SIGHASH_NONE); reflexivity.
Qed.

Lemma sapling_hashOutputs_spec (tx : Transaction) (t : Z) (i : nat) :
  sapling_hashOutputs tx t i = Ok (spec_outputs_hash tx t i).
Proof.
  unfold sapling_hashOutputs, spec_outputs_hash. rewrite js_band_31.
  destruct (selector t =? SIGHASH_SINGLE) eqn:Es; cbn [negb andb].
  - case_bool_decide as Hi.
    + destruct (lookup_lt_is_Some_2 (outputs tx) i Hi) as [o Ho].
      rewrite Ho. now apply GetOutputsHash_one.
    + rewrite lookup_ge_None_2 by lia. reflexivity.
  - destruct (selector t =? SIGHASH_NONE) eqn:En; cbn [negb andb]; [reflexivity|].
    apply GetOutputsHash_all.
Qed.

(** What the Sapling-era builder has written when it reaches line 160. *)
Lemma sapling_writer_chunks (tx : Transaction) (t : Z) (i : nat) (sub : Script)
    (input : Input) (spent : Output) :
  inputs tx !! i = Some input -> output input = Some spent ->
  sapling_writer tx t i sub =
  Ok [ le_bytes 4 (Z.lor (version tx) (2 ^ 31));
       le_bytes 4 (nVersionGroupId tx);
       spec_prevouts_hash tx t;
       spec_sequence_hash tx t;
       spec_outputs_hash tx t i;
       zero32; zero32; zero32;
       le_bytes 4 (nLockTime tx);
       le_bytes 4 (nExpiryHeight tx);
       le_bytes 8 (valueBalance tx);
       le_bytes 4 t;
       rev (prevTxId input);
       le_bytes 4 (outputIndex input);
       varint (Z.of_nat (length sub));
       sub;
       le_bytes 8 (satoshis spent);
       le_bytes 4 (sequenceNumber input) ].
Proof.
  intros Ei Eo. unfold sapling_writer.
  rewrite sapling_hashOutputs_spec, Ei.
  unfold mbind, result_bind, defined. rewrite Eo.
  unfold writeInt32LE, writeUInt32LE, writeUInt64LEBN, write,
    writeReverse, writeVarintNum, BufferWriter_new.
  rewrite sapling_hashPrevouts_spec, sapling_hashSequence_spec.
  rewrite header_bytes, ushr0_bytes, ZERO_zero32.
  reflexivity.
Qed.

Lemma sapling_writer_fields (tx : Transaction) (t : Z) (i : nat) (sub : Script)
    (input : Input) (spent : Output) :
  inputs tx !! i = Some input -> output input = Some spent ->
  toBuffer <$> sapling_writer tx t i sub =
  Ok (concat (spec_sapling_fields tx t i sub input spent)).
Proof.
  intros Ei Eo. rewrite (sapling_writer_chunks _ _ _ _ _ _ Ei Eo).
  unfold fmap, result_fmap, toBuffer, spec_sapling_fields. f_equal.
  cbn [concat]. rewrite <- !app_assoc. reflexivity.
Qed.

(** Lines 161-168: the prefix, then the branch id, sixteen bytes in all. *)
Lemma sapling_personalization_spec (tx : Transaction) :
  sapling_personalization tx = spec_personalization (branch_id_if_nonzero tx).
Proof.
  unfold sapling_personalization, spec_personalization.
  assert (E : sapling_consensusBranchId tx = branch_id_if_nonzero tx).
  { unfold sapling_consensusBranchId, branch_id_if_nonzero, js_truthy.
    destruct (branchId tx) as [b|]; [|reflexivity].
    destruct (decide (b = 0)) as [->|Hb]; [reflexivity|].
    now destruct (Z.eqb_spec b 0). }
  rewrite E. generalize (branch_id_if_nonzero tx). intros b.
  reflexivity.
Qed.

End BuilderFacts.

(* ===================================================================== *)
(** ** The legacy builder's loops *)
(* ===================================================================== *)

Lemma rounds_0 {A : Type} (F : nat -> A -> A) (l : list A) : rounds F 0 l = l.
Proof.
  unfold rounds. apply list_eq. intros i. rewrite list_lookup_imap.
  destruct (l !! i); cbn; [|reflexivity]. case_decide; [lia | reflexivity].
Qed.

Lemma rounds_all {A : Type} (F : nat -> A -> A) (k : nat) (l : list A) :
  (length l <= k)%nat -> rounds F k l = imap F l.
Proof.
  intros Hk. apply imap_ext. intros i x Hi.
  apply lookup_lt_Some in Hi. case_decide; [reflexivity | lia].
Qed.

Lemma rounds_S {A : Type} (F : nat -> A -> A) (k : nat) (l : list A) :
  alter (F k) k (rounds F k l) = rounds F (S k) l.
Proof.
  unfold rounds. apply list_eq. intros i.
  rewrite list_lookup_alter, !list_lookup_imap.
  destruct (decide (k = i)) as [->|Hne].
  - destruct (l !! i); cbn; [|reflexivity].
    repeat case_decide; try lia. reflexivity.
  - destruct (l !! i); cbn; [|reflexivity].
    repeat case_decide; try lia; reflexivity.
Qed.

Lemma rounds_lookup_next {A : Type} (F : nat -> A -> A) (k : nat) (l : list A) :
  rounds F k l !! k = l !! k.
Proof.
  unfold rounds. rewrite list_lookup_imap.
  destruct (l !! k); cbn; [|reflexivity]. case_decide; [lia | reflexivity].
Qed.

Lemma rounds_length {A : Type} (F : nat -> A -> A) (k : nat) (l : list A) :
  length (rounds F k l) = length l.
Proof. apply length_imap. Qed.

Lemma insert_as_alter {A : Type} (l : list A) (k : nat) (x y : A) (f : A -> A) :
  l !! k = Some x -> f x = y -> <[k := y]> l = alter f k l.
Proof.
  intros Hk <-. apply list_eq. intros i.
  rewrite list_lookup_insert, list_lookup_alter.
  apply lookup_lt_Some in Hk as Hlt.
  destruct (decide (k = i)) as [->|Hne].
  - rewrite Hk. cbn. case_decide; [reflexivity | tauto].
  - case_decide; [tauto | reflexivity].
Qed.

Lemma set_inputs_same (tx : Transaction) : set_inputs tx (inputs tx) = tx.
Proof. now destruct tx. Qed.

Lemma set_outputs_same (tx : Transaction) : set_outputs tx (outputs tx) = tx.
Proof. now destruct tx. Qed.

(** Lines 200-203 give every input an empty script. *)
Lemma blank_scripts_spec (tx : Transaction) :
  blank_scripts tx = Ok (set_inputs tx (imap (fun _ i => setScript i []) (inputs tx))).
Proof.
  unfold blank_scripts.
  set (body := fun (i : nat) (acc : result Transaction) => _).
  assert (Hk : forall k, (k <= length (inputs tx))%nat ->
            for_upto k body (Ok tx) =
            Ok (set_inputs tx (rounds (fun _ i => setScript i []) k (inputs tx)))).
  { induction k as [|k IH]; intros Hle.
    - unfold for_upto. cbn. now rewrite rounds_0, set_inputs_same.
    - rewrite for_upto_S, IH by lia. unfold body at 1.
      unfold mbind, result_bind. cbn [inputs set_inputs].
      rewrite rounds_lookup_next.
      destruct (lookup_lt_is_Some_2 (inputs tx) k) as [x Hx]; [lia|].
      rewrite Hx. cbn [new_Input defined]. f_equal.
      unfold set_inputs at 1. cbn [version nVersionGroupId outputs nLockTime
        nExpiryHeight valueBalance branchId set_inputs].
      unfold set_inputs. f_equal.
      rewrite <- rounds_S. apply insert_as_alter with (x := x); [|reflexivity].
      rewrite rounds_lookup_next. exact Hx. }
  rewrite Hk by lia. now rewrite rounds_all by lia.
Qed.

(** Lines 211-215 zero the sequence number of every input but [inputNumber]. *)
Lemma clear_sequenceNumbers_spec (i : nat) (tx : Transaction) :
  clear_sequenceNumbers i tx =
  set_inputs tx (imap (fun j x => if decide (j = i) then x else set_sequenceNumber x 0)
                      (inputs tx)).
Proof.
  unfold clear_sequenceNumbers.
  set (F := fun (j : nat) (x : Input) => if decide (j = i) then x else set_sequenceNumber x 0).
  set (body := fun (j : nat) (txcopy : Transaction) => _).
  assert (Hk : forall k, for_upto k body tx = set_inputs tx (rounds F k (inputs tx))).
  { induction k as [|k IH].
    - unfold for_upto. cbn. now rewrite rounds_0, set_inputs_same.
    - rewrite for_upto_S, IH. unfold body at 1. rewrite <- rounds_S.
      case_bool_decide as Hki.
      + unfold set_inputs. cbn. do 2 f_equal.
        unfold F. destruct (decide (k = i)); [contradiction | reflexivity].
      + f_equal. rewrite list_alter_id; [reflexivity|].
        intros x. unfold F. destruct (decide (k = i)); [reflexivity | contradiction]. }
  rewrite Hk. now rewrite rounds_all by lia.
Qed.

(** Lines 230-235 overwrite the outputs before [inputNumber]. *)
Lemma null_outputs_spec (i : nat) (tx : Transaction) :
  null_outputs i tx =
  set_outputs tx (imap (fun j x => if decide (j < i)%nat then null_output else x)
                       (outputs tx)).
Proof.
  unfold null_outputs.
  set (body := fun (j : nat) (txcopy : Transaction) => _).
  assert (Hk : forall k, for_upto k body tx =
                         set_outputs tx (rounds (fun _ _ => null_output) k (outputs tx))).
  { induction k as [|k IH].
    - unfold for_upto. cbn. now rewrite rounds_0, set_outputs_same.
    - rewrite for_upto_S, IH. unfold body at 1. rewrite BITS_64_ON_value.
      unfold set_outputs. cbn. f_equal. rewrite <- rounds_S.
      apply list_eq. intros j.
      rewrite list_lookup_insert, list_lookup_alter, rounds_length.
      destruct (decide (k = j)) as [->|Hne].
      + destruct (rounds _ j (outputs tx) !! j) eqn:E.
        * apply lookup_lt_Some in E as Hlt. rewrite rounds_length in Hlt.
          cbn. case_decide; [reflexivity | lia].
        * apply lookup_ge_None in E. rewrite rounds_length in E.
          cbn. case_decide; [lia | reflexivity].
      + case_decide; [lia | reflexivity]. }
  rewrite Hk. reflexivity.
Qed.

Lemma take1_drop {A : Type} (l : list A) (i : nat) (x : A) :
  l !! i = Some x -> take 1 (drop i l) = [x].
Proof. intros E. now rewrite (drop_S _ _ _ E). Qed.

(** Lines 228-235 on the output list: nulls, then the output at [i]. *)
Lemma single_outputs_eq (outs : list Output) (i : nat) :
  (i < length outs)%nat ->
  imap (fun j x => if decide (j < i)%nat then null_output else x) (take (i + 1) outs) =
  replicate i null_output ++ take 1 (drop i outs).
Proof.
  intros Hi. destruct (lookup_lt_is_Some_2 outs i Hi) as [o Ho].
  rewrite (take1_drop _ _ _ Ho). apply list_eq. intros j.
  rewrite list_lookup_imap, lookup_take.
  destruct (decide (j < i)%nat) as [Hlt|Hge].
  - rewrite lookup_app_l by (rewrite length_replicate; lia).
    rewrite lookup_replicate_2 by lia.
    destruct (lookup_lt_is_Some_2 outs j) as [x Hx]; [lia|].
    rewrite decide_True by lia. rewrite Hx. reflexivity.
  - rewrite lookup_app_r by (rewrite length_replicate; lia).
    rewrite length_replicate.
    destruct (decide (j = i)) as [->|Hne].
    + rewrite decide_True by lia. rewrite Ho, Nat.sub_diag. reflexivity.
    + rewrite decide_False by lia.
      destruct (j - i)%nat as [|d] eqn:E; [lia | reflexivity].
Qed.

Section LegacyFacts.
Context `{Primitives}.

(** Lines 200-216 on the input list. *)
Lemma legacy_inputs_eq (tx : Transaction) (t : Z) (i : nat) (sub : Script) (input : Input) :
  inputs tx !! i = Some input ->
  let blanked := imap (fun _ x => setScript x []) (inputs tx) in
  let placed := <[i := setScript (setScript input []) (removeCodeseparators sub)]> blanked in
  (if (selector t =? SIGHASH_NONE) || (selector t =? SIGHASH_SINGLE)
   then imap (fun j x => if decide (j = i) then x else set_sequenceNumber x 0) placed
   else placed) = spec_legacy_inputs tx t i sub.
Proof.
  intros Ei blanked placed. unfold spec_legacy_inputs.
  apply lookup_lt_Some in Ei as Hlt.
  assert (Hplaced : forall j, placed !! j =
            (fun x => if decide (j = i) then setScript x (removeCodeseparators sub)
                      else setScript x []) <$> inputs tx !! j).
  { intros j. unfold placed, blanked.
    rewrite list_lookup_insert, length_imap, list_lookup_imap.
    destruct (decide (j = i)) as [->|Hne].
    - rewrite decide_True by tauto. rewrite Ei. reflexivity.
    - rewrite decide_False by (intros [? _]; congruence). reflexivity. }
  apply list_eq. intros j. rewrite list_lookup_imap.
  destruct ((selector t =? SIGHASH_NONE) || (selector t =? SIGHASH_SINGLE)) eqn:Esel.
  - rewrite list_lookup_imap, Hplaced.
    destruct (inputs tx !! j) as [x|]; [cbn|reflexivity].
    destruct (decide (j = i)); [reflexivity|].
    rewrite decide_True; [reflexivity|].
    apply orb_true_iff in Esel. destruct Esel as [E|E]; apply Z.eqb_eq in E; tauto.
  - rewrite Hplaced.
    destruct (inputs tx !! j) as [x|]; [cbn|reflexivity].
    destruct (decide (j = i)); [reflexivity|].
    rewrite decide_False; [reflexivity|].
    apply orb_false_iff in Esel. destruct Esel as [E1 E2].
    apply Z.eqb_neq in E1, E2. tauto.
Qed.

Lemma spec_legacy_inputs_lookup (tx : Transaction) (t : Z) (i : nat) (sub : Script)
    (input : Input) :
  inputs tx !! i = Some input ->
  spec_legacy_inputs tx t i sub !! i = Some (setScript input (removeCodeseparators sub)).
Proof.
  intros Ei. unfold spec_legacy_inputs. rewrite list_lookup_imap, Ei. cbn.
  now rewrite decide_True.
Qed.

(** Lines 192-225 when the quirk applies: the builder returns at once. *)
Lemma legacy_build_returned (tx : Transaction) (t : Z) (i : nat) (sub : Script) :
  is_Some (inputs tx !! i) -> selector t = SIGHASH_SINGLE ->
  (length (outputs tx) <= i)%nat ->
  legacy_build tx t i sub = Ok (Returned single_bug_digest).
Proof.
  intros [input Ei] Es Hi. unfold legacy_build.
  rewrite blank_scripts_spec. unfold mbind, result_bind. cbn [inputs set_inputs].
  rewrite list_lookup_imap, Ei. cbn [fmap option_fmap option_map new_Input defined].
  rewrite !js_band_31, Es. cbn [Z.eqb SIGHASH_NONE SIGHASH_SINGLE Pos.eqb orb].
  rewrite clear_sequenceNumbers_spec. cbn [outputs set_inputs].
  rewrite bool_decide_true by exact Hi. reflexivity.
Qed.

(** Lines 192-240 otherwise: the copy that reaches line 242. *)
Lemma legacy_build_copy (tx : Transaction) (t : Z) (i : nat) (sub : Script) :
  is_Some (inputs tx !! i) ->
  ~ (selector t = SIGHASH_SINGLE /\ (length (outputs tx) <= i)%nat) ->
  legacy_build tx t i sub = Ok (Copy (spec_legacy_copy tx t i sub)).
Proof.
  intros [input Ei] Hq. unfold legacy_build.
  rewrite blank_scripts_spec. unfold mbind, result_bind. cbn [inputs set_inputs].
  rewrite list_lookup_imap, Ei. cbn [fmap option_fmap option_map new_Input defined].
  rewrite !js_band_31, js_band_anyonecanpay.
  pose proof (legacy_inputs_eq tx t i sub input Ei) as Hin. cbv zeta in Hin.
  pose proof (spec_legacy_inputs_lookup tx t i sub input Ei) as Hlk.
  unfold spec_legacy_copy, spec_legacy_outputs.
  set (ins := spec_legacy_inputs tx t i sub) in *.
  assert (Hcopy : forall txc : Transaction, inputs txc = ins ->
            (if anyonecanpay t
             then defined (inputs txc !! i) ≫= (fun input0 => Ok (Copy (set_inputs txc [input0])))
             else Ok (Copy txc)) =
            Ok (Copy (set_inputs txc (if anyonecanpay t then take 1 (drop i ins) else ins)))).
  { intros txc E. destruct (anyonecanpay t).
    - rewrite E, Hlk. cbn. now rewrite (take1_drop _ _ _ Hlk).
    - now rewrite <- E, set_inputs_same. }
  unfold mbind, result_bind in Hcopy.
  destruct (selector t =? SIGHASH_NONE) eqn:En.
  - apply Z.eqb_eq in En as En'. rewrite decide_True by exact En'.
    cbn [orb] in *. rewrite clear_sequenceNumbers_spec. cbn [inputs set_inputs].
    rewrite Hcopy by (cbn; exact Hin). reflexivity.
  - apply Z.eqb_neq in En as En'. rewrite decide_False by exact En'.
    cbn [orb] in *.
    destruct (selector t =? SIGHASH_SINGLE) eqn:Es.
    + apply Z.eqb_eq in Es as Es'. rewrite decide_True by exact Es'.
      rewrite clear_sequenceNumbers_spec.
      rewrite Hcopy by (rewrite null_outputs_spec; cbn; exact Hin).
      rewrite null_outputs_spec. cbn [inputs outputs set_inputs set_outputs].
      rewrite bool_decide_false by (intros ?; apply Hq; split; [exact Es' | lia]).
      rewrite single_outputs_eq by lia. reflexivity.
    + apply Z.eqb_neq in Es as Es'. rewrite decide_False by exact Es'.
      rewrite Hcopy by (cbn; exact Hin). cbn. now destruct tx.
Qed.

End LegacyFacts.

(* ===================================================================== *)
(** ** The dispatcher *)
(* ===================================================================== *)

Section DispatcherFacts.
Context `{Primitives}.

Lemma sighash_sapling_era (tx : Transaction) (t : Z) (i : nat) (sub : Script) :
  4 <= version tx -> sighash tx t i sub = sighashSapling tx t i sub.
Proof.
  intros Hv. unfold sighash.
  destruct (Z.geb_spec (version tx) 4) as [_|Hlt]; [reflexivity | lia].
Qed.

Lemma sighash_legacy_era (tx : Transaction) (t : Z) (i : nat) (sub : Script) :
  version tx < 4 ->
  sighash tx t i sub =
  b ← legacy_build tx t i sub;
  match b with
  | Returned digest => Ok digest
  | Copy txcopy => Ok (rev (sha256sha256 (Transaction_toBuffer txcopy ++ le_bytes 4 t)))
  end.
Proof.
  intros Hv. unfold sighash.
  destruct (Z.geb_spec (version tx) 4) as [Hge|_]; [lia|].
  destruct (legacy_build tx t i sub) as [[d|txcopy]|e]; reflexivity.
Qed.

Lemma legacy_build_absent (tx : Transaction) (t : Z) (i : nat) (sub : Script) :
  inputs tx !! i = None -> legacy_build tx t i sub = Err TypeError.
Proof.
  intros Ei. unfold legacy_build.
  rewrite blank_scripts_spec. unfold mbind, result_bind. cbn [inputs set_inputs].
  rewrite list_lookup_imap, Ei. reflexivity.
Qed.

Lemma sighash_well_formed (tx : Transaction) (t : Z) (i : nat) (sub : Script) :
  well_formed tx i = true -> exists digest, sighash tx t i sub = Ok digest.
Proof.
  unfold well_formed. intros Hwf.
  destruct (inputs tx !! i) as [input|] eqn:Ei; [|discriminate].
  destruct (Z.ltb_spec (version tx) 4) as [Hlt|Hge].
  - rewrite sighash_legacy_era by exact Hlt.
    destruct (decide (selector t = SIGHASH_SINGLE /\ (length (outputs tx) <= i)%nat))
      as [[Hs Hi]|Hq].
    + rewrite legacy_build_returned by (rewrite ?Ei; eauto). cbn. eauto.
    + rewrite legacy_build_copy by (rewrite ?Ei; eauto). cbn. eauto.
  - cbn in Hwf. apply bool_decide_eq_true in Hwf as [spent Eo].
    rewrite sighash_sapling_era by lia. unfold sighashSapling.
    rewrite (sapling_writer_chunks _ _ _ _ _ _ Ei Eo). cbn. eauto.
Qed.

Lemma sighash_ill_formed (tx : Transaction) (t : Z) (i : nat) (sub : Script) :
  well_formed tx i = false -> sighash tx t i sub = Err TypeError.
Proof.
  unfold well_formed. intros Hwf.
  destruct (Z.ltb_spec (version tx) 4) as [Hlt|Hge].
  - destruct (inputs tx !! i) as [input|] eqn:Ei; [discriminate|].
    rewrite sighash_legacy_era by exact Hlt.
    now rewrite legacy_build_absent by exact Ei.
  - rewrite sighash_sapling_era by lia. unfold sighashSapling, sapling_writer.
    rewrite sapling_hashOutputs_spec. unfold mbind, result_bind.
    destruct (inputs tx !! i) as [input|] eqn:Ei; [|reflexivity].
    cbn in Hwf. apply bool_decide_eq_false in Hwf. cbn [defined].
    destruct (output input) as [spent|]; [|reflexivity].
    exfalso. apply Hwf. eauto.
Qed.

(** The only exception [sighash] raises is the one of a read on
    [undefined]; it never raises the precondition violation. *)
Lemma sighash_error (tx : Transaction) (t : Z) (i : nat) (sub : Script) (e : error) :
  sighash tx t i sub = Err e -> e = TypeError.
Proof.
  destruct (well_formed tx i) eqn:Hwf.
  - destruct (sighash_well_formed tx t i sub Hwf) as [d ->]. discriminate.
  - rewrite (sighash_ill_formed tx t i sub Hwf). congruence.
Qed.

End DispatcherFacts.

(* ===================================================================== *)
(** ** Properties of the builders *)
(* ===================================================================== *)

Section Claims.
Context `{Primitives}.

(** C2 — For a transaction of version below 4, a signature type whose low
    selector is SINGLE and an [inputNumber] at or beyond the number of
    outputs, the legacy builder leaves through its early return, before any
    copy is serialised or hashed, and [sighash] returns the 32 bytes
    00..0001 (the byte 1 last), whatever the other fields of the transaction
    and whatever the ANYONECANPAY bit. *)
Theorem legacy_single_bug (tx : Transaction) (t : Z) (i : nat) (sub : Script) :
  version tx < 4 ->
  selector t = SIGHASH_SINGLE ->
  (length (outputs tx) <= i)%nat ->
  is_Some (inputs tx !! i) ->
  legacy_build tx t i sub = Ok (Returned single_bug_digest)
  /\ sighash tx t i sub = Ok single_bug_digest
  /\ single_bug_digest = replicate 31 x00 ++ [x01]
  /\ length single_bug_digest = 32%nat.
Proof.
  intros Hv Hs Hi Hin.
  pose proof (legacy_build_returned tx t i sub Hin Hs Hi) as Hb.
  repeat split; [exact Hb|].
  rewrite sighash_legacy_era by exact Hv. now rewrite Hb.
Qed.

(** C3 — For a transaction of version 4 or more, [sighash] hashes the
    fields of the Sapling-era layout in the order of the specification under
    the personalization "ZcashSigHash" followed by the four little-endian
    bytes of the consensus branch id, and returns the 32 bytes reversed.
    The branch id is the transaction's own when it has one that is not 0,
    and the default 0x76b809bb otherwise. *)
Theorem sapling_digest_layout (tx : Transaction) (t : Z) (i : nat) (sub : Script)
    (input : Input) (spent : Output) :
  4 <= version tx ->
  inputs tx !! i = Some input ->
  output input = Some spent ->
  sighash tx t i sub = Ok (spec_sapling_digest branch_id_if_nonzero tx t i sub input spent)
  /\ DEFAULT_BRANCH_ID = 0x76b809bb
  /\ length (spec_personalization (branch_id_if_nonzero tx)) = 16%nat.
Proof.
  intros Hv Ei Eo. repeat split.
  rewrite sighash_sapling_era by exact Hv. unfold sighashSapling.
  pose proof (sapling_writer_fields tx t i sub input spent Ei Eo) as Hw.
  destruct (sapling_writer tx t i sub) as [w|e]; [|discriminate].
  cbn in Hw. injection Hw as Hw. cbn [mbind result_bind].
  unfold spec_sapling_digest, readReverse, getBlake2bHash.
  now rewrite Hw, sapling_personalization_spec.
Qed.

(** C4 — In the Sapling-era builder the third buffer written is the
    prevouts hash: the personalized hash of every input's reversed previous
    transaction id and little-endian output index, in order, or 32 zero
    bytes when ANYONECANPAY is set.  The fourth is the sequence hash: the
    personalized hash of every input's little-endian sequence number, in
    order, or 32 zero bytes when ANYONECANPAY is set or the selector is
    SINGLE or NONE.  Under SINGLE|ANYONECANPAY both are 32 zero bytes. *)
Theorem sapling_prevouts_sequence_hashes (tx : Transaction) (t : Z) (i : nat)
    (sub : Script) (input : Input) (spent : Output) :
  inputs tx !! i = Some input ->
  output input = Some spent ->
  exists w, sapling_writer tx t i sub = Ok w
    /\ w !! 2%nat = Some (spec_prevouts_hash tx t)
    /\ w !! 3%nat = Some (spec_sequence_hash tx t)
    /\ (anyonecanpay t = true ->
        w !! 2%nat = Some zero32 /\ w !! 3%nat = Some zero32)
    /\ (selector t = SIGHASH_SINGLE \/ selector t = SIGHASH_NONE ->
        w !! 3%nat = Some zero32)
    /\ (anyonecanpay t = false ->
        w !! 2%nat =
        Some (blake2b 32 (Buffer_from_string "ZcashPrevoutHash")
                (concat (map (fun x => rev (prevTxId x) ++ le_bytes 4 (outputIndex x))
                             (inputs tx)))))
    /\ (anyonecanpay t = false ->
        selector t <> SIGHASH_SINGLE -> selector t <> SIGHASH_NONE ->
        w !! 3%nat =
        Some (blake2b 32 (Buffer_from_string "ZcashSequencHash")
                (concat (map (fun x => le_bytes 4 (sequenceNumber x)) (inputs tx))))).
Proof.
  intros Ei Eo. eexists. split; [apply (sapling_writer_chunks _ _ _ _ _ _ Ei Eo)|].
  cbn [lookup list_lookup].
  unfold spec_prevouts_hash, spec_sequence_hash.
  repeat apply conj; try reflexivity.
  - intros ->. split; reflexivity.
  - intros [E|E]; rewrite E; cbn; now rewrite ?orb_true_r.
  - intros ->. reflexivity.
  - intros -> Hs Hn.
    apply Z.eqb_neq in Hs, Hn. rewrite Hs, Hn. reflexivity.
Qed.

(** C5 — In the Sapling-era builder the fifth buffer written is the
    outputs hash: under SINGLE with [inputNumber] below the number of
    outputs, the personalized hash of the output at [inputNumber] alone;
    under SINGLE with [inputNumber] out of range and under NONE, 32 zero
    bytes; under every other selector, the personalized hash of all the
    outputs serialised in order. *)
Theorem sapling_outputs_hash (tx : Transaction) (t : Z) (i : nat)
    (sub : Script) (input : Input) (spent : Output) :
  inputs tx !! i = Some input ->
  output input = Some spent ->
  exists w, sapling_writer tx t i sub = Ok w
    /\ w !! 4%nat = Some (spec_outputs_hash tx t i)
    /\ (selector t = SIGHASH_SINGLE -> forall o, outputs tx !! i = Some o ->
        w !! 4%nat =
        Some (blake2b 32 (Buffer_from_string "ZcashOutputsHash") (Output_toBuffer o)))
    /\ (selector t = SIGHASH_SINGLE -> (length (outputs tx) <= i)%nat ->
        w !! 4%nat = Some zero32)
    /\ (selector t = SIGHASH_NONE -> w !! 4%nat = Some zero32)
    /\ (selector t <> SIGHASH_SINGLE -> selector t <> SIGHASH_NONE ->
        w !! 4%nat =
        Some (blake2b 32 (Buffer_from_string "ZcashOutputsHash")
                (concat (map Output_toBuffer (outputs tx))))).
Proof.
  intros Ei Eo. eexists. split; [apply (sapling_writer_chunks _ _ _ _ _ _ Ei Eo)|].
  cbn [lookup list_lookup]. unfold spec_outputs_hash.
  repeat apply conj; try reflexivity.
  - intros -> o ->. reflexivity.
  - intros -> Hi. cbn. now rewrite lookup_ge_None_2 by lia.
  - intros ->. reflexivity.
  - intros Hs Hn. apply Z.eqb_neq in Hs, Hn. now rewrite Hs, Hn.
Qed.

End Claims.

Section LegacyClaims.
Context `{Primitives}.

Lemma spec_legacy_inputs_other (tx : Transaction) (t : Z) (i j : nat) (sub : Script)
    (x : Input) :
  j <> i -> spec_legacy_inputs tx t i sub !! j = Some x ->
  exists orig, inputs tx !! j = Some orig
    /\ script x = []
    /\ prevTxId x = prevTxId orig /\ outputIndex x = outputIndex orig
    /\ sequenceNumber x =
       (if decide (selector t = SIGHASH_NONE \/ selector t = SIGHASH_SINGLE)
        then 0 else sequenceNumber orig).
Proof.
  intros Hj. unfold spec_legacy_inputs. rewrite list_lookup_imap.
  destruct (inputs tx !! j) as [orig|]; [cbn|discriminate].
  rewrite decide_False by exact Hj. intros [= <-]. exists orig.
  destruct (decide _); repeat split; reflexivity.
Qed.

(** C6 — In the legacy builder, outside the SIGHASH_SINGLE quirk, the copy
    that is serialised is the one the specification describes: input
    [inputNumber] carries the stripped subscript, every other input an
    empty script; under NONE or SINGLE every input but [inputNumber] has
    sequence number 0; under NONE there is no output; under SINGLE with
    [inputNumber] below the number of outputs there are [inputNumber + 1]
    outputs, those before [inputNumber] being the null output (value
    0xFFFFFFFFFFFFFFFF, empty script); and ANYONECANPAY, applied after all
    of these, leaves the input [inputNumber] of that copy alone. *)
Theorem legacy_overrides (tx : Transaction) (t : Z) (i : nat) (sub : Script)
    (input : Input) :
  inputs tx !! i = Some input ->
  ~ (selector t = SIGHASH_SINGLE /\ (length (outputs tx) <= i)%nat) ->
  let txcopy := spec_legacy_copy tx t i sub in
  legacy_build tx t i sub = Ok (Copy txcopy)
  /\ (version tx < 4 ->
      sighash tx t i sub =
      Ok (rev (sha256sha256 (Transaction_toBuffer txcopy ++ le_bytes 4 t))))
  /\ (anyonecanpay t = false ->
      length (inputs txcopy) = length (inputs tx)
      /\ inputs txcopy !! i = Some (setScript input (removeCodeseparators sub))
      /\ forall j x, j <> i -> inputs txcopy !! j = Some x ->
           script x = []
           /\ (selector t = SIGHASH_NONE \/ selector t = SIGHASH_SINGLE ->
               sequenceNumber x = 0))
  /\ (selector t = SIGHASH_NONE -> outputs txcopy = [])
  /\ (selector t = SIGHASH_SINGLE ->
      length (outputs txcopy) = (i + 1)%nat
      /\ (forall j, (j < i)%nat -> outputs txcopy !! j = Some null_output)
      /\ outputs txcopy !! i = outputs tx !! i
      /\ satoshis null_output = 2 ^ 64 - 1 /\ out_script null_output = [])
  /\ (anyonecanpay t = true ->
      inputs txcopy = [setScript input (removeCodeseparators sub)]).
Proof.
  intros Ei Hq txcopy.
  assert (Hb : legacy_build tx t i sub = Ok (Copy txcopy))
    by (apply legacy_build_copy; [rewrite Ei; eauto | exact Hq]).
  pose proof (spec_legacy_inputs_lookup tx t i sub input Ei) as Hlk.
  repeat apply conj.
  - exact Hb.
  - intros Hv. rewrite sighash_legacy_era by exact Hv. now rewrite Hb.
  - intros Ha.
    assert (Hins : inputs txcopy = spec_legacy_inputs tx t i sub)
      by (unfold txcopy, spec_legacy_copy; now rewrite Ha).
    rewrite Hins. repeat apply conj.
    + unfold spec_legacy_inputs. apply length_imap.
    + exact Hlk.
    + intros j x Hj Hx.
      destruct (spec_legacy_inputs_other tx t i j sub x Hj Hx)
        as (orig & _ & Hs & _ & _ & Hq0).
      split; [exact Hs|]. intros Hsel. now rewrite decide_True in Hq0 by exact Hsel.
  - intros Hn. unfold txcopy, spec_legacy_copy, spec_legacy_outputs. cbn.
    now rewrite decide_True by exact Hn.
  - intros Hs.
    assert (Hi : (i < length (outputs tx))%nat) by (apply Nat.lt_nge; tauto).
    destruct (lookup_lt_is_Some_2 (outputs tx) i Hi) as [o Ho].
    assert (Hout : outputs txcopy = replicate i null_output ++ [o]).
    { unfold txcopy, spec_legacy_copy, spec_legacy_outputs. cbn.
      rewrite decide_False by (rewrite Hs; discriminate).
      rewrite decide_True by exact Hs. now rewrite (take1_drop _ _ _ Ho). }
    rewrite Hout. repeat apply conj.
    + rewrite length_app, length_replicate. reflexivity.
    + intros j Hj. rewrite lookup_app_l by (rewrite length_replicate; lia).
      now apply lookup_replicate_2.
    + rewrite lookup_app_r by (rewrite length_replicate; lia).
      rewrite length_replicate, Nat.sub_diag, Ho. reflexivity.
    + reflexivity.
    + reflexivity.
  - intros Ha. unfold txcopy, spec_legacy_copy. rewrite Ha. cbn.
    now apply take1_drop.
Qed.

Lemma mutate_input_lookup (tx : Transaction) (i j : nat) (s : Script) (q : Z) :
  j <> i -> inputs (mutate_input tx j s q) !! i = inputs tx !! i.
Proof. intros Hj. cbn. now apply list_lookup_alter_ne. Qed.

Lemma spec_legacy_copy_mutate (tx : Transaction) (t : Z) (i j : nat) (sub s : Script)
    (q : Z) :
  anyonecanpay t = true -> j <> i ->
  spec_legacy_copy (mutate_input tx j s q) t i sub = spec_legacy_copy tx t i sub.
Proof.
  intros Ha Hj. unfold spec_legacy_copy. rewrite Ha.
  assert (E : take 1 (drop i (spec_legacy_inputs (mutate_input tx j s q) t i sub)) =
              take 1 (drop i (spec_legacy_inputs tx t i sub))).
  { destruct (inputs tx !! i) as [input|] eqn:Ei.
    - rewrite (take1_drop _ _ (setScript input (removeCodeseparators sub))).
      + now rewrite (take1_drop _ _ _ (spec_legacy_inputs_lookup tx t i sub input Ei)).
      + apply spec_legacy_inputs_lookup. now rewrite mutate_input_lookup.
    - rewrite !drop_ge; [reflexivity| |].
      + unfold spec_legacy_inputs. rewrite length_imap. now apply lookup_ge_None.
      + unfold spec_legacy_inputs. rewrite length_imap. apply lookup_ge_None.
        now rewrite mutate_input_lookup. }
  rewrite E. reflexivity.
Qed.

Lemma sighash_same_but_inputs (tx tx' : Transaction) (t : Z) (i : nat) (sub : Script) :
  version tx < 4 -> anyonecanpay t = true -> same_but_inputs tx tx' i ->
  sighash tx' t i sub = sighash tx t i sub.
Proof.
  intros Hv Ha [Hrest Hin].
  assert (Hv' : version tx' = version tx)
    by exact (f_equal version Hrest).
  assert (Hout : outputs tx' = outputs tx)
    by exact (f_equal outputs Hrest).
  rewrite !sighash_legacy_era by lia.
  destruct (inputs tx !! i) as [x|] eqn:Ex; destruct (inputs tx' !! i) as [x'|] eqn:Ex';
    try discriminate.
  2:{ now rewrite !legacy_build_absent. }
  assert (Hin' : setScript x' [] = setScript x [])
    by (cbn [fmap option_fmap option_map] in Hin; congruence).
  clear Hin.
  destruct (decide (selector t = SIGHASH_SINGLE /\ (length (outputs tx) <= i)%nat))
    as [[Hs Hi]|Hq].
  - rewrite !legacy_build_returned; try assumption; try reflexivity.
    + rewrite Ex. eauto.
    + rewrite Ex'. eauto.
    + now rewrite Hout.
  - rewrite !legacy_build_copy; try assumption.
    + do 3 f_equal. unfold spec_legacy_copy, spec_legacy_outputs. rewrite Ha, Hout.
      rewrite (take1_drop _ _ _ (spec_legacy_inputs_lookup tx t i sub x Ex)).
      rewrite (take1_drop _ _ _ (spec_legacy_inputs_lookup tx' t i sub x' Ex')).
      change (setScript x (removeCodeseparators sub))
        with (setScript (setScript x []) (removeCodeseparators sub)).
      change (setScript x' (removeCodeseparators sub))
        with (setScript (setScript x' []) (removeCodeseparators sub)).
      rewrite Hin'.
      change (set_inputs tx ?l) with (set_inputs (set_inputs tx []) l).
      change (set_inputs tx' ?l) with (set_inputs (set_inputs tx' []) l).
      now rewrite Hrest.
    + rewrite Ex. eauto.
    + rewrite Ex'. eauto.
    + now rewrite Hout.
Qed.

(** C7 — For a transaction of version below 4 and a signature type with
    ANYONECANPAY set, replacing the script and the sequence number of an
    input other than [inputNumber] leaves the digest unchanged: what the
    legacy builder serialises then holds, of the inputs, only the input
    [inputNumber] with the stripped subscript.  More generally two
    transactions that agree on everything but their input lists, and on the
    input [inputNumber] but for its script, have the same digest. *)
Theorem legacy_anyonecanpay_other_inputs (tx : Transaction) (t : Z) (i j : nat)
    (sub s : Script) (q : Z) :
  version tx < 4 ->
  anyonecanpay t = true ->
  j <> i ->
  sighash (mutate_input tx j s q) t i sub = sighash tx t i sub
  /\ (forall txcopy, legacy_build tx t i sub = Ok (Copy txcopy) ->
       exists input, inputs tx !! i = Some input
         /\ inputs txcopy = [setScript input (removeCodeseparators sub)]
         /\ version txcopy = version tx /\ nLockTime txcopy = nLockTime tx)
  /\ (forall tx', same_but_inputs tx tx' i -> sighash tx' t i sub = sighash tx t i sub).
Proof.
  intros Hv Ha Hj. split; [|split].
  - rewrite !sighash_legacy_era by exact Hv.
    destruct (inputs tx !! i) as [input|] eqn:Ei.
    + destruct (decide (selector t = SIGHASH_SINGLE /\ (length (outputs tx) <= i)%nat))
        as [[Hs Hi]|Hq].
      * rewrite !legacy_build_returned; try assumption; try reflexivity.
        -- rewrite Ei. eauto.
        -- rewrite mutate_input_lookup, Ei by exact Hj. eauto.
      * rewrite !legacy_build_copy; try assumption.
        -- now rewrite spec_legacy_copy_mutate.
        -- rewrite Ei. eauto.
        -- rewrite mutate_input_lookup, Ei by exact Hj. eauto.
    + rewrite !legacy_build_absent; [reflexivity | exact Ei |].
      now rewrite mutate_input_lookup.
  - intros txcopy Hb.
    destruct (inputs tx !! i) as [input|] eqn:Ei;
      [|rewrite legacy_build_absent in Hb by exact Ei; discriminate].
    exists input. split; [reflexivity|].
    destruct (decide (selector t = SIGHASH_SINGLE /\ (length (outputs tx) <= i)%nat))
      as [[Hs Hi]|Hq].
    + rewrite legacy_build_returned in Hb; [discriminate| |exact Hs|exact Hi].
      rewrite Ei. eauto.
    + rewrite legacy_build_copy in Hb; [|rewrite Ei; eauto|exact Hq].
      injection Hb as <-. unfold spec_legacy_copy. rewrite Ha. cbn.
      repeat split. apply take1_drop. now apply spec_legacy_inputs_lookup.
  - intros tx' Hsame. now apply sighash_same_but_inputs.
Qed.

End LegacyClaims.

Section SelectorClaims.
Context `{Primitives}.

(** The signature type SIGHASH_ALL with the ANYONECANPAY bit of [t]. *)
Lemma all_like_selector (t : Z) :
  let t' := SIGHASH_ALL + (if anyonecanpay t then SIGHASH_ANYONECANPAY else 0) in
  selector t' = SIGHASH_ALL /\ anyonecanpay t' = anyonecanpay t.
Proof. destruct (anyonecanpay t); split; reflexivity. Qed.

Lemma spec_legacy_copy_selector (tx : Transaction) (t t' : Z) (i : nat) (sub : Script) :
  selector t <> SIGHASH_NONE -> selector t <> SIGHASH_SINGLE ->
  selector t' <> SIGHASH_NONE -> selector t' <> SIGHASH_SINGLE ->
  anyonecanpay t' = anyonecanpay t ->
  spec_legacy_copy tx t' i sub = spec_legacy_copy tx t i sub.
Proof.
  intros Hn Hs Hn' Hs' Ha.
  unfold spec_legacy_copy, spec_legacy_outputs, spec_legacy_inputs.
  rewrite Ha. rewrite !(decide_False (P := selector _ = SIGHASH_NONE)) by assumption.
  rewrite !(decide_False (P := selector _ = SIGHASH_SINGLE)) by assumption.
  destruct (decide (selector t' = SIGHASH_NONE \/ selector t' = SIGHASH_SINGLE));
    [tauto|].
  destruct (decide (selector t = SIGHASH_NONE \/ selector t = SIGHASH_SINGLE));
    [tauto|].
  reflexivity.
Qed.

(** C10 — For a signature type whose low five bits are neither NONE (2)
    nor SINGLE (3), 0 and unknown selectors included, both builders do what
    they do for SIGHASH_ALL with the same ANYONECANPAY bit.  The legacy
    builder raises no error, keeps the output list whole and keeps every
    sequence number; the Sapling-era builder raises no error, hashes every
    output and, ANYONECANPAY clear, every sequence number. *)
Theorem unknown_selector_as_all (tx : Transaction) (t : Z) (i : nat) (sub : Script)
    (input : Input) :
  selector t <> SIGHASH_NONE ->
  selector t <> SIGHASH_SINGLE ->
  inputs tx !! i = Some input ->
  let all := SIGHASH_ALL + (if anyonecanpay t then SIGHASH_ANYONECANPAY else 0) in
  (exists txcopy,
      legacy_build tx t i sub = Ok (Copy txcopy)
      /\ legacy_build tx all i sub = Ok (Copy txcopy)
      /\ outputs txcopy = outputs tx
      /\ (anyonecanpay t = false ->
          sequenceNumber <$> inputs txcopy = sequenceNumber <$> inputs tx)
      /\ (anyonecanpay t = true ->
          sequenceNumber <$> inputs txcopy = [sequenceNumber input])
      /\ (version tx < 4 ->
          sighash tx t i sub =
          Ok (rev (sha256sha256 (Transaction_toBuffer txcopy ++ le_bytes 4 t)))))
  /\ (forall spent, output input = Some spent ->
      exists w w' digest,
        sapling_writer tx t i sub = Ok w
        /\ sapling_writer tx all i sub = Ok w'
        /\ w !! 2%nat = w' !! 2%nat /\ w !! 3%nat = w' !! 3%nat /\ w !! 4%nat = w' !! 4%nat
        /\ w !! 4%nat =
           Some (blake2b 32 (Buffer_from_string "ZcashOutputsHash")
                   (concat (map Output_toBuffer (outputs tx))))
        /\ (anyonecanpay t = false ->
            w !! 3%nat =
            Some (blake2b 32 (Buffer_from_string "ZcashSequencHash")
                    (concat (map (fun x => le_bytes 4 (sequenceNumber x)) (inputs tx)))))
        /\ (4 <= version tx -> sighash tx t i sub = Ok digest)).
Proof.
  intros Hn Hs Ei all.
  destruct (all_like_selector t) as [Hsel Hacp]. fold all in Hsel, Hacp.
  assert (Hn' : selector all <> SIGHASH_NONE) by (rewrite Hsel; discriminate).
  assert (Hs' : selector all <> SIGHASH_SINGLE) by (rewrite Hsel; discriminate).
  split.
  - exists (spec_legacy_copy tx t i sub).
    assert (Hb : legacy_build tx t i sub = Ok (Copy (spec_legacy_copy tx t i sub)))
      by (apply legacy_build_copy; [rewrite Ei; eauto | tauto]).
    repeat apply conj.
    + exact Hb.
    + rewrite <- (spec_legacy_copy_selector tx t all i sub) by assumption.
      apply legacy_build_copy; [rewrite Ei; eauto | tauto].
    + unfold spec_legacy_copy, spec_legacy_outputs. cbn.
      now rewrite !decide_False by assumption.
    + intros Ha. unfold spec_legacy_copy. rewrite Ha. cbn.
      unfold spec_legacy_inputs. apply list_eq. intros j.
      rewrite !list_lookup_fmap, list_lookup_imap.
      destruct (inputs tx !! j) as [x|]; [cbn|reflexivity].
      destruct (decide (selector t = SIGHASH_NONE \/ selector t = SIGHASH_SINGLE));
        [tauto|].
      now destruct (decide (j = i)).
    + intros Ha. unfold spec_legacy_copy. rewrite Ha. cbn.
      now rewrite (take1_drop _ _ _ (spec_legacy_inputs_lookup tx t i sub input Ei)).
    + intros Hv. rewrite sighash_legacy_era by exact Hv. now rewrite Hb.
  - intros spent Eo.
    pose proof (sapling_writer_chunks tx t i sub input spent Ei Eo) as Hw.
    pose proof (sapling_writer_chunks tx all i sub input spent Ei Eo) as Hw'.
    apply Z.eqb_neq in Hn as Hnb, Hs as Hsb, Hn' as Hnb', Hs' as Hsb'.
    do 3 eexists. split; [exact Hw|]. split; [exact Hw'|].
    cbn [lookup list_lookup].
    unfold spec_prevouts_hash, spec_sequence_hash, spec_outputs_hash.
    rewrite Hacp, Hnb, Hsb, Hnb', Hsb'.
    repeat apply conj; try reflexivity.
    + intros ->. reflexivity.
    + intros Hv. rewrite sighash_sapling_era by exact Hv.
      unfold sighashSapling. rewrite Hw. reflexivity.
Qed.

End SelectorClaims.

Section SignatureClaims.
Context `{Primitives}.

(** C8 — [verify] raises the precondition violation exactly when the
    transaction is absent, the signature is absent, or the signature
    carries no signature type.  On a call with all three present and
    [inputIndex] pointing at an input, it returns the boolean the curve
    primitive gives for the recomputed digest: a signature the primitive
    rejects yields [false], not an exception.  The violation is raised
    before any digest computation: over the store of objects the call
    returns with the store as it found it, no copy built. *)
Theorem verify_precondition (transaction : option Transaction)
    (signature : option Signature) (publicKey : PublicKey) (inputIndex : nat)
    (subscript : Script) :
  (verify transaction signature publicKey inputIndex subscript = Err InvalidArgument
   <-> transaction = None \/ signature = None
       \/ exists sig, signature = Some sig /\ nhashtype sig = None)
  /\ (forall tx sig t,
        transaction = Some tx -> signature = Some sig -> nhashtype sig = Some t ->
        well_formed tx inputIndex = true ->
        exists digest,
          sighash tx t inputIndex subscript = Ok digest
          /\ verify transaction signature publicKey inputIndex subscript =
             Ok (ECDSA_verify digest sig publicKey Little)
          /\ (ECDSA_verify digest sig publicKey Little = false ->
              verify transaction signature publicKey inputIndex subscript = Ok false))
  /\ (forall (h : Heap.heap) (t : option Heap.loc) (sub : Heap.loc),
        t = None \/ signature = None
        \/ (exists sig, signature = Some sig /\ nhashtype sig = None) ->
        Heap.verify t signature publicKey inputIndex sub h = (h, Err InvalidArgument)).
Proof.
  split; [|split].
  - unfold verify, checkArgument. split.
    + destruct transaction as [tx|]; [|tauto].
      destruct signature as [sig|]; [|tauto].
      destruct (nhashtype sig) as [t|] eqn:Et; [|eauto].
      rewrite !bool_decide_true by eauto. unfold mbind, result_bind, defined.
      rewrite Et.
      destruct (sighash tx t inputIndex subscript) as [d|e] eqn:Es; [discriminate|].
      apply sighash_error in Es. subst e. discriminate.
    + intros [->|[->|(sig & -> & Et)]].
      * reflexivity.
      * destruct transaction; reflexivity.
      * rewrite Et. destruct transaction; reflexivity.
  - intros tx sig t -> -> Et Hwf.
    destruct (sighash_well_formed tx t inputIndex subscript Hwf) as [digest Hd].
    exists digest. split; [exact Hd|].
    assert (Hv : verify (Some tx) (Some sig) publicKey inputIndex subscript =
                 Ok (ECDSA_verify digest sig publicKey Little)).
    { unfold verify, checkArgument. rewrite Et.
      rewrite !bool_decide_true by eauto. unfold mbind, result_bind, defined.
      rewrite Et. cbv beta iota. rewrite Hd. reflexivity. }
    split; [exact Hv|]. intros Hf. now rewrite Hv, Hf.
  - intros h t sub [->|[->|(sig & -> & Et)]].
    + reflexivity.
    + destruct t; reflexivity.
    + unfold Heap.verify. rewrite Et. destruct t; reflexivity.
Qed.

(** C1 — For a transaction in which [inputIndex] points at an input (with
    a known spent output in the Sapling era), a private key and its public
    key, and a curve primitive that honours its contract, a signature made
    by [sign] is accepted by [verify]: [sign] signs the dispatcher's
    digest as a little-endian scalar and attaches the signature type, and
    [verify] recomputes the digest with the type the signature carries. *)
Theorem sign_then_verify (tx : Transaction) (privateKey : PrivateKey) (t : Z)
    (i : nat) (sub : Script) :
  ECDSA_contract ->
  well_formed tx i = true ->
  exists digest sig,
    sighash tx t i sub = Ok digest
    /\ sign tx privateKey t i sub = Ok sig
    /\ sig = Signature_set_nhashtype (ECDSA_sign digest privateKey Little) t
    /\ nhashtype sig = Some t
    /\ verify (Some tx) (Some sig) (toPublicKey privateKey) i sub = Ok true
    /\ (forall sig' t' publicKey, nhashtype sig' = Some t' ->
        verify (Some tx) (Some sig') publicKey i sub =
        hashbuf ← sighash tx t' i sub; Ok (ECDSA_verify hashbuf sig' publicKey Little)).
Proof.
  intros Hc Hwf.
  destruct (sighash_well_formed tx t i sub Hwf) as [digest Hd].
  exists digest, (Signature_set_nhashtype (ECDSA_sign digest privateKey Little) t).
  repeat apply conj; try reflexivity.
  - exact Hd.
  - unfold sign. rewrite Hd. reflexivity.
  - unfold verify, checkArgument. cbn [nhashtype Signature_set_nhashtype].
    rewrite !bool_decide_true by eauto. unfold mbind, result_bind, defined.
    cbn [nhashtype Signature_set_nhashtype]. rewrite Hd. now rewrite Hc.
  - intros sig' t' publicKey Et. unfold verify, checkArgument. rewrite Et.
    rewrite !bool_decide_true by eauto. unfold mbind, result_bind, defined.
    now rewrite Et.
Qed.

End SignatureClaims.

(* ===================================================================== *)
(** ** What a call leaves of the caller's store *)
(* ===================================================================== *)

Module HeapFacts.
Import Heap.

Lemma separated_refl (h : heap) : separated h h.
Proof.
  split; [reflexivity|]. intros l o Hl Ho.
  apply lookup_lt_Some in Ho. unfold fresh in Hl. lia.
Qed.

Lemma separated_length (h0 h : heap) : separated h0 h -> (length h0 <= length h)%nat.
Proof. intros [Hp _]. now apply prefix_length. Qed.

Lemma safe_ret {A : Type} (h0 : heap) (a : A) (P : A -> Prop) :
  P a -> safe h0 (mret a) P.
Proof. intros Ha h Hs. split; [exact Hs|]. cbn. now intros ? [= <-]. Qed.

Lemma safe_bind {A B : Type} (h0 : heap) (m : M A) (f : A -> M B)
    (P : A -> Prop) (Q : B -> Prop) :
  safe h0 m P -> (forall a, P a -> safe h0 (f a) Q) -> safe h0 (m ≫= f) Q.
Proof.
  intros Hm Hf h Hs. destruct (Hm h Hs) as [Hs' Hp].
  unfold mbind, M_bind. destruct (m h) as [h' [a|e]]; cbn in *.
  - apply (Hf a); [now apply Hp | exact Hs'].
  - split; [exact Hs' | discriminate].
Qed.

Lemma safe_weaken {A : Type} (h0 : heap) (m : M A) (P Q : A -> Prop) :
  safe h0 m P -> (forall a, P a -> Q a) -> safe h0 m Q.
Proof. intros Hm HPQ h Hs. destruct (Hm h Hs). split; eauto. Qed.

Lemma safe_throw {A : Type} (h0 : heap) (e : error) (P : A -> Prop) :
  safe h0 (throw e) P.
Proof. intros h Hs. split; [exact Hs | discriminate]. Qed.

Lemma safe_lift {A : Type} (h0 : heap) (r : result A) :
  safe h0 (lift r) (fun a => r = Ok a).
Proof. intros h Hs. split; [exact Hs|]. cbn. now intros a ->. Qed.

Lemma safe_alloc (h0 : heap) (o : object) :
  refs_fresh h0 o -> safe h0 (alloc o) (fresh h0).
Proof.
  intros Ho h [Hp Hr]. cbn. split; [split|].
  - now apply prefix_app_r.
  - intros l o' Hl Hlk. apply lookup_snoc_Some in Hlk as [[_ Hlk]|[_ <-]]; eauto.
  - intros a [= <-]. now apply prefix_length.
Qed.

Lemma safe_load (h0 : heap) (l : loc) :
  safe h0 (load l) (fun o => fresh h0 l -> refs_fresh h0 o).
Proof.
  intros h [Hp Hr]. cbn. split; [now split|].
  intros o Ho Hl. destruct (h !! l) as [o'|] eqn:E; [|discriminate].
  injection Ho as <-. eauto.
Qed.

Lemma safe_store (h0 : heap) (l : loc) (o : object) :
  fresh h0 l -> refs_fresh h0 o -> safe h0 (store l o) (fun _ => True).
Proof.
  intros Hl Ho h [Hp Hr]. unfold store.
  destruct (decide (l < length h)%nat) as [Hlt|Hge]; cbn; [|now repeat split].
  split; [split|trivial].
  - destruct Hp as [k ->]. rewrite insert_app_r_alt by exact Hl.
    now apply prefix_app_r.
  - intros l' o' Hl' Hlk. rewrite list_lookup_insert in Hlk.
    case_decide; [now injection Hlk as <- | eauto].
Qed.

Lemma safe_for (h0 : heap) (n : nat) (body : nat -> M unit) :
  (forall i, safe h0 (body i) (fun _ => True)) ->
  safe h0 (for_uptoM n body) (fun _ => True).
Proof.
  intros Hb. unfold for_uptoM. generalize (seq 0 n). intros l.
  induction l as [|i l IH]; cbn.
  - now apply safe_ret.
  - eapply safe_bind; [apply Hb | intros _ _; exact IH].
Qed.

Lemma safe_mapM {A B : Type} (h0 : heap) (f : A -> M B) (P : B -> Prop) (l : list A) :
  (forall x, safe h0 (f x) P) -> safe h0 (mapM f l) (Forall P).
Proof.
  intros Hf. induction l as [|x l IH]; cbn.
  - apply safe_ret. constructor.
  - eapply safe_bind; [apply Hf|]. intros y Hy.
    eapply safe_bind; [apply IH|]. intros k Hk.
    apply safe_ret. now constructor.
Qed.

(** *** Property reads *)

Lemma safe_load_script (h0 : heap) (l : loc) :
  safe h0 (load_script l) (fun _ => True).
Proof.
  eapply safe_bind; [apply safe_load|]. intros [] _;
    (now apply safe_ret) || apply safe_throw.
Qed.

Lemma safe_load_array (h0 : heap) (l : loc) :
  fresh h0 l -> safe h0 (load_array l) (Forall (fresh h0)).
Proof.
  intros Hl. eapply safe_bind; [apply safe_load|]. intros [] Ho;
    try apply safe_throw. apply safe_ret. exact (Ho Hl).
Qed.

Lemma safe_get_version (h0 : heap) (t : loc) :
  safe h0 (get_version t) (fun _ => True).
Proof.
  eapply safe_bind; [apply safe_load|]. intros [] _;
    (now apply safe_ret) || apply safe_throw.
Qed.

Lemma safe_get_inputs (h0 : heap) (t : loc) :
  fresh h0 t -> safe h0 (get_inputs t) (fresh h0).
Proof.
  intros Hl. eapply safe_bind; [apply safe_load|]. intros [] Ho;
    try apply safe_throw. apply safe_ret. exact (proj1 (Ho Hl)).
Qed.

Lemma safe_get_outputs (h0 : heap) (t : loc) :
  fresh h0 t -> safe h0 (get_outputs t) (fresh h0).
Proof.
  intros Hl. eapply safe_bind; [apply safe_load|]. intros [] Ho;
    try apply safe_throw. apply safe_ret. exact (proj2 (Ho Hl)).
Qed.

Lemma safe_inputs_length (h0 : heap) (t : loc) :
  fresh h0 t ->
  safe h0 (a ← get_inputs t; elems ← load_array a; mret (length elems)) (fun _ => True).
Proof.
  intros Hl. eapply safe_bind; [now apply safe_get_inputs|]. intros a Ha.
  eapply safe_bind; [now apply safe_load_array|]. intros elems _.
  now apply safe_ret.
Qed.

(** *** Assignments: each one lands on a new object *)

Lemma safe_assign_inputs (h0 : heap) (t a : loc) :
  fresh h0 t -> fresh h0 a -> safe h0 (assign_inputs t a) (fun _ => True).
Proof.
  intros Ht Ha. eapply safe_bind; [apply safe_load|]. intros [] Ho;
    try apply safe_throw.
  apply safe_store; [exact Ht|]. split; [exact Ha | exact (proj2 (Ho Ht))].
Qed.

Lemma safe_assign_outputs (h0 : heap) (t b : loc) :
  fresh h0 t -> fresh h0 b -> safe h0 (assign_outputs t b) (fun _ => True).
Proof.
  intros Ht Hb. eapply safe_bind; [apply safe_load|]. intros [] Ho;
    try apply safe_throw.
  apply safe_store; [exact Ht|]. split; [exact (proj1 (Ho Ht)) | exact Hb].
Qed.

Lemma safe_setScript (h0 : heap) (i s : loc) :
  fresh h0 i -> safe h0 (setScript i s) (fun _ => True).
Proof.
  intros Hi. eapply safe_bind; [apply safe_load|]. intros [] _;
    try apply safe_throw. now apply safe_store.
Qed.

Lemma safe_assign_sequenceNumber (h0 : heap) (i : loc) (q : Z) :
  fresh h0 i -> safe h0 (assign_sequenceNumber i q) (fun _ => True).
Proof.
  intros Hi. eapply safe_bind; [apply safe_load|]. intros [] _;
    try apply safe_throw. now apply safe_store.
Qed.

(** *** Constructors: each one returns a new object *)

Lemma safe_alloc_input (h0 : heap) (i : Input) : safe h0 (alloc_input i) (fresh h0).
Proof.
  eapply safe_bind; [now apply safe_alloc|]. intros s _. now apply safe_alloc.
Qed.

Lemma safe_alloc_transaction (h0 : heap) (tx : Transaction) :
  safe h0 (alloc_transaction tx) (fresh h0).
Proof.
  eapply safe_bind; [apply safe_mapM, safe_alloc_input|]. intros ia Hia.
  eapply safe_bind; [now apply safe_alloc|]. intros a Ha.
  eapply safe_bind; [apply safe_mapM; intros o; now apply safe_alloc|]. intros ob Hob.
  eapply safe_bind; [now apply safe_alloc|]. intros b Hb.
  now apply safe_alloc.
Qed.

Lemma safe_view_transaction (h0 : heap) (t : loc) :
  safe h0 (view_transaction t) (fun _ => True).
Proof. intros h Hs. now split. Qed.

Lemma safe_shallowCopy (h0 : heap) (t : loc) :
  safe h0 (Transaction_shallowCopy t) (fresh h0).
Proof.
  eapply safe_bind; [apply safe_view_transaction|]. intros tx _.
  apply safe_alloc_transaction.
Qed.

Lemma safe_new_Script (h0 : heap) (s : loc) : safe h0 (new_Script s) (fresh h0).
Proof.
  eapply safe_bind; [apply safe_load_script|]. intros c _. now apply safe_alloc.
Qed.

Lemma safe_new_Input (h0 : heap) (params : option loc) :
  safe h0 (new_Input params) (fresh h0).
Proof.
  eapply safe_bind; [apply safe_lift|]. intros l _.
  eapply safe_bind; [apply safe_load|]. intros [] _;
    try apply safe_throw. now apply safe_alloc.
Qed.

Lemma safe_new_Output (h0 : heap) (v : Z) : safe h0 (new_Output v) (fresh h0).
Proof. now apply safe_alloc. Qed.

Lemma safe_element (h0 : heap) (elems : list loc) (i : nat) :
  Forall (fresh h0) elems -> safe h0 (lift (defined (elems !! i))) (fresh h0).
Proof.
  intros Hf. eapply safe_weaken; [apply safe_lift|]. intros l Hl.
  destruct (elems !! i) as [l'|] eqn:E; [|discriminate].
  injection Hl as <-. exact (Forall_lookup_1 _ _ _ _ Hf E).
Qed.

(** *** Values survive *)

Lemma read_script_mono (h h' : heap) (l : loc) (s : Script) :
  h `prefix_of` h' -> read_script h l = Some s -> read_script h' l = Some s.
Proof.
  intros Hp. unfold read_script.
  destruct (h !! l) as [o|] eqn:E; [|discriminate].
  now rewrite (prefix_lookup_Some _ _ _ _ E Hp).
Qed.

Lemma read_output_mono (h h' : heap) (l : loc) (o : Output) :
  h `prefix_of` h' -> read_output h l = Some o -> read_output h' l = Some o.
Proof.
  intros Hp. unfold read_output.
  destruct (h !! l) as [x|] eqn:E; [|discriminate].
  now rewrite (prefix_lookup_Some _ _ _ _ E Hp).
Qed.

Lemma read_array_mono (h h' : heap) (l : loc) (a : list loc) :
  h `prefix_of` h' -> read_array h l = Some a -> read_array h' l = Some a.
Proof.
  intros Hp. unfold read_array.
  destruct (h !! l) as [x|] eqn:E; [|discriminate].
  now rewrite (prefix_lookup_Some _ _ _ _ E Hp).
Qed.

Lemma read_input_mono (h h' : heap) (l : loc) (i : Input) :
  h `prefix_of` h' -> read_input h l = Some i -> read_input h' l = Some i.
Proof.
  intros Hp. unfold read_input.
  destruct (h !! l) as [x|] eqn:E; [|discriminate].
  rewrite (prefix_lookup_Some _ _ _ _ E Hp).
  destruct x as [| |p oi sq sl out| |]; try discriminate.
  destruct (read_script h sl) as [c|] eqn:Ec; [|discriminate].
  now rewrite (read_script_mono _ _ _ _ Hp Ec).
Qed.

Lemma mapM_mono {A B : Type} (f g : A -> option B) (l : list A) (k : list B) :
  (forall x y, f x = Some y -> g x = Some y) -> mapM f l = Some k -> mapM g l = Some k.
Proof.
  intros Hfg Hk. apply mapM_Some. apply mapM_Some in Hk.
  eapply Forall2_impl; [exact Hk | exact Hfg].
Qed.

Lemma read_transaction_mono (h h' : heap) (l : loc) (tx : Transaction) :
  h `prefix_of` h' -> read_transaction h l = Some tx -> read_transaction h' l = Some tx.
Proof.
  intros Hp. unfold read_transaction.
  destruct (h !! l) as [x|] eqn:E; [|discriminate].
  rewrite (prefix_lookup_Some _ _ _ _ E Hp).
  destruct x as [| | | |v g a b lt eh vb br]; try discriminate.
  destruct (read_array h a) as [ia|] eqn:Eia; [|discriminate].
  rewrite (read_array_mono _ _ _ _ Hp Eia). cbn.
  destruct (mapM (read_input h) ia) as [ins|] eqn:Eins; [|discriminate].
  rewrite (mapM_mono _ (read_input h') _ _ (fun x y => read_input_mono h h' x y Hp) Eins).
  cbn.
  destruct (read_array h b) as [ob|] eqn:Eob; [|discriminate].
  rewrite (read_array_mono _ _ _ _ Hp Eob). cbn.
  destruct (mapM (read_output h) ob) as [outs|] eqn:Eouts; [|discriminate].
  rewrite (mapM_mono _ (read_output h') _ _ (fun x y => read_output_mono h h' x y Hp) Eouts).
  trivial.
Qed.

Lemma prefix_unchanged (h h' : heap) : h `prefix_of` h' -> unchanged h h'.
Proof.
  intros Hp. repeat apply conj.
  - exact Hp.
  - intros l o E. exact (prefix_lookup_Some _ _ _ _ E Hp).
  - intros l tx. now apply read_transaction_mono.
  - intros l s. now apply read_script_mono.
Qed.

Lemma safe_unchanged {A : Type} (m : M A) (h : heap) :
  safe h m (fun _ => True) -> unchanged h (m h).1.
Proof.
  intros Hm. apply prefix_unchanged.
  destruct (Hm h (separated_refl h)) as [[Hp _] _]. exact Hp.
Qed.

Section Builders.
Context `{Primitives}.

Lemma safe_removeCodeseparators (h0 : heap) (s : loc) :
  fresh h0 s -> safe h0 (Script_removeCodeseparators s) (fun _ => True).
Proof.
  intros Hs. eapply safe_bind; [apply safe_load_script|]. intros c _.
  now apply safe_store.
Qed.

Lemma safe_sighashSapling (h0 : heap) (t : loc) (ty : Z) (i : nat) (sub : loc) :
  safe h0 (Heap.sighashSapling t ty i sub) (fun _ => True).
Proof.
  eapply safe_bind; [apply safe_view_transaction|]. intros tx _.
  eapply safe_bind; [apply safe_load_script|]. intros c _.
  eapply safe_weaken; [apply safe_lift | trivial].
Qed.

(** Whatever store [sighash] is called on, every assignment it makes lands
    on an object it has built itself. *)
Lemma safe_sighash (h0 : heap) (t : loc) (ty : Z) (i : nat) (sub : loc) :
  safe h0 (Heap.sighash t ty i sub) (fun _ => True).
Proof.
  unfold Heap.sighash.
  eapply safe_bind; [apply safe_get_version|]. intros v _.
  destruct (v >=? 4); [apply safe_sighashSapling|].
  eapply safe_bind; [apply safe_shallowCopy|]. intros txcopy Htx.
  eapply safe_bind; [apply safe_new_Script|]. intros subscript Hsub.
  eapply safe_bind; [now apply safe_removeCodeseparators|]. intros _ _.
  eapply safe_bind; [now apply safe_inputs_length|]. intros n _.
  eapply safe_bind.
  { apply safe_for. intros k.
    eapply safe_bind; [now apply safe_get_inputs|]. intros a Ha.
    eapply safe_bind; [now apply safe_load_array|]. intros elems Hel.
    eapply safe_bind; [apply safe_new_Input|]. intros input Hin.
    eapply safe_bind; [now apply safe_alloc|]. intros e He.
    eapply safe_bind; [now apply safe_setScript|]. intros _ _.
    apply safe_store; [exact Ha|]. now apply Forall_insert. }
  intros _ _.
  eapply safe_bind; [now apply safe_get_inputs|]. intros a Ha.
  eapply safe_bind; [now apply safe_load_array|]. intros elems Hel.
  eapply safe_bind; [apply safe_new_Input|]. intros input Hin.
  eapply safe_bind; [now apply safe_setScript|]. intros _ _.
  eapply safe_bind; [apply safe_store; [exact Ha | now apply Forall_insert]|].
  intros _ _.
  eapply safe_bind.
  { instantiate (1 := fun _ => True).
    destruct ((js_band ty 31 =? SIGHASH_NONE) || (js_band ty 31 =? SIGHASH_SINGLE));
      [|now apply safe_ret].
    eapply safe_bind; [now apply safe_inputs_length|]. intros n' _.
    apply safe_for. intros k. case_bool_decide; [|now apply safe_ret].
    eapply safe_bind; [now apply safe_get_inputs|]. intros a' Ha'.
    eapply safe_bind; [now apply safe_load_array|]. intros elems' Hel'.
    eapply safe_bind; [now apply safe_element|]. intros l Hl.
    now apply safe_assign_sequenceNumber. }
  intros _ _.
  eapply safe_bind.
  { instantiate (1 := fun _ => True).
    destruct (js_band ty 31 =? SIGHASH_NONE).
    - eapply safe_bind; [apply safe_alloc; constructor|]. intros b Hb.
      eapply safe_bind; [now apply safe_assign_outputs|]. intros _ _.
      now apply safe_ret.
    - destruct (js_band ty 31 =? SIGHASH_SINGLE); [|now apply safe_ret].
      eapply safe_bind; [now apply safe_get_outputs|]. intros b Hb.
      eapply safe_bind; [now apply safe_load_array|]. intros ob Hob.
      case_bool_decide; [now apply safe_ret|].
      eapply safe_bind; [apply safe_store; [exact Hb | now apply Forall_take]|].
      intros _ _.
      eapply safe_bind; [|intros _ _; now apply safe_ret].
      apply safe_for. intros k.
      eapply safe_bind; [apply safe_new_Output|]. intros o Ho.
      eapply safe_bind; [now apply safe_get_outputs|]. intros b' Hb'.
      eapply safe_bind; [now apply safe_load_array|]. intros ob' Hob'.
      apply safe_store; [exact Hb'|]. now apply Forall_insert. }
  intros [digest|] _; [now apply safe_ret|].
  eapply safe_bind.
  { instantiate (1 := fun _ => True).
    destruct (js_truthy (js_band ty SIGHASH_ANYONECANPAY)); [|now apply safe_ret].
    eapply safe_bind; [now apply safe_get_inputs|]. intros a' Ha'.
    eapply safe_bind; [now apply safe_load_array|]. intros elems' Hel'.
    eapply safe_bind; [now apply safe_element|]. intros l Hl.
    eapply safe_bind; [apply safe_alloc; cbn; now repeat constructor|]. intros a2 Ha2.
    now apply safe_assign_inputs. }
  intros _ _.
  eapply safe_bind; [apply safe_view_transaction|]. intros tx _.
  now apply safe_ret.
Qed.

Lemma safe_sign (h0 : heap) (t : loc) (k : PrivateKey) (ty : Z) (i : nat) (sub : loc) :
  safe h0 (Heap.sign t k ty i sub) (fun _ => True).
Proof.
  eapply safe_bind; [apply safe_sighash|]. intros d _. now apply safe_ret.
Qed.

Lemma safe_verify (h0 : heap) (t : option loc) (sig : option Signature)
    (pk : PublicKey) (i : nat) (sub : loc) :
  safe h0 (Heap.verify t sig pk i sub) (fun _ => True).
Proof.
  eapply safe_bind; [apply safe_lift|]. intros _ _.
  eapply safe_bind; [apply safe_lift|]. intros _ _.
  eapply safe_bind; [apply safe_lift|]. intros tx _.
  eapply safe_bind; [apply safe_lift|]. intros s _.
  eapply safe_bind; [apply safe_lift|]. intros ty _.
  eapply safe_bind; [apply safe_sighash|]. intros d _. now apply safe_ret.
Qed.

(** C9 — No call of [sighash], [sign] or [verify] changes an object of its
    caller: whatever the store, the transaction, the subscript and the other
    arguments, and whether the call returns or throws, every object that
    was in the store is still there unchanged afterwards, so every
    transaction and every script of the caller, the ones passed in
    included, stands for the same value.  The script substitutions, the
    zeroed sequence numbers, the truncated and replaced outputs, the
    collapsed input list and the stripped codeseparators all land on objects
    built during the call. *)
Theorem caller_objects_unchanged (h : heap) (transaction subscript : loc)
    (sighashType : Z) (inputNumber : nat) (privateKey : PrivateKey)
    (signature : option Signature) (publicKey : PublicKey)
    (maybe_transaction : option loc) :
  unchanged h (Heap.sighash transaction sighashType inputNumber subscript h).1
  /\ unchanged h (Heap.sign transaction privateKey sighashType inputNumber subscript h).1
  /\ unchanged h (Heap.verify maybe_transaction signature publicKey inputNumber
                               subscript h).1.
Proof.
  split; [|split].
  - apply (safe_unchanged (Heap.sighash transaction sighashType inputNumber subscript)).
    apply safe_sighash.
  - apply (safe_unchanged (Heap.sign transaction privateKey sighashType inputNumber
                                     subscript)).
    apply safe_sign.
  - apply (safe_unchanged (Heap.verify maybe_transaction signature publicKey
                                       inputNumber subscript)).
    apply safe_verify.
Qed.

End Builders.

End HeapFacts.

(* ===================================================================== *)
(** ** The store model returns what the value model returns *)
(* ===================================================================== *)

Module HeapRefinement.


Lemma input_at_read (h : Heap.heap) (l : Heap.loc) (i : Input) :
  Heap.input_at h l i -> Heap.read_input h l = Some i.
Proof.
  intros (s & Hl & Hs). unfold Heap.read_input, Heap.read_script. rewrite Hl, Hs. cbn.
  now destruct i.
Qed.

Lemma read_input_at (h : Heap.heap) (l : Heap.loc) (i : Input) :
  Heap.read_input h l = Some i -> Heap.input_at h l i.
Proof.
  unfold Heap.read_input, Heap.read_script, Heap.input_at.
  destruct (h !! l) as [[| |p oi sq s out| |]|] eqn:E; try discriminate.
  destruct (h !! s) as [[c| | | |]|] eqn:Es; try discriminate.
  cbn. intros [= <-]. cbn. eauto.
Qed.

Lemma holds_read (h : Heap.heap) (c a b : Heap.loc) (ia ob : list Heap.loc) (tx : Transaction) :
  Heap.holds h c a b ia ob tx -> Heap.read_transaction h c = Some tx.
Proof.
  intros (Hc & Ha & Hb & _ & Hi & Ho & _). unfold Heap.read_transaction, Heap.read_array.
  rewrite Hc, Ha, Hb. cbn.
  rewrite (proj2 (mapM_Some (Heap.read_input h) ia (inputs tx))).
  2:{ eapply Forall2_impl; [exact Hi|]. intros. now apply input_at_read. }
  cbn.
  rewrite (proj2 (mapM_Some (Heap.read_output h) ob (outputs tx))).
  2:{ eapply Forall2_impl; [exact Ho|]. intros x y Hxy. unfold Heap.read_output.
      unfold Heap.output_at in Hxy. now rewrite Hxy. }
  cbn. now destruct tx.
Qed.

Lemma input_at_mono (h h' : Heap.heap) (l : Heap.loc) (i : Input) :
  h `prefix_of` h' -> Heap.input_at h l i -> Heap.input_at h' l i.
Proof.
  intros Hp (s & Hl & Hs). exists s.
  split; eapply prefix_lookup_Some; eauto.
Qed.

Lemma holds_mono (h h' : Heap.heap) (c a b : Heap.loc)
    (ia ob : list Heap.loc) (tx : Transaction) :
  h `prefix_of` h' -> Heap.holds h c a b ia ob tx -> Heap.holds h' c a b ia ob tx.
Proof.
  intros Hp (Hc & Ha & Hb & Hab & Hi & Ho & Hn).
  repeat apply conj; try (eapply prefix_lookup_Some; eauto; fail); try assumption.
  - eapply Forall2_impl; [exact Hi|]. intros. now apply (input_at_mono h).
  - eapply Forall2_impl; [exact Ho|]. intros x y E. eapply prefix_lookup_Some; eauto.
Qed.


(** *** Running the constructors *)

Lemma bind_run {A B : Type} (m : Heap.M A) (f : A -> Heap.M B) (h h' : Heap.heap) (a : A) :
  m h = (h', Ok a) -> (m ≫= f) h = f a h'.
Proof. intros E. unfold mbind, Heap.M_bind. now rewrite E. Qed.

Lemma bind_err {A B : Type} (m : Heap.M A) (f : A -> Heap.M B) (h h' : Heap.heap) (e : error) :
  m h = (h', Err e) -> (m ≫= f) h = (h', Err e).
Proof. intros E. unfold mbind, Heap.M_bind. now rewrite E. Qed.

Lemma bind_assoc_run {A B C : Type} (m : Heap.M A) (f : A -> Heap.M B)
    (g : B -> Heap.M C) (h : Heap.heap) :
  ((m ≫= f) ≫= g) h = (m ≫= (fun x => f x ≫= g)) h.
Proof.
  unfold mbind, Heap.M_bind. destruct (m h) as [h' [a|e]]; reflexivity.
Qed.

Lemma ret_run {A B : Type} (a : A) (f : A -> Heap.M B) (h : Heap.heap) :
  (mret a ≫= f) h = f a h.
Proof. reflexivity. Qed.

(** Run the first computation of a chain of binds, given what it does. *)
Ltac step E :=
  cbv beta; rewrite ?bind_assoc_run; rewrite (bind_run _ _ _ _ _ E); cbv beta.

(** The same, for a first computation that is itself a chain. *)
Ltac step_group E := cbv beta; rewrite (bind_run _ _ _ _ _ E); cbv beta.

Lemma alloc_input_run (x : Input) (h : Heap.heap) :
  Heap.alloc_input x h =
  (h ++ [Heap.OScript (script x);
         Heap.OInput (prevTxId x) (outputIndex x) (sequenceNumber x) (length h) (output x)],
   Ok (S (length h))).
Proof.
  unfold Heap.alloc_input, Heap.alloc, mbind, Heap.M_bind. cbn.
  rewrite length_app, <- app_assoc. cbn. do 2 f_equal. lia.
Qed.

Lemma mapM_alloc_input (l : list Input) (h : Heap.heap) :
  exists h' ia, mapM Heap.alloc_input l h = (h', Ok ia)
    /\ h `prefix_of` h'
    /\ Forall2 (Heap.input_at h') ia l
    /\ Forall (fun x => length h <= x < length h')%nat ia
    /\ NoDup ia.
Proof.
  revert h. induction l as [|x l IH]; intros h.
  - exists h, []. split; [reflexivity|]. split; [reflexivity|].
    repeat apply conj; constructor.
  - cbn [mapM]. rewrite (bind_run _ _ _ _ _ (alloc_input_run x h)).
    set (h1 := h ++ _).
    destruct (IH h1) as (h' & ia & Hrun & Hp & Hin & Hrange & Hnd).
    rewrite (bind_run _ _ _ _ _ Hrun). cbn.
    assert (Hlen : length h1 = S (S (length h))).
    { unfold h1. rewrite length_app. cbn. lia. }
    assert (Hp1 : h `prefix_of` h1) by (unfold h1; now apply prefix_app_r).
    exists h', (S (length h) :: ia). split; [reflexivity|].
    repeat apply conj.
    + now transitivity h1.
    + constructor; [|exact Hin].
      apply (input_at_mono h1); [exact Hp|]. exists (length h). unfold h1. split.
      * rewrite lookup_app_r by lia.
        replace (S (length h) - length h)%nat with 1%nat by lia. reflexivity.
      * rewrite lookup_app_r by lia. rewrite Nat.sub_diag. reflexivity.
    + constructor.
      * apply prefix_length in Hp. lia.
      * eapply Forall_impl; [exact Hrange|]. cbn. intros y Hy. lia.
    + constructor; [|exact Hnd]. intros Hel.
      rewrite Forall_forall in Hrange. apply Hrange in Hel. lia.
Qed.

Lemma mapM_alloc_output (l : list Output) (h : Heap.heap) :
  exists h' ob, mapM Heap.alloc_output l h = (h', Ok ob)
    /\ h `prefix_of` h'
    /\ Forall2 (Heap.output_at h') ob l
    /\ Forall (fun x => length h <= x < length h')%nat ob.
Proof.
  revert h. induction l as [|x l IH]; intros h.
  - exists h, []. split; [reflexivity|]. split; [reflexivity|].
    repeat apply conj; constructor.
  - cbn [mapM].
    rewrite (bind_run _ _ h (h ++ [Heap.OOutput x]) (length h)) by reflexivity.
    set (h1 := h ++ [Heap.OOutput x]).
    destruct (IH h1) as (h' & ob & Hrun & Hp & Hout & Hrange).
    rewrite (bind_run _ _ _ _ _ Hrun). cbn.
    assert (Hlen : length h1 = S (length h)).
    { unfold h1. rewrite length_app. cbn. lia. }
    exists h', (length h :: ob). split; [reflexivity|].
    repeat apply conj.
    + transitivity h1; [unfold h1; now apply prefix_app_r | exact Hp].
    + constructor; [|exact Hout].
      unfold Heap.output_at. eapply prefix_lookup_Some; [|exact Hp].
      unfold h1. rewrite lookup_app_r by lia. now rewrite Nat.sub_diag.
    + constructor.
      * apply prefix_length in Hp. lia.
      * eapply Forall_impl; [exact Hrange|]. cbn. intros y Hy. lia.
Qed.

Lemma alloc_transaction_run (tx : Transaction) (h : Heap.heap) :
  exists h' c a b ia ob,
    Heap.alloc_transaction tx h = (h', Ok c)
    /\ h `prefix_of` h'
    /\ Heap.holds h' c a b ia ob tx.
Proof.
  unfold Heap.alloc_transaction.
  destruct (mapM_alloc_input (inputs tx) h) as (h1 & ia & Hrun1 & Hp1 & Hin & Hr1 & Hnd).
  rewrite (bind_run _ _ _ _ _ Hrun1).
  rewrite (bind_run _ _ h1 (h1 ++ [Heap.OArray ia]) (length h1)) by reflexivity.
  set (h2 := h1 ++ [Heap.OArray ia]).
  destruct (mapM_alloc_output (outputs tx) h2) as (h3 & ob & Hrun3 & Hp3 & Hout & Hr3).
  rewrite (bind_run _ _ _ _ _ Hrun3).
  rewrite (bind_run _ _ h3 (h3 ++ [Heap.OArray ob]) (length h3)) by reflexivity.
  set (h4 := h3 ++ [Heap.OArray ob]).
  unfold Heap.alloc.
  set (h5 := h4 ++ _).
  assert (Hp2 : h1 `prefix_of` h2) by (unfold h2; now apply prefix_app_r).
  assert (Hp4 : h3 `prefix_of` h4) by (unfold h4; now apply prefix_app_r).
  assert (Hp5 : h4 `prefix_of` h5) by (unfold h5; now apply prefix_app_r).
  assert (Ha : h2 !! length h1 = Some (Heap.OArray ia)).
  { unfold h2. rewrite lookup_app_r by lia. now rewrite Nat.sub_diag. }
  assert (Hb : h4 !! length h3 = Some (Heap.OArray ob)).
  { unfold h4. rewrite lookup_app_r by lia. now rewrite Nat.sub_diag. }
  assert (Hl2 : (length h1 < length h2)%nat) by (now apply lookup_lt_Some in Ha).
  apply prefix_length in Hp3 as Hl3.
  exists h5, (length h4), (length h1), (length h3), ia, ob.
  split; [reflexivity|]. split.
  { transitivity h1; [exact Hp1|]. transitivity h2; [exact Hp2|].
    transitivity h3; [exact Hp3|]. now transitivity h4. }
  repeat apply conj.
  - unfold h5. rewrite lookup_app_r by lia. now rewrite Nat.sub_diag.
  - eapply prefix_lookup_Some; [exact Ha|].
    transitivity h3; [exact Hp3|]. now transitivity h4.
  - eapply prefix_lookup_Some; [exact Hb|]. exact Hp5.
  - lia.
  - eapply Forall2_impl; [exact Hin|]. intros x y Hxy.
    apply (input_at_mono h1); [|exact Hxy].
    transitivity h2; [exact Hp2|]. transitivity h3; [exact Hp3|]. now transitivity h4.
  - eapply Forall2_impl; [exact Hout|]. intros x y Hxy.
    unfold Heap.output_at in *. eapply prefix_lookup_Some; [exact Hxy|]. now transitivity h4.
  - exact Hnd.
Qed.

Lemma shallowCopy_run (h : Heap.heap) (t : Heap.loc) (tx : Transaction) :
  Heap.read_transaction h t = Some tx ->
  exists h' c a b ia ob,
    Heap.Transaction_shallowCopy t h = (h', Ok c)
    /\ h `prefix_of` h'
    /\ Heap.holds h' c a b ia ob tx.
Proof.
  intros Hr. unfold Heap.Transaction_shallowCopy.
  rewrite (bind_run _ _ h h tx) by (unfold Heap.view_transaction; now rewrite Hr).
  apply alloc_transaction_run.
Qed.


(** *** Assignments, seen from the value *)

Lemma input_at_insert (h : Heap.heap) (l x : Heap.loc) (i : Input) (o : Heap.object) :
  Heap.input_at h l i ->
  (forall p oi sq s out, h !! x <> Some (Heap.OInput p oi sq s out)) ->
  (forall c, h !! x <> Some (Heap.OScript c)) ->
  Heap.input_at (<[x := o]> h) l i.
Proof.
  intros (s & Hl & Hs) Hni Hns. exists s.
  rewrite !list_lookup_insert_ne; [now split | |]; intros <-.
  - exact (Hns _ Hs).
  - exact (Hni _ _ _ _ _ Hl).
Qed.

Lemma output_at_insert (h : Heap.heap) (l x : Heap.loc) (out : Output) (o : Heap.object) :
  Heap.output_at h l out -> (forall y, h !! x <> Some (Heap.OOutput y)) ->
  Heap.output_at (<[x := o]> h) l out.
Proof.
  unfold Heap.output_at. intros Hl Hno.
  rewrite list_lookup_insert_ne; [exact Hl|]. intros <-. exact (Hno _ Hl).
Qed.

Lemma set_inputs_fields (tx : Transaction) (l : list Input) :
  version (set_inputs tx l) = version tx
  /\ nVersionGroupId (set_inputs tx l) = nVersionGroupId tx
  /\ outputs (set_inputs tx l) = outputs tx
  /\ inputs (set_inputs tx l) = l.
Proof. now repeat split. Qed.

(** [a] is the inputs array: storing a new element list in it. *)
Lemma holds_store_inputs (h : Heap.heap) (c a b : Heap.loc) (ia ob ia' : list Heap.loc)
    (tx : Transaction) (ins' : list Input) :
  Heap.holds h c a b ia ob tx ->
  Forall2 (Heap.input_at h) ia' ins' -> NoDup ia' ->
  Heap.holds (<[a := Heap.OArray ia']> h) c a b ia' ob (set_inputs tx ins').
Proof.
  intros (Hc & Ha & Hb & Hab & Hi & Ho & Hn) Hi' Hn'.
  apply lookup_lt_Some in Ha as Hlt.
  repeat apply conj; cbn.
  - rewrite list_lookup_insert_ne; [exact Hc|]. intros <-. congruence.
  - now apply list_lookup_insert_eq.
  - now rewrite list_lookup_insert_ne.
  - exact Hab.
  - eapply Forall2_impl; [exact Hi'|]. intros l i Hli.
    apply input_at_insert; [exact Hli| |]; intros; congruence.
  - eapply Forall2_impl; [exact Ho|]. intros l o Hlo.
    apply output_at_insert; [exact Hlo|]. intros; congruence.
  - exact Hn'.
Qed.

(** [b] is the outputs array: storing a new element list in it. *)
Lemma holds_store_outputs (h : Heap.heap) (c a b : Heap.loc) (ia ob ob' : list Heap.loc)
    (tx : Transaction) (outs' : list Output) :
  Heap.holds h c a b ia ob tx ->
  Forall2 (Heap.output_at h) ob' outs' ->
  Heap.holds (<[b := Heap.OArray ob']> h) c a b ia ob' (set_outputs tx outs').
Proof.
  intros (Hc & Ha & Hb & Hab & Hi & Ho & Hn) Ho'.
  apply lookup_lt_Some in Hb as Hlt.
  repeat apply conj; cbn.
  - rewrite list_lookup_insert_ne; [exact Hc|]. intros <-. congruence.
  - rewrite list_lookup_insert_ne; [exact Ha | congruence].
  - now apply list_lookup_insert_eq.
  - exact Hab.
  - eapply Forall2_impl; [exact Hi|]. intros l i Hli.
    apply input_at_insert; [exact Hli| |]; intros; congruence.
  - eapply Forall2_impl; [exact Ho'|]. intros l o Hlo.
    apply output_at_insert; [exact Hlo|]. intros; congruence.
  - exact Hn.
Qed.

(** [transaction.inputs = a'] *)
Lemma holds_assign_inputs (h : Heap.heap) (c a b a' : Heap.loc) (ia ob ia' : list Heap.loc)
    (tx : Transaction) (ins' : list Input) :
  Heap.holds h c a b ia ob tx ->
  h !! a' = Some (Heap.OArray ia') -> a' <> b ->
  Forall2 (Heap.input_at h) ia' ins' -> NoDup ia' ->
  Heap.holds (<[c := Heap.OTransaction (version tx) (nVersionGroupId tx) a' b (nLockTime tx)
                             (nExpiryHeight tx) (valueBalance tx) (branchId tx)]> h)
        c a' b ia' ob (set_inputs tx ins').
Proof.
  intros (Hc & Ha & Hb & Hab & Hi & Ho & Hn) Ha' Hab' Hi' Hn'.
  apply lookup_lt_Some in Hc as Hlt.
  repeat apply conj; cbn.
  - now apply list_lookup_insert_eq.
  - rewrite list_lookup_insert_ne; [exact Ha'|]. intros <-. congruence.
  - rewrite list_lookup_insert_ne; [exact Hb|]. intros <-. congruence.
  - exact Hab'.
  - eapply Forall2_impl; [exact Hi'|]. intros l i Hli.
    apply input_at_insert; [exact Hli| |]; intros; congruence.
  - eapply Forall2_impl; [exact Ho|]. intros l o Hlo.
    apply output_at_insert; [exact Hlo|]. intros; congruence.
  - exact Hn'.
Qed.

(** [transaction.outputs = b'] *)
Lemma holds_assign_outputs (h : Heap.heap) (c a b b' : Heap.loc) (ia ob ob' : list Heap.loc)
    (tx : Transaction) (outs' : list Output) :
  Heap.holds h c a b ia ob tx ->
  h !! b' = Some (Heap.OArray ob') -> a <> b' ->
  Forall2 (Heap.output_at h) ob' outs' ->
  Heap.holds (<[c := Heap.OTransaction (version tx) (nVersionGroupId tx) a b' (nLockTime tx)
                             (nExpiryHeight tx) (valueBalance tx) (branchId tx)]> h)
        c a b' ia ob' (set_outputs tx outs').
Proof.
  intros (Hc & Ha & Hb & Hab & Hi & Ho & Hn) Hb' Hab' Ho'.
  apply lookup_lt_Some in Hc as Hlt.
  repeat apply conj; cbn.
  - now apply list_lookup_insert_eq.
  - rewrite list_lookup_insert_ne; [exact Ha|]. intros <-. congruence.
  - rewrite list_lookup_insert_ne; [exact Hb'|]. intros <-. congruence.
  - exact Hab'.
  - eapply Forall2_impl; [exact Hi|]. intros l i Hli.
    apply input_at_insert; [exact Hli| |]; intros; congruence.
  - eapply Forall2_impl; [exact Ho'|]. intros l o Hlo.
    apply output_at_insert; [exact Hlo|]. intros; congruence.
  - exact Hn.
Qed.

(** [transaction.inputs[k].sequenceNumber = q], in place. *)
Lemma holds_store_sequenceNumber (h : Heap.heap) (c a b : Heap.loc) (ia ob : list Heap.loc)
    (tx : Transaction) (k : nat) (l : Heap.loc) (x : Input) (s : Heap.loc) (q : Z) :
  Heap.holds h c a b ia ob tx ->
  ia !! k = Some l -> inputs tx !! k = Some x ->
  h !! l = Some (Heap.OInput (prevTxId x) (outputIndex x) (sequenceNumber x) s (output x)) ->
  Heap.holds (<[l := Heap.OInput (prevTxId x) (outputIndex x) q s (output x)]> h)
        c a b ia ob
        (set_inputs tx (alter (fun input => set_sequenceNumber input q) k (inputs tx))).
Proof.
  intros (Hc & Ha & Hb & Hab & Hi & Ho & Hn) Hk Hx Hl.
  apply lookup_lt_Some in Hl as Hlt.
  repeat apply conj; cbn.
  - rewrite list_lookup_insert_ne; [exact Hc|]. intros <-. congruence.
  - rewrite list_lookup_insert_ne; [exact Ha|]. intros <-. congruence.
  - rewrite list_lookup_insert_ne; [exact Hb|]. intros <-. congruence.
  - exact Hab.
  - apply Forall2_same_length_lookup. split.
    { rewrite length_alter. now apply Forall2_length in Hi. }
    intros j l' i' Hj Hi'j.
    rewrite list_lookup_alter in Hi'j.
    destruct (decide (k = j)) as [<-|Hne].
    + rewrite Hx in Hi'j. injection Hi'j as <-.
      assert (l' = l) by congruence. subst l'.
      destruct (Forall2_lookup_lr _ _ _ _ _ _ Hi Hk Hx) as (s' & Hl' & Hs').
      assert (s' = s) by congruence. subst s'.
      exists s. split; [now apply list_lookup_insert_eq|].
      rewrite list_lookup_insert_ne; [exact Hs'|]. intros <-. congruence.
    + destruct (Forall2_lookup_lr _ _ _ _ _ _ Hi Hj Hi'j) as (s' & Hl' & Hs').
      exists s'. rewrite !list_lookup_insert_ne; [now split| |].
      * intros <-. congruence.
      * intros <-. apply Hne. eapply NoDup_lookup; eauto.
  - eapply Forall2_impl; [exact Ho|]. intros l' o Hlo.
    apply output_at_insert; [exact Hlo|]. intros; congruence.
  - exact Hn.
Qed.


(** *** Running the property reads and the assignments *)

Lemma load_array_run (h : Heap.heap) (a : Heap.loc) (ia : list Heap.loc) :
  h !! a = Some (Heap.OArray ia) -> Heap.load_array a h = (h, Ok ia).
Proof. intros E. unfold Heap.load_array, Heap.load, mbind, Heap.M_bind. now rewrite E. Qed.

Lemma load_script_run (h : Heap.heap) (l : Heap.loc) (c : Script) :
  h !! l = Some (Heap.OScript c) -> Heap.load_script l h = (h, Ok c).
Proof. intros E. unfold Heap.load_script, Heap.load, mbind, Heap.M_bind. now rewrite E. Qed.

Lemma store_run (h : Heap.heap) (l : Heap.loc) (o : Heap.object) :
  (l < length h)%nat -> Heap.store l o h = (<[l := o]> h, Ok tt).
Proof. intros Hl. unfold Heap.store. now rewrite decide_True. Qed.

Lemma holds_get_inputs (h : Heap.heap) (c a b : Heap.loc)
    (ia ob : list Heap.loc) (tx : Transaction) :
  Heap.holds h c a b ia ob tx -> Heap.get_inputs c h = (h, Ok a).
Proof.
  intros (Hc & _). unfold Heap.get_inputs, Heap.load, mbind, Heap.M_bind. now rewrite Hc.
Qed.

Lemma holds_get_outputs (h : Heap.heap) (c a b : Heap.loc)
    (ia ob : list Heap.loc) (tx : Transaction) :
  Heap.holds h c a b ia ob tx -> Heap.get_outputs c h = (h, Ok b).
Proof.
  intros (Hc & _). unfold Heap.get_outputs, Heap.load, mbind, Heap.M_bind. now rewrite Hc.
Qed.

Lemma holds_inputs_length (h : Heap.heap) (c a b : Heap.loc)
    (ia ob : list Heap.loc) (tx : Transaction) :
  Heap.holds h c a b ia ob tx -> length ia = length (inputs tx).
Proof. intros (_ & _ & _ & _ & Hi & _). now apply Forall2_length in Hi. Qed.

Lemma holds_outputs_length (h : Heap.heap) (c a b : Heap.loc)
    (ia ob : list Heap.loc) (tx : Transaction) :
  Heap.holds h c a b ia ob tx -> length ob = length (outputs tx).
Proof. intros (_ & _ & _ & _ & _ & Ho & _). now apply Forall2_length in Ho. Qed.

Lemma holds_inputs_length_run (h : Heap.heap) (c a b : Heap.loc) (ia ob : list Heap.loc)
    (tx : Transaction) :
  Heap.holds h c a b ia ob tx ->
  (a ← Heap.get_inputs c; elems ← Heap.load_array a; mret (length elems)) h =
  (h, Ok (length (inputs tx))).
Proof.
  intros Hh. rewrite (bind_run _ _ _ _ _ (holds_get_inputs _ _ _ _ _ _ _ Hh)).
  destruct Hh as (Hc & Ha & Hrest).
  rewrite (bind_run _ _ _ _ _ (load_array_run _ _ _ Ha)).
  destruct Hrest as (_ & _ & Hi & _). apply Forall2_length in Hi. now rewrite Hi.
Qed.

Lemma NoDup_insert_fresh {A : Type} (l : list A) (k : nat) (x : A) :
  NoDup l -> x ∉ l -> NoDup (<[k := x]> l).
Proof.
  intros Hn Hx. apply NoDup_alt. intros i j y Hi Hj.
  rewrite list_lookup_insert in Hi, Hj.
  destruct (decide (k = i /\ (k < length l)%nat)) as [[Hki _]|Hni];
    destruct (decide (k = j /\ (k < length l)%nat)) as [[Hkj _]|Hnj]; try congruence.
  - exfalso. apply Hx. injection Hi as <-. eapply list_elem_of_lookup_2. exact Hj.
  - exfalso. apply Hx. injection Hj as <-. eapply list_elem_of_lookup_2. exact Hi.
  - eapply NoDup_lookup; eauto.
Qed.

Lemma holds_elements_valid (h : Heap.heap) (c a b : Heap.loc)
    (ia ob : list Heap.loc) (tx : Transaction) :
  Heap.holds h c a b ia ob tx -> Forall (fun l => (l < length h)%nat) ia.
Proof.
  intros (_ & _ & _ & _ & Hi & _). apply Forall_forall. intros l Hl.
  apply list_elem_of_lookup in Hl as [k Hk].
  destruct (Forall2_lookup_l _ _ _ _ _ Hi Hk) as (x & _ & s & Hl & _).
  now apply lookup_lt_Some in Hl.
Qed.

(** A loop over the Heap.store follows the loop over values, as long as each
    round does. *)
Lemma loop_run {S : Type} (R : Heap.heap -> S -> Prop) (hb : nat -> Heap.M unit)
    (pb : nat -> S -> S) (n : nat) :
  (forall k h s, (k < n)%nat -> R h s -> exists h', hb k h = (h', Ok tt) /\ R h' (pb k s)) ->
  forall h s, R h s ->
    exists h', Heap.for_uptoM n hb h = (h', Ok tt) /\ R h' (for_upto n pb s).
Proof.
  intros Hstep. unfold Heap.for_uptoM, for_upto.
  assert (Hin : forall k, k ∈ seq 0 n -> (k < n)%nat).
  { intros k Hk. apply elem_of_seq in Hk. lia. }
  revert Hin. generalize (seq 0 n). intros l.
  induction l as [|k l IH]; intros Hin h s HR; cbn.
  - exists h. now split.
  - destruct (Hstep k h s) as (h1 & Hrun & HR1); [apply Hin; left | exact HR |].
    rewrite (bind_run _ _ _ _ _ Hrun).
    apply IH; [|exact HR1]. intros j Hj. apply Hin. now right.
Qed.


Lemma new_Input_run (h : Heap.heap) (l : Heap.loc) (p : Buffer) (oi sq : Z)
    (s : Heap.loc) (out : option Output) :
  h !! l = Some (Heap.OInput p oi sq s out) ->
  Heap.new_Input (Some l) h = (h ++ [Heap.OInput p oi sq s out], Ok (length h)).
Proof.
  intros E. unfold Heap.new_Input, Heap.lift, Heap.load, Heap.alloc, mbind, Heap.M_bind.
  cbn. now rewrite E.
Qed.

Lemma setScript_run (h : Heap.heap) (l : Heap.loc) (p : Buffer) (oi sq : Z)
    (s0 s : Heap.loc) (out : option Output) :
  h !! l = Some (Heap.OInput p oi sq s0 out) ->
  Heap.setScript l s h = (<[l := Heap.OInput p oi sq s out]> h, Ok tt).
Proof.
  intros E. unfold Heap.setScript, Heap.load, mbind, Heap.M_bind. rewrite E. cbn.
  apply store_run. now apply lookup_lt_Some in E.
Qed.

Lemma assign_sequenceNumber_run (h : Heap.heap) (l : Heap.loc) (p : Buffer) (oi sq q : Z)
    (s : Heap.loc) (out : option Output) :
  h !! l = Some (Heap.OInput p oi sq s out) ->
  Heap.assign_sequenceNumber l q h = (<[l := Heap.OInput p oi q s out]> h, Ok tt).
Proof.
  intros E. unfold Heap.assign_sequenceNumber, Heap.load, mbind, Heap.M_bind.
  rewrite E. cbn. apply store_run. now apply lookup_lt_Some in E.
Qed.

(** A new input object [n], a copy of the input at index [k] but for its
    script, is put at index [k] of the inputs array: lines 202 and 205. *)
Lemma holds_replace_input (h : Heap.heap) (c a b : Heap.loc) (ia ob : list Heap.loc)
    (tx : Transaction) (k : nat) (x : Input) (n s : Heap.loc) (code : Script) :
  Heap.holds h c a b ia ob tx ->
  inputs tx !! k = Some x ->
  h !! n = Some (Heap.OInput (prevTxId x) (outputIndex x) (sequenceNumber x) s (output x)) ->
  h !! s = Some (Heap.OScript code) ->
  n ∉ ia ->
  Heap.holds (<[a := Heap.OArray (<[k := n]> ia)]> h) c a b (<[k := n]> ia) ob
        (set_inputs tx (<[k := setScript x code]> (inputs tx))).
Proof.
  intros Hh Hx Hn Hs Hni.
  pose proof Hh as (Hc & Ha & Hb & Hab & Hi & Ho & Hnd).
  apply (holds_store_inputs h c a b ia); [exact Hh | |].
  - apply Forall2_insert; [exact Hi|]. exists s. now split.
  - now apply NoDup_insert_fresh.
Qed.

Lemma holds_fresh_element (h h1 : Heap.heap) (c a b : Heap.loc) (ia ob : list Heap.loc)
    (tx : Transaction) (n : Heap.loc) :
  Heap.holds h c a b ia ob tx -> (length h <= n)%nat -> n ∉ ia.
Proof.
  intros Hh Hn Hel. pose proof (holds_elements_valid _ _ _ _ _ _ _ Hh) as Hv.
  rewrite Forall_forall in Hv. apply Hv in Hel. lia.
Qed.

Lemma snoc_lookup_last {A : Type} (l : list A) (x : A) : (l ++ [x]) !! length l = Some x.
Proof. rewrite lookup_app_r by lia. now rewrite Nat.sub_diag. Qed.

Lemma snoc_lookup_at {A : Type} (l : list A) (x : A) (n : nat) :
  length l = n -> (l ++ [x]) !! n = Some x.
Proof. intros <-. apply snoc_lookup_last. Qed.

Lemma snoc_insert_last {A : Type} (l : list A) (x y : A) :
  <[length l := y]> (l ++ [x]) = l ++ [y].
Proof. rewrite insert_app_r_alt by lia. now rewrite Nat.sub_diag. Qed.

(** One round of the loop of lines 200-203. *)
Lemma blank_round (h : Heap.heap) (c a b : Heap.loc) (ia ob : list Heap.loc)
    (tx : Transaction) (k : nat) (x : Input) :
  Heap.holds h c a b ia ob tx ->
  inputs tx !! k = Some x ->
  exists h' ia',
    (a ← Heap.get_inputs c;
     elems ← Heap.load_array a;
     input ← Heap.new_Input (elems !! k);
     e ← Heap.Script_empty;
     _ ← Heap.setScript input e;
     Heap.store a (Heap.OArray (<[k := input]> elems))) h = (h', Ok tt)
    /\ Heap.holds h' c a b ia' ob (set_inputs tx (<[k := setScript x Script_empty]> (inputs tx)))
    /\ (forall y z, h !! y = Some (Heap.OScript z) -> h' !! y = Some (Heap.OScript z)).
Proof.
  intros Hh Hx.
  pose proof Hh as (Hc & Ha & Hb & Hab & Hi & Ho & Hnd).
  destruct (Forall2_lookup_r _ _ _ _ _ Hi Hx) as (l & Hl & p & Hlo & Hp).
  rewrite (bind_run _ _ _ _ _ (holds_get_inputs _ _ _ _ _ _ _ Hh)).
  rewrite (bind_run _ _ _ _ _ (load_array_run _ _ _ Ha)).
  rewrite Hl. rewrite (bind_run _ _ _ _ _ (new_Input_run _ _ _ _ _ _ _ Hlo)).
  set (n := length h).
  set (h1 := h ++ [Heap.OInput (prevTxId x) (outputIndex x) (sequenceNumber x) p (output x)]).
  assert (Hlen1 : length h1 = S n) by (unfold h1; rewrite length_app; cbn; lia).
  rewrite (bind_run _ _ h1 (h1 ++ [Heap.OScript []]) (S n))
    by (unfold Heap.Script_empty, Heap.alloc; now rewrite Hlen1).
  set (h2 := h1 ++ [Heap.OScript []]).
  assert (Hn2 : h2 !! n = Some (Heap.OInput (prevTxId x) (outputIndex x)
                                  (sequenceNumber x) p (output x))).
  { unfold h2. rewrite lookup_app_l by lia. apply snoc_lookup_last. }
  rewrite (bind_run _ _ _ _ _ (setScript_run _ _ _ _ _ _ (S n) _ Hn2)).
  set (h3 := <[n := _]> h2).
  assert (E3 : h3 = (h ++ [Heap.OInput (prevTxId x) (outputIndex x) (sequenceNumber x)
                                       (S n) (output x)]) ++ [Heap.OScript []]).
  { unfold h3, h2, h1, n. rewrite insert_app_l by (rewrite length_app; cbn; lia).
    now rewrite snoc_insert_last. }
  assert (Hp3 : h `prefix_of` h3).
  { rewrite E3, <- app_assoc. now apply prefix_app_r. }
  assert (Hlen3 : length h3 = S (S n)).
  { rewrite E3, !length_app. cbn. lia. }
  apply lookup_lt_Some in Ha as Halt.
  rewrite store_run by lia.
  eexists _, _. split; [reflexivity|]. split.
  - apply (holds_replace_input h3 c a b ia ob tx k x n (S n) Script_empty).
    + now apply (holds_mono h).
    + exact Hx.
    + rewrite E3. rewrite lookup_app_l by (rewrite length_app; cbn; lia).
      apply snoc_lookup_last.
    + rewrite E3. apply snoc_lookup_at. rewrite length_app. cbn. lia.
    + apply (holds_fresh_element h h _ _ _ _ _ _ _ Hh). lia.
  - intros y z Hy. rewrite list_lookup_insert_ne by (intros <-; congruence).
    eapply prefix_lookup_Some; eauto.
Qed.


(** One round of the loop of lines 211-215. *)
Lemma sequence_round (h : Heap.heap) (c a b : Heap.loc) (ia ob : list Heap.loc)
    (tx : Transaction) (k i : nat) :
  Heap.holds h c a b ia ob tx ->
  (k < length (inputs tx))%nat ->
  exists h',
    (if bool_decide (k ≠ i) then
       a ← Heap.get_inputs c;
       elems ← Heap.load_array a;
       l ← Heap.lift (defined (elems !! k));
       Heap.assign_sequenceNumber l 0
     else mret tt) h = (h', Ok tt)
    /\ Heap.holds h' c a b ia ob
         (if bool_decide (k ≠ i)
          then set_inputs tx (alter (fun input => set_sequenceNumber input 0) k (inputs tx))
          else tx).
Proof.
  intros Hh Hk. case_bool_decide as Hki; [|exists h; now split].
  pose proof Hh as (Hc & Ha & Hb & Hab & Hi & Ho & Hnd).
  destruct (lookup_lt_is_Some_2 _ _ Hk) as [x Hx].
  destruct (Forall2_lookup_r _ _ _ _ _ Hi Hx) as (l & Hl & p & Hlo & Hp).
  rewrite (bind_run _ _ _ _ _ (holds_get_inputs _ _ _ _ _ _ _ Hh)).
  rewrite (bind_run _ _ _ _ _ (load_array_run _ _ _ Ha)).
  rewrite Hl. rewrite (bind_run _ _ h h l) by reflexivity.
  rewrite (assign_sequenceNumber_run _ _ _ _ _ 0 _ _ Hlo).
  eexists. split; [reflexivity|].
  now apply (holds_store_sequenceNumber h c a b ia ob tx k l x p 0).
Qed.

(** One round of the loop of lines 230-235. *)
Lemma null_round (h : Heap.heap) (c a b : Heap.loc) (ia ob : list Heap.loc)
    (tx : Transaction) (k : nat) (v : Z) :
  Heap.holds h c a b ia ob tx ->
  exists h' ob',
    (o ← Heap.new_Output v;
     b ← Heap.get_outputs c;
     elems ← Heap.load_array b;
     Heap.store b (Heap.OArray (<[k := o]> elems))) h = (h', Ok tt)
    /\ Heap.holds h' c a b ia ob'
         (set_outputs tx (<[k := {| satoshis := v; out_script := Script_empty |}]>
                            (outputs tx))).
Proof.
  intros Hh.
  set (h1 := h ++ [Heap.OOutput {| satoshis := v; out_script := [] |}]).
  rewrite (bind_run _ _ h h1 (length h)) by reflexivity.
  assert (Hp1 : h `prefix_of` h1) by (unfold h1; now apply prefix_app_r).
  pose proof (holds_mono _ _ _ _ _ _ _ _ Hp1 Hh) as Hh1.
  pose proof Hh1 as (Hc & Ha & Hb & Hab & Hi & Ho & Hnd).
  rewrite (bind_run _ _ _ _ _ (holds_get_outputs _ _ _ _ _ _ _ Hh1)).
  rewrite (bind_run _ _ _ _ _ (load_array_run _ _ _ Hb)).
  rewrite store_run by (now apply lookup_lt_Some in Hb).
  eexists _, _. split; [reflexivity|].
  apply (holds_store_outputs h1 c a b ia ob); [exact Hh1|].
  apply Forall2_insert; [exact Ho|]. unfold Heap.output_at, h1. apply snoc_lookup_last.
Qed.


Lemma read_transaction_version (h : Heap.heap) (t : Heap.loc) (tx : Transaction) :
  Heap.read_transaction h t = Some tx -> Heap.get_version t h = (h, Ok (version tx)).
Proof.
  unfold Heap.read_transaction, Heap.get_version, Heap.load, mbind, Heap.M_bind.
  destruct (h !! t) as [[| | | |v g a b lt eh vb br]|]; try discriminate. cbn.
  destruct (Heap.read_array h a); [|discriminate]. cbn.
  destruct (mapM (Heap.read_input h) l); [|discriminate]. cbn.
  destruct (Heap.read_array h b); [|discriminate]. cbn.
  destruct (mapM (Heap.read_output h) l1); [|discriminate]. cbn.
  now intros [= <-].
Qed.

Lemma result_bind_ok {A B : Type} (a : A) (f : A -> result B) : (Ok a ≫= f) = f a.
Proof. reflexivity. Qed.

Lemma result_bind_err {A B : Type} (e : error) (f : A -> result B) : (Err e ≫= f) = Err e.
Proof. reflexivity. Qed.

Section Refinement.
Context `{Primitives}.

(** Lines 238-248, from a copy that stands for [tx]. *)
Lemma collapse_and_hash_run (h : Heap.heap) (c a b : Heap.loc) (ia ob : list Heap.loc)
    (tx : Transaction) (ty : Z) (i : nat) :
  Heap.holds h c a b ia ob tx ->
  ((_ ← (if js_truthy (js_band ty SIGHASH_ANYONECANPAY) then
           a ← Heap.get_inputs c;
           elems ← Heap.load_array a;
           l ← Heap.lift (defined (elems !! i));
           a' ← Heap.alloc (Heap.OArray [l]);
           Heap.assign_inputs c a'
         else mret tt);
    tx ← Heap.view_transaction c;
    mret (readReverse (sha256sha256
            (toBuffer (writeInt32LE (write BufferWriter_new (Transaction_toBuffer tx)) ty))))) h).2
  =
  (b ← (if js_truthy (js_band ty SIGHASH_ANYONECANPAY)
        then input ← defined (inputs tx !! i); Ok (Copy (set_inputs tx [input]))
        else Ok (Copy tx));
   match b with
   | Returned digest => Ok digest
   | Copy txcopy =>
       Ok (readReverse (sha256sha256
             (toBuffer (writeInt32LE (write BufferWriter_new (Transaction_toBuffer txcopy)) ty))))
   end).
Proof.
  intros Hh. pose proof Hh as (Hc & Ha & Hb & Hab & Hi & Ho & Hnd).
  destruct (js_truthy (js_band ty SIGHASH_ANYONECANPAY)).
  - step (holds_get_inputs _ _ _ _ _ _ _ Hh).
    step (load_array_run _ _ _ Ha).
    destruct (inputs tx !! i) as [x|] eqn:Ex.
    + destruct (Forall2_lookup_r _ _ _ _ _ Hi Ex) as (l & Hl & Hlx).
      rewrite Hl. step (eq_refl : Heap.lift (defined (Some l)) h = (h, Ok l)).
      set (h1 := h ++ [Heap.OArray [l]]).
      step (eq_refl : Heap.alloc (Heap.OArray [l]) h = (h1, Ok (length h))).
      assert (Hp1 : h `prefix_of` h1) by (unfold h1; now apply prefix_app_r).
      pose proof (holds_mono _ _ _ _ _ _ _ _ Hp1 Hh) as Hh1.
      pose proof Hh1 as (Hc1 & _ & Hb1 & _).
      unfold Heap.assign_inputs.
      assert (Hload : Heap.load c h1 = (h1, Ok (Heap.OTransaction (version tx)
                (nVersionGroupId tx) a b (nLockTime tx) (nExpiryHeight tx)
                (valueBalance tx) (branchId tx))))
        by (unfold Heap.load; now rewrite Hc1).
      step Hload.
      step (store_run h1 c (Heap.OTransaction (version tx) (nVersionGroupId tx)
              (length h) b (nLockTime tx) (nExpiryHeight tx) (valueBalance tx)
              (branchId tx)) ltac:(now apply lookup_lt_Some in Hc1)).
      pose proof (holds_assign_inputs h1 c a b (length h) ia ob [l] tx [x] Hh1) as Hh2.
      assert (Hnew : Heap.holds (<[c := Heap.OTransaction (version tx) (nVersionGroupId tx)
                (length h) b (nLockTime tx) (nExpiryHeight tx) (valueBalance tx)
                (branchId tx)]> h1) c (length h) b [l] ob (set_inputs tx [x])).
      { apply Hh2.
        - unfold h1. apply snoc_lookup_last.
        - apply lookup_lt_Some in Hb. lia.
        - constructor; [|constructor]. now apply (input_at_mono h).
        - apply NoDup_singleton. }
      apply holds_read in Hnew.
      assert (Hview : Heap.view_transaction c (<[c := Heap.OTransaction (version tx)
                (nVersionGroupId tx) (length h) b (nLockTime tx) (nExpiryHeight tx)
                (valueBalance tx) (branchId tx)]> h1) = (_, Ok (set_inputs tx [x])))
        by (unfold Heap.view_transaction; now rewrite Hnew).
      step Hview. reflexivity.
    + assert (Hl : ia !! i = None).
      { apply lookup_ge_None. apply lookup_ge_None in Ex.
        apply Forall2_length in Hi. lia. }
      rewrite Hl. reflexivity.
  - apply holds_read in Hh. rewrite ret_run.
    assert (Hview : Heap.view_transaction c h = (h, Ok tx))
      by (unfold Heap.view_transaction; now rewrite Hh).
    step Hview. reflexivity.
Qed.


(** Over a store in which [transaction] stands for [tx] and [subscript] for
    [s], the call returns what the function on values returns for [tx] and
    [s], exceptions included. *)
Theorem heap_sighash_refines (h : Heap.heap) (transaction subscript : Heap.loc)
    (tx : Transaction) (s : Script) (ty : Z) (i : nat) :
  Heap.read_transaction h transaction = Some tx ->
  Heap.read_script h subscript = Some s ->
  (Heap.sighash transaction ty i subscript h).2 = sighash tx ty i s.
Proof.
  intros Htx Hs. unfold Heap.sighash, sighash.
  step (read_transaction_version _ _ _ Htx).
  assert (Hview : Heap.view_transaction transaction h = (h, Ok tx))
    by (unfold Heap.view_transaction; now rewrite Htx).
  assert (Hsub : h !! subscript = Some (Heap.OScript s)).
  { unfold Heap.read_script in Hs.
    destruct (h !! subscript) as [[c| | | |]|]; try discriminate. congruence. }
  destruct (version tx >=? 4).
  { unfold Heap.sighashSapling. step Hview.
    step (load_script_run _ _ _ Hsub). reflexivity. }
  destruct (shallowCopy_run h transaction tx Htx)
    as (h1 & c & a & b & ia & ob & Hrun & Hp1 & Hh1).
  step Hrun.
  (* the copy of the subscript *)
  assert (Hsub1 : h1 !! subscript = Some (Heap.OScript s))
    by (eapply prefix_lookup_Some; eauto).
  unfold Heap.new_Script. step (load_script_run _ _ _ Hsub1).
  step (eq_refl : Heap.alloc (Heap.OScript s) h1 = (h1 ++ [Heap.OScript s], Ok (length h1))).
  unfold Heap.Script_removeCodeseparators.
  step (load_script_run (h1 ++ [Heap.OScript s]) (length h1) s (snoc_lookup_last _ _)).
  step (store_run (h1 ++ [Heap.OScript s]) (length h1)
          (Heap.OScript (removeCodeseparators s)) ltac:(rewrite length_app; cbn; lia)).
  rewrite snoc_insert_last.
  set (s2 := length h1).
  set (code := removeCodeseparators s).
  set (h3 := h1 ++ [Heap.OScript code]).
  assert (Hh3 : Heap.holds h3 c a b ia ob tx).
  { apply (holds_mono h1); [|exact Hh1]. unfold h3. now apply prefix_app_r. }
  assert (Hs2 : h3 !! s2 = Some (Heap.OScript code)) by apply snoc_lookup_last.
  step_group (holds_inputs_length_run _ _ _ _ _ _ _ Hh3).
  (* lines 200-203 *)
  set (pb1 := fun (k : nat) (acc : result Transaction) =>
                txcopy ← acc;
                input ← new_Input (inputs txcopy !! k);
                Ok (set_inputs txcopy (<[k := setScript input Script_empty]> (inputs txcopy)))).
  set (R1 := fun (hh : Heap.heap) (st : result Transaction) =>
               exists txv ia', st = Ok txv /\ Heap.holds hh c a b ia' ob txv
                 /\ length (inputs txv) = length (inputs tx)
                 /\ hh !! s2 = Some (Heap.OScript code)).
  lazymatch goal with
  | |- context [Heap.for_uptoM (length (inputs tx)) ?hb] => set (hb1 := hb)
  end.
  assert (Hstep1 : forall k hh st, (k < length (inputs tx))%nat -> R1 hh st ->
            exists h', hb1 k hh = (h', Ok tt) /\ R1 h' (pb1 k st)).
  { intros k hh st Hk (txv & ia' & -> & Hhh & Hlen & Hss).
    destruct (lookup_lt_is_Some_2 (inputs txv) k) as [x Hx]; [lia|].
    destruct (blank_round hh c a b ia' ob txv k x Hhh Hx) as (h' & ia'' & Hrun' & Hh' & Hkeep).
    exists h'. split; [exact Hrun'|].
    exists (set_inputs txv (<[k := setScript x Script_empty]> (inputs txv))), ia''.
    split; [|split; [|split]].
    - unfold pb1. rewrite result_bind_ok, Hx. reflexivity.
    - exact Hh'.
    - cbn. now rewrite length_insert.
    - now apply Hkeep. }
  destruct (loop_run R1 hb1 pb1 (length (inputs tx)) Hstep1 h3 (Ok tx))
    as (h4 & Hloop1 & txB & ia4 & HB & Hh4 & Hlen4 & Hs4).
  { exists tx, ia. split; [|split; [|split]]; trivial. }
  step_group Hloop1.
  change (blank_scripts tx = Ok txB) in HB.
  unfold legacy_build. cbv zeta. rewrite HB, result_bind_ok.
  fold code.
  (* line 205 *)
  pose proof Hh4 as (Hc4 & Ha4 & Hb4 & Hab4 & Hi4 & Ho4 & Hnd4).
  step (holds_get_inputs _ _ _ _ _ _ _ Hh4).
  step (load_array_run _ _ _ Ha4).
  destruct (inputs txB !! i) as [x|] eqn:Ex.
  2:{ assert (Hl : ia4 !! i = None).
      { apply lookup_ge_None. apply lookup_ge_None in Ex.
        apply Forall2_length in Hi4. lia. }
      rewrite Hl. reflexivity. }
  destruct (Forall2_lookup_r _ _ _ _ _ Hi4 Ex) as (l & Hl & p & Hlo & Hp).
  rewrite Hl. step (new_Input_run _ _ _ _ _ _ _ Hlo).
  assert (Hn5 : (h4 ++ [Heap.OInput (prevTxId x) (outputIndex x) (sequenceNumber x) p
                                    (output x)]) !! length h4
                = Some (Heap.OInput (prevTxId x) (outputIndex x) (sequenceNumber x) p
                                    (output x))) by apply snoc_lookup_last.
  step (setScript_run _ _ _ _ _ _ s2 _ Hn5).
  rewrite snoc_insert_last.
  set (n5 := length h4).
  set (h6 := h4 ++ _).
  assert (Hp6 : h4 `prefix_of` h6) by (unfold h6; now apply prefix_app_r).
  step (store_run h6 a (Heap.OArray (<[i := n5]> ia4))
          ltac:(apply lookup_lt_Some in Ha4; apply prefix_length in Hp6; lia)).
  set (h7 := <[a := _]> h6).
  set (txP := set_inputs txB (<[i := setScript x code]> (inputs txB))).
  assert (Hh7 : Heap.holds h7 c a b (<[i := n5]> ia4) ob txP).
  { apply (holds_replace_input h6 c a b ia4 ob txB i x n5 s2 code).
    - now apply (holds_mono h4).
    - exact Ex.
    - apply snoc_lookup_last.
    - eapply prefix_lookup_Some; eauto.
    - apply (holds_fresh_element h4 h4 _ _ _ _ _ _ _ Hh4). unfold n5. lia. }
  cbn [new_Input defined]. rewrite result_bind_ok. fold txP.
  (* lines 207-216 *)
  set (txQ := if (js_band ty 31 =? SIGHASH_NONE) || (js_band ty 31 =? SIGHASH_SINGLE)
              then clear_sequenceNumbers i txP else txP).
  lazymatch goal with |- ((?m ≫= _) h7).2 = _ => set (m2 := m) end.
  assert (Hstage2 : exists h8 ia8, m2 h7 = (h8, Ok tt) /\ Heap.holds h8 c a b ia8 ob txQ).
  { unfold m2, txQ.
    destruct ((js_band ty 31 =? SIGHASH_NONE) || (js_band ty 31 =? SIGHASH_SINGLE));
      [|now exists h7, (<[i := n5]> ia4)].
    step_group (holds_inputs_length_run _ _ _ _ _ _ _ Hh7).
    set (pb2 := fun (k : nat) (txcopy : Transaction) =>
                  if bool_decide (k ≠ i)
                  then set_inputs txcopy
                         (alter (fun input => set_sequenceNumber input 0) k (inputs txcopy))
                  else txcopy).
    set (R2 := fun (hh : Heap.heap) (st : Transaction) =>
                 exists ia', Heap.holds hh c a b ia' ob st
                   /\ length (inputs st) = length (inputs txP)).
    lazymatch goal with
    | |- context [Heap.for_uptoM (length (inputs txP)) ?hb] => set (hb2 := hb)
    end.
    assert (Hstep2 : forall k hh st, (k < length (inputs txP))%nat -> R2 hh st ->
              exists h', hb2 k hh = (h', Ok tt) /\ R2 h' (pb2 k st)).
    { intros k hh st Hk (ia' & Hhh & Hlen).
      destruct (sequence_round hh c a b ia' ob st k i Hhh ltac:(lia)) as (h' & Hrun' & Hh').
      exists h'. split; [exact Hrun'|]. exists ia'. split; [exact Hh'|].
      unfold pb2. case_bool_decide; [|exact Hlen]. cbn. now rewrite length_alter. }
    destruct (loop_run R2 hb2 pb2 (length (inputs txP)) Hstep2 h7 txP)
      as (h8 & Hloop2 & ia8 & Hh8 & _).
    { exists (<[i := n5]> ia4). now split. }
    exists h8, ia8. split; [exact Hloop2 | exact Hh8]. }
  destruct Hstage2 as (h8 & ia8 & Hrun2 & Hh8).
  step_group Hrun2. clear m2 Hrun2.
  pose proof Hh8 as (Hc8 & Ha8 & Hb8 & Hab8 & Hi8 & Ho8 & Hnd8).
  (* lines 218-236 *)
  destruct (js_band ty 31 =? SIGHASH_NONE).
  { set (h9 := h8 ++ [Heap.OArray []]).
    step (eq_refl : Heap.alloc (Heap.OArray []) h8 = (h9, Ok (length h8))).
    assert (Hp9 : h8 `prefix_of` h9) by (unfold h9; now apply prefix_app_r).
    pose proof (holds_mono _ _ _ _ _ _ _ _ Hp9 Hh8) as Hh9.
    pose proof Hh9 as (Hc9 & _).
    unfold Heap.assign_outputs.
    assert (Hload : Heap.load c h9 = (h9, Ok (Heap.OTransaction (version txQ)
              (nVersionGroupId txQ) a b (nLockTime txQ) (nExpiryHeight txQ)
              (valueBalance txQ) (branchId txQ))))
      by (unfold Heap.load; now rewrite Hc9).
    step Hload.
    step (store_run h9 c (Heap.OTransaction (version txQ) (nVersionGroupId txQ)
            a (length h8) (nLockTime txQ) (nExpiryHeight txQ) (valueBalance txQ)
            (branchId txQ)) ltac:(now apply lookup_lt_Some in Hc9)).
    rewrite ret_run. cbv beta iota.
    apply (collapse_and_hash_run _ c a (length h8) ia8 [] (set_outputs txQ [])).
    apply (holds_assign_outputs h9 c a b (length h8) ia8 ob [] txQ [] Hh9).
    - unfold h9. apply snoc_lookup_last.
    - apply lookup_lt_Some in Ha8. lia.
    - constructor. }
  destruct (js_band ty 31 =? SIGHASH_SINGLE).
  2:{ rewrite ret_run. cbv beta iota.
      now apply (collapse_and_hash_run h8 c a b ia8 ob txQ). }
  step (holds_get_outputs _ _ _ _ _ _ _ Hh8).
  step (load_array_run _ _ _ Hb8).
  rewrite (holds_outputs_length _ _ _ _ _ _ _ Hh8).
  case_bool_decide as Hout; [reflexivity|].
  step (store_run h8 b (Heap.OArray (take (i + 1) ob))
          ltac:(now apply lookup_lt_Some in Hb8)).
  set (h9 := <[b := _]> h8).
  set (txT := set_outputs txQ (take (i + 1) (outputs txQ))).
  assert (Hh9 : Heap.holds h9 c a b ia8 (take (i + 1) ob) txT).
  { apply (holds_store_outputs h8 c a b ia8 ob); [exact Hh8|]. now apply Forall2_take. }
  set (pb3 := fun (k : nat) (txcopy : Transaction) =>
                set_outputs txcopy
                  (<[k := {| satoshis := BN_fromBuffer (Buffer_from_hex BITS_64_ON);
                             out_script := Script_empty |}]> (outputs txcopy))).
  set (R3 := fun (hh : Heap.heap) (st : Transaction) =>
               exists ob', Heap.holds hh c a b ia8 ob' st).
  lazymatch goal with
  | |- context [Heap.for_uptoM i ?hb] => set (hb3 := hb)
  end.
  assert (Hstep3 : forall k hh st, (k < i)%nat -> R3 hh st ->
            exists h', hb3 k hh = (h', Ok tt) /\ R3 h' (pb3 k st)).
  { intros k hh st _ (ob' & Hhh).
    destruct (null_round hh c a b ia8 ob' st k
                (BN_fromBuffer (Buffer_from_hex BITS_64_ON)) Hhh)
      as (h' & ob'' & Hrun' & Hh').
    exists h'. split; [exact Hrun'|]. now exists ob''. }
  destruct (loop_run R3 hb3 pb3 i Hstep3 h9 txT) as (h10 & Hloop3 & ob10 & Hh10).
  { now exists (take (i + 1) ob). }
  step Hloop3. rewrite ret_run. cbv beta iota.
  now apply (collapse_and_hash_run h10 c a b ia8 ob10 (null_outputs i txT)).
Qed.


Lemma lift_ok_run {A B : Type} (a : A) (f : A -> Heap.M B) (h : Heap.heap) :
  (Heap.lift (Ok a) ≫= f) h = f a h.
Proof. reflexivity. Qed.

Lemma bind_snd {A B : Type} (m : Heap.M A) (f : A -> Heap.M B) (g : A -> result B)
    (h : Heap.heap) :
  (forall a h', (f a h').2 = g a) -> ((m ≫= f) h).2 = (m h).2 ≫= g.
Proof.
  intros Hf. unfold mbind at 1, Heap.M_bind.
  destruct (m h) as [h' [a|e]]; cbn; [apply Hf | reflexivity].
Qed.

(** [sign] and [verify] over the store return what they return on values. *)
Theorem heap_sign_verify_refine (h : Heap.heap) (transaction subscript : Heap.loc)
    (tx : Transaction) (s : Script) (ty : Z) (i : nat) (privateKey : PrivateKey)
    (signature : option Signature) (publicKey : PublicKey) :
  Heap.read_transaction h transaction = Some tx ->
  Heap.read_script h subscript = Some s ->
  (Heap.sign transaction privateKey ty i subscript h).2 = sign tx privateKey ty i s
  /\ (Heap.verify (Some transaction) signature publicKey i subscript h).2
     = verify (Some tx) signature publicKey i s.
Proof.
  intros Htx Hs. split.
  - unfold Heap.sign, sign.
    rewrite (bind_snd _ _ (fun hashbuf => Ok (Signature_set_nhashtype
               (ECDSA_sign hashbuf privateKey Little) ty))) by reflexivity.
    now rewrite (heap_sighash_refines h transaction subscript tx s ty i Htx Hs).
  - unfold Heap.verify, verify.
    destruct signature as [sig|]; [|reflexivity].
    destruct (nhashtype sig) as [t|] eqn:Et.
    + rewrite !bool_decide_true by eauto. unfold checkArgument, defined. rewrite ?Et.
      rewrite !lift_ok_run, !result_bind_ok. rewrite ?Et.
      rewrite ?lift_ok_run, ?result_bind_ok.
      rewrite (bind_snd _ _ (fun hashbuf => Ok (ECDSA_verify hashbuf sig publicKey Little)))
        by reflexivity.
      rewrite (heap_sighash_refines h transaction subscript tx s t i Htx Hs).
      reflexivity.
    + cbv beta iota. rewrite ?Et.
      rewrite (bool_decide_true (is_Some (Some transaction))) by eauto.
      rewrite (bool_decide_true (is_Some (Some tx))) by eauto.
      rewrite (bool_decide_false (is_Some None)) by (intros [? ?]; discriminate).
      reflexivity.
Qed.

End Refinement.

End HeapRefinement.

(* ===================================================================== *)
(** ** What each builder reads of a transaction *)
(* ===================================================================== *)

Lemma take1_drop_lookup {A : Type} (l l' : list A) (i : nat) :
  l !! i = l' !! i -> take 1 (drop i l) = take 1 (drop i l').
Proof.
  intros E. destruct (l !! i) as [x|] eqn:Ex.
  - rewrite (take1_drop _ _ _ Ex). symmetry in E. now rewrite (take1_drop _ _ _ E).
  - symmetry in E. apply lookup_ge_None in Ex, E. now rewrite !drop_ge.
Qed.

Lemma fmap_imap_same {A B : Type} (g : A -> B) (h : nat -> A -> A) (l : list A) :
  (forall j x, g (h j x) = g x) -> g <$> imap h l = g <$> l.
Proof.
  intros E. apply list_eq. intros j.
  rewrite !list_lookup_fmap, list_lookup_imap.
  destruct (l !! j) as [x|]; [cbn|reflexivity]. now rewrite E.
Qed.

Lemma fmap_alter_same {A B : Type} (g : A -> B) (h : A -> A) (j : nat) (l : list A) :
  (forall x, g (h x) = g x) -> g <$> alter h j l = g <$> l.
Proof.
  intros E. apply list_eq. intros k. rewrite !list_lookup_fmap.
  destruct (decide (j = k)) as [->|Hne].
  - rewrite list_lookup_alter, decide_True by reflexivity.
    destruct (l !! k) as [x|]; [cbn|reflexivity]. now rewrite E.
  - now rewrite list_lookup_alter_ne.
Qed.

Section Reads.
Context `{Primitives}.

(** Line 147 on an [input] that is [undefined]. *)
Lemma sapling_writer_absent (tx : Transaction) (t : Z) (i : nat) (sub : Script) :
  inputs tx !! i = None -> sapling_writer tx t i sub = Err TypeError.
Proof.
  intros Ei. unfold sapling_writer.
  rewrite sapling_hashOutputs_spec, Ei. reflexivity.
Qed.

(** Line 155 on an input whose [output] is [undefined]. *)
Lemma sapling_writer_unspent (tx : Transaction) (t : Z) (i : nat) (sub : Script)
    (input : Input) :
  inputs tx !! i = Some input -> output input = None ->
  sapling_writer tx t i sub = Err TypeError.
Proof.
  intros Ei Eo. unfold sapling_writer.
  rewrite sapling_hashOutputs_spec, Ei.
  unfold mbind, result_bind, defined. now rewrite Eo.
Qed.

(** The Sapling-era builder reads, of the transaction, five scalar fields,
    the three lists through their hashes, and four fields of the input
    [inputNumber]. *)
Lemma sapling_writer_reads (tx tx' : Transaction) (t : Z) (i : nat) (sub : Script) :
  version tx' = version tx ->
  nVersionGroupId tx' = nVersionGroupId tx ->
  nLockTime tx' = nLockTime tx ->
  nExpiryHeight tx' = nExpiryHeight tx ->
  valueBalance tx' = valueBalance tx ->
  spec_prevouts_hash tx' t = spec_prevouts_hash tx t ->
  spec_sequence_hash tx' t = spec_sequence_hash tx t ->
  spec_outputs_hash tx' t i = spec_outputs_hash tx t i ->
  (fun x => (prevTxId x, outputIndex x, sequenceNumber x, satoshis <$> output x))
    <$> inputs tx' !! i
  = (fun x => (prevTxId x, outputIndex x, sequenceNumber x, satoshis <$> output x))
    <$> inputs tx !! i ->
  sapling_writer tx' t i sub = sapling_writer tx t i sub.
Proof.
  intros Hv Hg Hl He Hb Hp Hs Ho Hin.
  destruct (inputs tx !! i) as [x|] eqn:Ex;
    destruct (inputs tx' !! i) as [x'|] eqn:Ex'; try discriminate.
  2:{ now rewrite !sapling_writer_absent. }
  injection Hin as Hx1 Hx2 Hx3 Hx4.
  destruct (output x) as [o|] eqn:Eo; destruct (output x') as [o'|] eqn:Eo';
    try discriminate.
  2:{ now rewrite (sapling_writer_unspent _ _ _ _ _ Ex Eo),
        (sapling_writer_unspent _ _ _ _ _ Ex' Eo'). }
  injection Hx4 as Hx4.
  rewrite (sapling_writer_chunks _ _ _ _ _ _ Ex Eo),
    (sapling_writer_chunks _ _ _ _ _ _ Ex' Eo').
  now rewrite Hv, Hg, Hl, He, Hb, Hp, Hs, Ho, Hx1, Hx2, Hx3, Hx4.
Qed.

Lemma sighashSapling_reads (tx tx' : Transaction) (t : Z) (i : nat) (sub : Script) :
  branchId tx' = branchId tx ->
  sapling_writer tx' t i sub = sapling_writer tx t i sub ->
  sighashSapling tx' t i sub = sighashSapling tx t i sub.
Proof.
  intros Hb Hw. unfold sighashSapling. rewrite Hw.
  unfold sapling_personalization, sapling_consensusBranchId. now rewrite Hb.
Qed.

(** What the Sapling-era builder has written, read back from its result. *)
Lemma sapling_writer_inv (tx : Transaction) (t : Z) (i : nat) (sub : Script)
    (w : BufferWriter) :
  sapling_writer tx t i sub = Ok w ->
  exists input spent,
    inputs tx !! i = Some input /\ output input = Some spent
    /\ w = [ le_bytes 4 (Z.lor (version tx) (2 ^ 31));
             le_bytes 4 (nVersionGroupId tx);
             spec_prevouts_hash tx t;
             spec_sequence_hash tx t;
             spec_outputs_hash tx t i;
             zero32; zero32; zero32;
             le_bytes 4 (nLockTime tx);
             le_bytes 4 (nExpiryHeight tx);
             le_bytes 8 (valueBalance tx);
             le_bytes 4 t;
             rev (prevTxId input);
             le_bytes 4 (outputIndex input);
             varint (Z.of_nat (length sub));
             sub;
             le_bytes 8 (satoshis spent);
             le_bytes 4 (sequenceNumber input) ].
Proof.
  intros Hw.
  destruct (inputs tx !! i) as [input|] eqn:Ei;
    [|rewrite sapling_writer_absent in Hw by exact Ei; discriminate].
  destruct (output input) as [spent|] eqn:Eo;
    [|rewrite (sapling_writer_unspent _ _ _ _ _ Ei Eo) in Hw; discriminate].
  exists input, spent. split; [reflexivity|]. split; [exact Eo|].
  rewrite (sapling_writer_chunks _ _ _ _ _ _ Ei Eo) in Hw. congruence.
Qed.

Lemma sub_hashes_length (tx : Transaction) (t : Z) (i : nat) :
  (forall p d, length (blake2b 32 p d) = 32%nat) ->
  length (spec_prevouts_hash tx t) = 32%nat
  /\ length (spec_sequence_hash tx t) = 32%nat
  /\ length (spec_outputs_hash tx t i) = 32%nat.
Proof.
  intros Hb. unfold spec_prevouts_hash, spec_sequence_hash, spec_outputs_hash.
  repeat split.
  - destruct (anyonecanpay t); [reflexivity | apply Hb].
  - destruct (_ || _); [reflexivity | apply Hb].
  - destruct (selector t =? SIGHASH_SINGLE).
    + destruct (outputs tx !! i); [apply Hb | reflexivity].
    + destruct (selector t =? SIGHASH_NONE); [reflexivity | apply Hb].
Qed.

(** The three ways out of the legacy builder. *)
Lemma sighash_legacy_cases (tx : Transaction) (t : Z) (i : nat) (sub : Script) :
  version tx < 4 ->
  sighash tx t i sub =
  match inputs tx !! i with
  | None => Err TypeError
  | Some _ =>
      if decide (selector t = SIGHASH_SINGLE /\ outputs tx !! i = None)
      then Ok single_bug_digest
      else Ok (rev (sha256sha256 (Transaction_toBuffer (spec_legacy_copy tx t i sub)
                                  ++ le_bytes 4 t)))
  end.
Proof.
  intros Hv. rewrite sighash_legacy_era by exact Hv.
  destruct (inputs tx !! i) as [x|] eqn:Ex.
  - destruct (decide _) as [[Hs Hi]|Hq].
    + apply lookup_ge_None in Hi.
      rewrite legacy_build_returned; [reflexivity| rewrite Ex; eauto |exact Hs|exact Hi].
    + rewrite legacy_build_copy; [reflexivity| rewrite Ex; eauto |].
      intros [Hs Hi]. apply Hq. split; [exact Hs|]. now apply lookup_ge_None.
  - now rewrite legacy_build_absent.
Qed.

End Reads.

(* ===================================================================== *)
(** ** Reading little-endian fields back *)
(* ===================================================================== *)

Lemma Z_of_byte_of_Z (z : Z) : Z_of_byte (byte_of_Z z) = z mod 256.
Proof.
  unfold Z_of_byte, byte_of_Z.
  assert (Hr : 0 <= z mod 256 < 256) by (apply Z.mod_pos_bound; lia).
  destruct (Byte.of_N (Z.to_N (z mod 256))) as [b|] eqn:E.
  - change (default x00 (Some b)) with b. apply Byte.to_of_N in E. rewrite E.
    apply Z2N.id. lia.
  - apply Byte.of_N_None_iff in E. lia.
Qed.

Lemma le_value_le_bytes (n : nat) (z : Z) :
  le_value (le_bytes n z) = z mod 2 ^ (8 * Z.of_nat n).
Proof.
  revert z. induction n as [|n IH]; intros z.
  - cbn. now rewrite Z.mod_1_r.
  - cbn [le_bytes le_value]. rewrite Z_of_byte_of_Z, IH.
    replace (8 * Z.of_nat (S n)) with (8 + 8 * Z.of_nat n) by lia.
    rewrite Z.pow_add_r by lia. rewrite Z.rem_mul_r by lia.
    rewrite Z.shiftr_div_pow2 by lia. reflexivity.
Qed.

Lemma le_bytes_inj (n : nat) (a b : Z) :
  le_bytes n a = le_bytes n b -> a mod 2 ^ (8 * Z.of_nat n) = b mod 2 ^ (8 * Z.of_nat n).
Proof. intros E. rewrite <- !le_value_le_bytes. now rewrite E. Qed.

(** Two versions with bit 31 set over them agree below it. *)
Lemma header_inj (v v' : Z) :
  Z.lor v (2 ^ 31) mod 2 ^ 32 = Z.lor v' (2 ^ 31) mod 2 ^ 32 ->
  v mod 2 ^ 31 = v' mod 2 ^ 31.
Proof.
  intros E. apply Z.bits_inj'. intros k Hk.
  destruct (Z.lt_ge_cases k 31) as [Hlt|Hge].
  - rewrite !Z.mod_pow2_bits_low by lia.
    pose proof (testbit_congr _ _ 32 k E ltac:(lia)) as Hb.
    rewrite !Z.lor_spec, !Z.pow2_bits_false, !orb_false_r in Hb by lia. exact Hb.
  - now rewrite !Z.mod_pow2_bits_high by lia.
Qed.

Lemma sapling_consensusBranchId_range (tx : Transaction) :
  (forall b, branchId tx = Some b -> 0 <= b < 2 ^ 32) ->
  0 <= sapling_consensusBranchId tx < 2 ^ 32.
Proof.
  intros Hb. unfold sapling_consensusBranchId.
  destruct (branchId tx) as [b|]; [|cbv; split; congruence].
  destruct (js_truthy b); [now apply Hb | cbv; split; congruence].
Qed.

Lemma sapling_personalization_bytes (tx : Transaction) :
  sapling_personalization tx
  = Buffer_from_string "ZcashSigHash" ++ le_bytes 4 (sapling_consensusBranchId tx).
Proof.
  unfold sapling_personalization. generalize (sapling_consensusBranchId tx). intros b.
  reflexivity.
Qed.

(* ===================================================================== *)
(** ** What a digest does not commit to *)
(* ===================================================================== *)

Section Uncommitted.
Context `{Primitives}.

(** X1 — The digest does not depend on the scripts the inputs of the
    transaction carry, the input [inputNumber] included: the legacy builder
    replaces every one of them (lines 200-205) and the Sapling-era builder
    reads none.  Whatever scripts are put on the inputs, [sighash] returns
    the same digest, or the same exception. *)
Theorem sighash_ignores_input_scripts (tx : Transaction) (t : Z) (i : nat)
    (sub : Script) (f : nat -> Script) :
  sighash (set_scripts tx f) t i sub = sighash tx t i sub.
Proof.
  assert (Hlk : inputs (set_scripts tx f) !! i
                = (fun x => setScript x (f i)) <$> inputs tx !! i)
    by apply list_lookup_imap.
  destruct (Z.lt_ge_cases (version tx) 4) as [Hlt|Hge].
  - rewrite !sighash_legacy_cases by exact Hlt. rewrite Hlk.
    assert (Hcopy : spec_legacy_copy (set_scripts tx f) t i sub
                    = spec_legacy_copy tx t i sub).
    { unfold spec_legacy_copy.
      assert (Hins : spec_legacy_inputs (set_scripts tx f) t i sub
                     = spec_legacy_inputs tx t i sub).
      { unfold spec_legacy_inputs. apply list_eq. intros j.
        cbn [set_scripts set_inputs inputs]. rewrite !list_lookup_imap.
        destruct (inputs tx !! j) as [x|]; [cbn|reflexivity].
        destruct (decide (j = i)); [reflexivity|]. now destruct (decide _). }
      rewrite Hins. reflexivity. }
    rewrite Hcopy. destruct (inputs tx !! i); reflexivity.
  - rewrite !sighash_sapling_era by exact Hge.
    apply sighashSapling_reads; [reflexivity|].
    apply sapling_writer_reads; try reflexivity.
    + unfold spec_prevouts_hash. destruct (anyonecanpay t); [reflexivity|].
      do 2 f_equal. now apply fmap_imap_same.
    + unfold spec_sequence_hash. destruct (_ || _); [reflexivity|].
      do 2 f_equal. now apply fmap_imap_same.
    + rewrite Hlk. now destruct (inputs tx !! i).
Qed.

(** X2 — For a transaction of version 4 or more and a signature type with
    ANYONECANPAY set, the digest depends on no input but [inputNumber]: two
    transactions that agree on everything but their input lists, and on
    the input [inputNumber] but for its script, have the same digest, how
    many other inputs each has and whatever these are (lines 104-115 leave
    both input hashes at zero). *)
Theorem sapling_anyonecanpay_other_inputs (tx tx' : Transaction) (t : Z) (i : nat)
    (sub : Script) :
  4 <= version tx -> anyonecanpay t = true -> same_but_inputs tx tx' i ->
  sighash tx' t i sub = sighash tx t i sub.
Proof.
  intros Hv Ha [Hrest Hin].
  assert (Hv' : version tx' = version tx) by exact (f_equal version Hrest).
  rewrite !sighash_sapling_era by lia.
  apply sighashSapling_reads; [exact (f_equal branchId Hrest)|].
  apply sapling_writer_reads.
  - exact Hv'.
  - exact (f_equal nVersionGroupId Hrest).
  - exact (f_equal nLockTime Hrest).
  - exact (f_equal nExpiryHeight Hrest).
  - exact (f_equal valueBalance Hrest).
  - unfold spec_prevouts_hash. now rewrite Ha.
  - unfold spec_sequence_hash. now rewrite Ha.
  - assert (Hout : outputs tx' = outputs tx) by exact (f_equal outputs Hrest).
    unfold spec_outputs_hash. now rewrite Hout.
  - destruct (inputs tx !! i) as [x|], (inputs tx' !! i) as [x'|]; try discriminate;
      [|reflexivity].
    cbn in Hin |- *. injection Hin as E1 E2 E3 E4. now rewrite E1, E2, E3, E4.
Qed.

(** X3 — Under the selector NONE the digest does not depend on the outputs
    of the transaction, in either era: the legacy builder empties the
    output list of its copy (line 219) and the Sapling-era builder leaves
    the outputs hash at zero. *)
Theorem none_ignores_outputs (tx : Transaction) (t : Z) (i : nat) (sub : Script)
    (outs : list Output) :
  selector t = SIGHASH_NONE ->
  sighash (set_outputs tx outs) t i sub = sighash tx t i sub.
Proof.
  intros Hn.
  destruct (Z.lt_ge_cases (version tx) 4) as [Hlt|Hge].
  - rewrite !sighash_legacy_cases by exact Hlt.
    cbn [set_outputs inputs]. destruct (inputs tx !! i) as [x|]; [|reflexivity].
    rewrite !decide_False by (rewrite Hn; intros [? _]; discriminate).
    do 4 f_equal. unfold spec_legacy_copy, spec_legacy_outputs.
    rewrite !decide_True by exact Hn. reflexivity.
  - rewrite !sighash_sapling_era by exact Hge.
    apply sighashSapling_reads; [reflexivity|].
    apply sapling_writer_reads; try reflexivity.
    unfold spec_outputs_hash. rewrite Hn. reflexivity.
Qed.

(** X4 — Under the selector SINGLE the digest depends, of the outputs, on
    the one at index [inputNumber] alone, in either era: an output list
    with the same output there (or, like the original, with none there)
    gives the same digest, whatever its other outputs and its length. *)
Theorem single_ignores_other_outputs (tx : Transaction) (t : Z) (i : nat)
    (sub : Script) (outs : list Output) :
  selector t = SIGHASH_SINGLE ->
  outs !! i = outputs tx !! i ->
  sighash (set_outputs tx outs) t i sub = sighash tx t i sub.
Proof.
  intros Hs Ho.
  destruct (Z.lt_ge_cases (version tx) 4) as [Hlt|Hge].
  - rewrite !sighash_legacy_cases by exact Hlt.
    cbn [set_outputs inputs outputs]. destruct (inputs tx !! i) as [x|]; [|reflexivity].
    rewrite Ho. destruct (decide _); [reflexivity|].
    do 4 f_equal. unfold spec_legacy_copy, spec_legacy_outputs.
    rewrite !(decide_False (P := selector t = SIGHASH_NONE))
      by (rewrite Hs; discriminate).
    rewrite !(decide_True (P := selector t = SIGHASH_SINGLE)) by exact Hs.
    cbn [set_outputs inputs outputs].
    now rewrite (take1_drop_lookup _ _ _ Ho).
  - rewrite !sighash_sapling_era by exact Hge.
    apply sighashSapling_reads; [reflexivity|].
    apply sapling_writer_reads; try reflexivity.
    unfold spec_outputs_hash. rewrite Hs. cbn [set_outputs outputs]. now rewrite Ho.
Qed.

(** X5 — Under the selectors NONE and SINGLE the digest does not depend on
    the sequence number of any input other than [inputNumber], in either
    era: the legacy builder sets them to 0 in its copy (lines 211-215) and
    the Sapling-era builder leaves the sequence hash at zero. *)
Theorem none_single_ignore_other_sequences (tx : Transaction) (t : Z) (i j : nat)
    (q : Z) (sub : Script) :
  selector t = SIGHASH_NONE \/ selector t = SIGHASH_SINGLE ->
  j <> i ->
  sighash (set_sequence tx j q) t i sub = sighash tx t i sub.
Proof.
  intros Hsel Hj.
  assert (Hlk : inputs (set_sequence tx j q) !! i = inputs tx !! i)
    by (now apply list_lookup_alter_ne).
  destruct (Z.lt_ge_cases (version tx) 4) as [Hlt|Hge].
  - rewrite !sighash_legacy_cases by exact Hlt. rewrite Hlk.
    assert (Hcopy : spec_legacy_copy (set_sequence tx j q) t i sub
                    = spec_legacy_copy tx t i sub).
    { unfold spec_legacy_copy.
      assert (Hins : spec_legacy_inputs (set_sequence tx j q) t i sub
                     = spec_legacy_inputs tx t i sub).
      { unfold spec_legacy_inputs. apply list_eq. intros k.
        cbn [set_sequence set_inputs inputs]. rewrite !list_lookup_imap.
        destruct (decide (j = k)) as [<-|Hne].
        - rewrite list_lookup_alter, decide_True by reflexivity.
          destruct (inputs tx !! j) as [x|]; [cbn|reflexivity].
          destruct (decide (j = i)); [contradiction|].
          destruct (decide _); [reflexivity | contradiction].
        - now rewrite list_lookup_alter_ne. }
      rewrite Hins. reflexivity. }
    rewrite Hcopy. destruct (inputs tx !! i); reflexivity.
  - rewrite !sighash_sapling_era by exact Hge.
    apply sighashSapling_reads; [reflexivity|].
    apply sapling_writer_reads; try reflexivity.
    + unfold spec_prevouts_hash. destruct (anyonecanpay t); [reflexivity|].
      do 2 f_equal. now apply fmap_alter_same.
    + unfold spec_sequence_hash.
      assert (E : (selector t =? SIGHASH_SINGLE) || (selector t =? SIGHASH_NONE) = true).
      { destruct Hsel as [E|E]; rewrite E; reflexivity. }
      rewrite <- orb_assoc, E, orb_true_r. reflexivity.
    + now rewrite Hlk.
Qed.

End Uncommitted.

(* ===================================================================== *)
(** ** Results, exceptions and what the preimage holds *)
(* ===================================================================== *)

Section Edges.
Context `{Primitives}.

(** X6 — With hash functions that return 32 bytes, every digest [sighash]
    returns is 32 bytes long, in both eras and on the early return of the
    SIGHASH_SINGLE quirk (the comment of lines 174-176). *)
Theorem digest_is_32_bytes (tx : Transaction) (t : Z) (i : nat) (sub : Script)
    (digest : Buffer) :
  (forall b, length (sha256sha256 b) = 32%nat) ->
  (forall p d, length (blake2b 32 p d) = 32%nat) ->
  sighash tx t i sub = Ok digest ->
  length digest = 32%nat.
Proof.
  intros Hsha Hblake Hd.
  destruct (Z.lt_ge_cases (version tx) 4) as [Hlt|Hge].
  - rewrite sighash_legacy_cases in Hd by exact Hlt.
    destruct (inputs tx !! i); [|discriminate].
    destruct (decide _); injection Hd as <-; [reflexivity|].
    rewrite length_rev. apply Hsha.
  - rewrite sighash_sapling_era in Hd by exact Hge. unfold sighashSapling in Hd.
    destruct (sapling_writer tx t i sub) as [w|e]; [|discriminate].
    cbn [mbind result_bind] in Hd. injection Hd as <-.
    unfold readReverse, getBlake2bHash. rewrite length_rev. apply Hblake.
Qed.

(** X7 — For a transaction of version 4 or more, [sighash] returns a
    digest when [inputNumber] indexes an input that knows the output it
    spends, whatever the signature type and the number of outputs.  When
    [inputNumber] indexes no input (line 147 reads a property of
    [undefined]) or the input has no [output] (line 155), [sighash]
    throws a TypeError, and so do [sign] and a [verify] whose precondition
    holds: the exception is neither turned into [false] nor into the
    precondition violation. *)
Theorem sapling_throws_exactly (tx : Transaction) (t : Z) (i : nat) (sub : Script) :
  4 <= version tx ->
  (forall input spent, inputs tx !! i = Some input -> output input = Some spent ->
     exists digest, sighash tx t i sub = Ok digest)
  /\ (inputs tx !! i = None
      \/ (exists input, inputs tx !! i = Some input /\ output input = None) ->
      sighash tx t i sub = Err TypeError
      /\ (forall privateKey, sign tx privateKey t i sub = Err TypeError)
      /\ (forall sig publicKey, nhashtype sig = Some t ->
            verify (Some tx) (Some sig) publicKey i sub = Err TypeError)).
Proof.
  intros Hv. split.
  - intros input spent Ei Eo.
    rewrite sighash_sapling_era by exact Hv. unfold sighashSapling.
    rewrite (sapling_writer_chunks _ _ _ _ _ _ Ei Eo). cbn [mbind result_bind]. eauto.
  - intros Hbad.
    assert (Hw : sapling_writer tx t i sub = Err TypeError).
    { destruct Hbad as [Ei|(input & Ei & Eo)].
      - now apply sapling_writer_absent.
      - now apply (sapling_writer_unspent _ _ _ _ input). }
    assert (Hs : sighash tx t i sub = Err TypeError).
    { rewrite sighash_sapling_era by exact Hv. unfold sighashSapling. now rewrite Hw. }
    split; [exact Hs|]. split.
    + intros k. unfold sign. now rewrite Hs.
    + intros sig pk Et. unfold verify, checkArgument. rewrite Et.
      rewrite !bool_decide_true by eauto. unfold mbind, result_bind, defined.
      rewrite Et. cbv beta iota. now rewrite Hs.
Qed.

(** X8 — For a branch id that fits 32 bits, the last four bytes of the
    personalization of lines 161-168, read little-endian, are the branch
    id the builder settled on (the transaction's own when it is set and
    not 0, the default otherwise); so two transactions hashed under the
    same personalization were hashed for the same branch. *)
Theorem personalization_carries_branch_id (tx : Transaction) :
  (forall b, branchId tx = Some b -> 0 <= b < 2 ^ 32) ->
  le_value (drop 12 (sapling_personalization tx)) = sapling_consensusBranchId tx
  /\ (forall tx',
        (forall b, branchId tx' = Some b -> 0 <= b < 2 ^ 32) ->
        sapling_personalization tx' = sapling_personalization tx ->
        sapling_consensusBranchId tx' = sapling_consensusBranchId tx).
Proof.
  intros Hb.
  assert (Hread : forall tx0, (forall b, branchId tx0 = Some b -> 0 <= b < 2 ^ 32) ->
            le_value (drop 12 (sapling_personalization tx0))
            = sapling_consensusBranchId tx0).
  { intros tx0 Hb0. rewrite sapling_personalization_bytes.
    change (drop 12 (Buffer_from_string "ZcashSigHash" ++ ?l)) with l.
    rewrite le_value_le_bytes. apply Z.mod_small.
    now apply sapling_consensusBranchId_range. }
  split; [now apply Hread|].
  intros tx' Hb' E. rewrite <- (Hread tx' Hb'), <- (Hread tx Hb). now rewrite E.
Qed.

(** X9 — No fixed-width field is lost in the Sapling-era preimage.  With a
    personalized hash that returns 32 bytes, two calls of the builder that
    write the same bytes agree on the version below bit 31, on the version
    group id, the lock time, the expiry height and the signature type
    modulo 2^32, on the value balance modulo 2^64, on the three hashes of
    lines 104-123, and, read from the end, on the value of the spent output
    modulo 2^64 and on the sequence number of the input modulo 2^32. *)
Theorem sapling_preimage_determines_fields (tx tx' : Transaction) (t t' : Z)
    (i i' : nat) (sub sub' : Script) (w w' : BufferWriter) :
  (forall p d, length (blake2b 32 p d) = 32%nat) ->
  sapling_writer tx t i sub = Ok w ->
  sapling_writer tx' t' i' sub' = Ok w' ->
  toBuffer w = toBuffer w' ->
  version tx mod 2 ^ 31 = version tx' mod 2 ^ 31
  /\ nVersionGroupId tx mod 2 ^ 32 = nVersionGroupId tx' mod 2 ^ 32
  /\ nLockTime tx mod 2 ^ 32 = nLockTime tx' mod 2 ^ 32
  /\ nExpiryHeight tx mod 2 ^ 32 = nExpiryHeight tx' mod 2 ^ 32
  /\ valueBalance tx mod 2 ^ 64 = valueBalance tx' mod 2 ^ 64
  /\ t mod 2 ^ 32 = t' mod 2 ^ 32
  /\ sapling_hashPrevouts tx t = sapling_hashPrevouts tx' t'
  /\ sapling_hashSequence tx t = sapling_hashSequence tx' t'
  /\ sapling_hashOutputs tx t i = sapling_hashOutputs tx' t' i'
  /\ exists input spent input' spent',
       inputs tx !! i = Some input /\ output input = Some spent
       /\ inputs tx' !! i' = Some input' /\ output input' = Some spent'
       /\ satoshis spent mod 2 ^ 64 = satoshis spent' mod 2 ^ 64
       /\ sequenceNumber input mod 2 ^ 32 = sequenceNumber input' mod 2 ^ 32.
Proof.
  intros Hblake Hw Hw' E.
  destruct (sapling_writer_inv _ _ _ _ _ Hw) as (input & spent & Ei & Eo & Hc).
  destruct (sapling_writer_inv _ _ _ _ _ Hw') as (input' & spent' & Ei' & Eo' & Hc').
  subst w w'.
  destruct (sub_hashes_length tx t i Hblake) as (L1 & L2 & L3).
  destruct (sub_hashes_length tx' t' i' Hblake) as (L1' & L2' & L3').
  unfold toBuffer in E. cbn [concat] in E.
  apply app_inj_1 in E as [E1 E]; [|now rewrite !le_bytes_length].
  apply app_inj_1 in E as [E2 E]; [|now rewrite !le_bytes_length].
  apply app_inj_1 in E as [Ep E]; [|now rewrite L1, L1'].
  apply app_inj_1 in E as [Es E]; [|now rewrite L2, L2'].
  apply app_inj_1 in E as [Eh E]; [|now rewrite L3, L3'].
  apply app_inj_1 in E as [_ E]; [|reflexivity].
  apply app_inj_1 in E as [_ E]; [|reflexivity].
  apply app_inj_1 in E as [_ E]; [|reflexivity].
  apply app_inj_1 in E as [E3 E]; [|now rewrite !le_bytes_length].
  apply app_inj_1 in E as [E4 E]; [|now rewrite !le_bytes_length].
  apply app_inj_1 in E as [E5 E]; [|now rewrite !le_bytes_length].
  apply app_inj_1 in E as [E6 E]; [|now rewrite !le_bytes_length].
  rewrite !app_nil_r in E.
  assert (E' : (rev (prevTxId input) ++ le_bytes 4 (outputIndex input)
                ++ varint (Z.of_nat (length sub)) ++ sub)
               ++ (le_bytes 8 (satoshis spent) ++ le_bytes 4 (sequenceNumber input))
               = (rev (prevTxId input') ++ le_bytes 4 (outputIndex input')
                  ++ varint (Z.of_nat (length sub')) ++ sub')
                 ++ (le_bytes 8 (satoshis spent') ++ le_bytes 4 (sequenceNumber input')))
    by (rewrite <- !app_assoc; exact E).
  clear E. rename E' into E.
  apply app_inj_2 in E as [_ E]; [|now rewrite !length_app, !le_bytes_length].
  apply app_inj_1 in E as [E7 E8]; [|now rewrite !le_bytes_length].
  apply le_bytes_inj in E1, E2, E3, E4, E5, E6, E7, E8.
  rewrite !sapling_hashPrevouts_spec, !sapling_hashSequence_spec,
    !sapling_hashOutputs_spec, Ep, Es, Eh.
  repeat split; try assumption.
  - now apply header_inj.
  - exists input, spent, input', spent'. repeat split; assumption.
Qed.

(** X10 — [verify] looks at the transaction, the input index and the
    subscript only through the digest: with a curve primitive that honours
    its contract, a signature [sign] makes for one call is accepted by
    [verify] for every call that has the same digest under the signature's
    type, be it on another transaction, input or subscript. *)
Theorem signature_follows_digest (tx tx' : Transaction) (privateKey : PrivateKey)
    (t : Z) (i i' : nat) (sub sub' : Script) :
  ECDSA_contract ->
  well_formed tx i = true ->
  sighash tx' t i' sub' = sighash tx t i sub ->
  exists sig,
    sign tx privateKey t i sub = Ok sig
    /\ verify (Some tx') (Some sig) (toPublicKey privateKey) i' sub' = Ok true.
Proof.
  intros Hc Hwf E.
  destruct (sighash_well_formed tx t i sub Hwf) as [digest Hd].
  exists (Signature_set_nhashtype (ECDSA_sign digest privateKey Little) t). split.
  - unfold sign. now rewrite Hd.
  - unfold verify, checkArgument. cbn [nhashtype Signature_set_nhashtype].
    rewrite !bool_decide_true by eauto. unfold mbind, result_bind, defined.
    cbn [nhashtype Signature_set_nhashtype]. rewrite E, Hd. now rewrite Hc.
Qed.

End Edges.

(* ===================================================================== *)
(** ** Successive calls over the store *)
(* ===================================================================== *)

Section StoreCalls.
Context `{Primitives}.

(** X11 — A call of [sighash] has no influence on a later one: run on the
    store an earlier call on the same transaction and subscript objects has
    left, with whatever signature type and input number, [sighash] returns
    what it returns on the store before that call.  The copies and
    assignments of lines 194-240 are not seen by the next call. *)
Theorem later_calls_unaffected (h : Heap.heap) (transaction subscript : Heap.loc)
    (tx : Transaction) (s : Script) (ty ty' : Z) (i i' : nat) :
  Heap.read_transaction h transaction = Some tx ->
  Heap.read_script h subscript = Some s ->
  (Heap.sighash transaction ty' i' subscript
     (Heap.sighash transaction ty i subscript h).1).2
  = (Heap.sighash transaction ty' i' subscript h).2.
Proof.
  intros Htx Hs.
  destruct (HeapFacts.safe_unchanged _ h
              (HeapFacts.safe_sighash h transaction ty i subscript))
    as (_ & _ & Ht & Hsc).
  rewrite (HeapRefinement.heap_sighash_refines _ _ _ tx s ty' i'
             (Ht _ _ Htx) (Hsc _ _ Hs)).
  now rewrite (HeapRefinement.heap_sighash_refines _ _ _ tx s ty' i' Htx Hs).
Qed.

(** X12 — Over the store, [sign] followed by [verify] on the same
    transaction and subscript objects, in the store [sign] has left,
    returns [true]: for a transaction in which [inputIndex] points at an
    input (with a known spent output in the Sapling era) and a curve
    primitive that honours its contract, what [sign] did to its copies does
    not reach the digest [verify] recomputes. *)
Theorem store_sign_then_verify (h : Heap.heap) (transaction subscript : Heap.loc)
    (tx : Transaction) (s : Script) (privateKey : PrivateKey) (t : Z) (i : nat) :
  ECDSA_contract ->
  Heap.read_transaction h transaction = Some tx ->
  Heap.read_script h subscript = Some s ->
  well_formed tx i = true ->
  exists sig,
    (Heap.sign transaction privateKey t i subscript h).2 = Ok sig
    /\ (Heap.verify (Some transaction) (Some sig) (toPublicKey privateKey) i subscript
          (Heap.sign transaction privateKey t i subscript h).1).2 = Ok true.
Proof.
  intros Hc Htx Hs Hwf.
  destruct (sighash_well_formed tx t i s Hwf) as [digest Hd].
  set (sig := Signature_set_nhashtype (ECDSA_sign digest privateKey Little) t).
  exists sig. split.
  - rewrite (proj1 (HeapRefinement.heap_sign_verify_refine h transaction subscript tx s
                      t i privateKey None (toPublicKey privateKey) Htx Hs)).
    unfold sign. now rewrite Hd.
  - destruct (HeapFacts.safe_unchanged _ h
                (HeapFacts.safe_sign h transaction privateKey t i subscript))
      as (_ & _ & Ht & Hsc).
    rewrite (proj2 (HeapRefinement.heap_sign_verify_refine _ transaction subscript tx s
                      t i privateKey (Some sig) (toPublicKey privateKey)
                      (Ht _ _ Htx) (Hsc _ _ Hs))).
    unfold verify, checkArgument. cbn [nhashtype Signature_set_nhashtype sig].
    rewrite !bool_decide_true by eauto. unfold mbind, result_bind, defined.
    cbn [nhashtype Signature_set_nhashtype sig]. rewrite Hd. unfold sig. now rewrite Hc.
Qed.

End StoreCalls.

(* ===================================================================== *)
(** ** The builders run on the sample transactions *)
(* ===================================================================== *)

(** The toy scheme of [test_primitives] honours the curve contract. *)
Lemma test_primitives_contract : @ECDSA_contract test_primitives.
Proof. intros h k e t. cbn. apply Z.eqb_refl. Qed.

(** The store model and the value model agree on the digest of the sample,
    and the call leaves the twelve objects of the sample store as they were. *)
Example heap_sighash_agrees :
  (Heap.sighash 10%nat 0x83 1 11%nat Heap.sample_heap).2 =
  sighash sample_legacy 0x83 1 [x51; xab].
Proof. vm_compute. reflexivity. Qed.

Example heap_sighash_keeps_sample :
  length Heap.sample_heap = 12%nat
  /\ take 12 (Heap.sighash 10%nat 0x83 1 11%nat Heap.sample_heap).1 = Heap.sample_heap
  /\ Heap.read_transaction (Heap.sighash 10%nat 0x83 1 11%nat Heap.sample_heap).1 10%nat
     = Some sample_legacy.
Proof. vm_compute. repeat split. Qed.

(** C3, as stated, fails on a transaction whose branch id is 0: line 164
    tests [transaction.branchId] for truthiness, so the personalization
    carries the default branch id, not the transaction's 0. *)
Lemma sapling_branch_zero_counterexample :
  branchId sample_branch_zero = Some 0
  /\ sapling_personalization sample_branch_zero
     = Buffer_from_string "ZcashSigHash" ++ [xbb; x09; xb8; x76]
  /\ spec_personalization (branch_id_if_present sample_branch_zero)
     = Buffer_from_string "ZcashSigHash" ++ [x00; x00; x00; x00]
  /\ ~ sapling_digest_as_stated.
Proof.
  repeat apply conj; try reflexivity.
  intros Hc.
  specialize (Hc test_primitives sample_branch_zero 1 0%nat [x51]).
  specialize (Hc _ _ ltac:(cbn; lia) eq_refl eq_refl).
  vm_compute in Hc. discriminate Hc.
Qed.

Lemma sign_then_verify_witness :
  exists sig,
    sign sample_sapling (5 : @PrivateKey test_primitives) 1 1 [x51] = Ok sig
    /\ verify (Some sample_sapling) (Some sig) (5 : @PublicKey test_primitives) 1 [x51]
       = Ok true.
Proof.
  destruct (@sign_then_verify test_primitives sample_sapling 5 1 1%nat [x51]
              test_primitives_contract eq_refl)
    as (digest & sig & _ & Hsign & _ & _ & Hverify & _).
  exists sig. split; [exact Hsign | exact Hverify].
Defined.

Lemma legacy_single_bug_witness :
  legacy_build sample_legacy 0x83 2 [x51] = Ok (Returned single_bug_digest)
  /\ sighash sample_legacy 0x83 2 [x51] = Ok single_bug_digest
  /\ single_bug_digest = replicate 31 x00 ++ [x01]
  /\ length single_bug_digest = 32%nat.
Proof.
  apply (@legacy_single_bug test_primitives sample_legacy 0x83 2%nat [x51]).
  - reflexivity.
  - reflexivity.
  - cbn. lia.
  - cbn. eauto.
Defined.

Lemma sapling_digest_layout_witness :
  sighash sample_branch_zero 1 0 [x51]
  = Ok (spec_sapling_digest branch_id_if_nonzero sample_branch_zero 1 0 [x51]
          {| prevTxId := replicate 31 x11 ++ [x22]; outputIndex := 0;
             sequenceNumber := 0xffffffff; script := [x51];
             output := Some {| satoshis := 5000; out_script := [x51] |} |}
          {| satoshis := 5000; out_script := [x51] |})
  /\ DEFAULT_BRANCH_ID = 0x76b809bb
  /\ length (spec_personalization (branch_id_if_nonzero sample_branch_zero)) = 16%nat.
Proof.
  apply (@sapling_digest_layout test_primitives sample_branch_zero 1 0%nat [x51]).
  - cbn. lia.
  - reflexivity.
  - reflexivity.
Defined.

Lemma sapling_prevouts_sequence_hashes_witness :
  exists w, sapling_writer sample_sapling 0x83 1 [x51] = Ok w
    /\ w !! 2%nat = Some zero32 /\ w !! 3%nat = Some zero32.
Proof.
  destruct (@sapling_prevouts_sequence_hashes test_primitives sample_sapling 0x83 1%nat
              [x51] _ _ eq_refl eq_refl) as (w & Hw & _ & _ & Hacp & _).
  exists w. split; [exact Hw|]. apply Hacp. reflexivity.
Defined.

Lemma sapling_outputs_hash_witness :
  exists w, sapling_writer sample_sapling 3 1 [x51] = Ok w
    /\ w !! 4%nat =
       Some (blake2b 32 (Buffer_from_string "ZcashOutputsHash")
               (Output_toBuffer {| satoshis := 2000; out_script := [x87] |})).
Proof.
  destruct (@sapling_outputs_hash test_primitives sample_sapling 3 1%nat
              [x51] _ _ eq_refl eq_refl) as (w & Hw & _ & Hsingle & _).
  exists w. split; [exact Hw|]. apply Hsingle; reflexivity.
Defined.

Lemma legacy_overrides_witness :
  legacy_build sample_legacy 3 1 [x51; xab] =
  Ok (Copy (spec_legacy_copy sample_legacy 3 1 [x51; xab]))
  /\ outputs (spec_legacy_copy sample_legacy 3 1 [x51; xab]) =
     [null_output; {| satoshis := 2000; out_script := [x87] |}]
  /\ sequenceNumber <$> inputs (spec_legacy_copy sample_legacy 3 1 [x51; xab]) = [0; 7; 0]
  /\ script <$> inputs (spec_legacy_copy sample_legacy 3 1 [x51; xab]) = [[]; [x51]; []].
Proof.
  split; [|repeat split].
  apply (@legacy_overrides test_primitives sample_legacy 3 1%nat [x51; xab]
           {| prevTxId := replicate 31 x33 ++ [x44]; outputIndex := 1;
              sequenceNumber := 7; script := [x52];
              output := Some {| satoshis := 7000; out_script := [x52] |} |}).
  - reflexivity.
  - cbn. lia.
Defined.

Lemma legacy_anyonecanpay_other_inputs_witness :
  sighash (mutate_input sample_legacy 1 [x6a] 0) 0x81 0 [x51]
  = sighash sample_legacy 0x81 0 [x51].
Proof.
  apply (proj1 (@legacy_anyonecanpay_other_inputs test_primitives sample_legacy 0x81
                  0%nat 1%nat [x51] [x6a] 0 eq_refl eq_refl ltac:(discriminate))).
Defined.

Lemma unknown_selector_as_all_witness :
  exists txcopy,
    legacy_build sample_legacy 0 1 [x51] = Ok (Copy txcopy)
    /\ legacy_build sample_legacy 1 1 [x51] = Ok (Copy txcopy)
    /\ outputs txcopy = sample_outputs.
Proof.
  destruct (@unknown_selector_as_all test_primitives sample_legacy 0 1%nat [x51]
              {| prevTxId := replicate 31 x33 ++ [x44]; outputIndex := 1;
                 sequenceNumber := 7; script := [x52];
                 output := Some {| satoshis := 7000; out_script := [x52] |} |})
    as [(txcopy & H0 & H1 & Hout & _) _].
  - discriminate.
  - discriminate.
  - reflexivity.
  - exists txcopy. repeat split; assumption.
Defined.

Lemma sapling_anyonecanpay_other_inputs_witness :
  sighash (set_inputs sample_sapling (take 2 sample_inputs)) 0x81 1 [x51]
  = sighash sample_sapling 0x81 1 [x51].
Proof.
  apply (@sapling_anyonecanpay_other_inputs test_primitives sample_sapling
           (set_inputs sample_sapling (take 2 sample_inputs)) 0x81 1%nat [x51]).
  - cbn. lia.
  - reflexivity.
  - split; reflexivity.
Defined.

Lemma none_ignores_outputs_witness :
  sighash (set_outputs sample_legacy []) 2 0 [x51] = sighash sample_legacy 2 0 [x51].
Proof.
  apply (@none_ignores_outputs test_primitives sample_legacy 2 0%nat [x51] []).
  reflexivity.
Defined.

Lemma single_ignores_other_outputs_witness :
  sighash (set_outputs sample_sapling
             [null_output; {| satoshis := 2000; out_script := [x87] |}; null_output])
          3 1 [x51]
  = sighash sample_sapling 3 1 [x51].
Proof.
  apply (@single_ignores_other_outputs test_primitives sample_sapling 3 1%nat [x51]).
  - reflexivity.
  - reflexivity.
Defined.

Lemma none_single_ignore_other_sequences_witness :
  sighash (set_sequence sample_legacy 0 5) 3 1 [x51] = sighash sample_legacy 3 1 [x51].
Proof.
  apply (@none_single_ignore_other_sequences test_primitives sample_legacy 3 1%nat 0%nat
           5 [x51]).
  - right. reflexivity.
  - discriminate.
Defined.

Lemma digest_is_32_bytes_witness :
  match sighash sample_sapling 1 0 [x51] with
  | Ok digest => length digest = 32%nat
  | Err _ => False
  end.
Proof.
  destruct (sighash sample_sapling 1 0 [x51]) as [digest|e] eqn:E.
  - apply (@digest_is_32_bytes test_primitives sample_sapling 1 0%nat [x51] digest).
    + intros b. apply le_bytes_length.
    + intros p d. apply le_bytes_length.
    + exact E.
  - vm_compute in E. discriminate E.
Defined.

Lemma sapling_throws_exactly_witness :
  sighash sample_sapling 3 5 [x51] = Err TypeError.
Proof.
  apply (@sapling_throws_exactly test_primitives sample_sapling 3 5%nat [x51]).
  - cbn. lia.
  - left. reflexivity.
Defined.

Lemma personalization_carries_branch_id_witness :
  le_value (drop 12 (sapling_personalization sample_branch_zero))
  = sapling_consensusBranchId sample_branch_zero.
Proof.
  apply (personalization_carries_branch_id sample_branch_zero).
  intros b [= <-]. lia.
Defined.

Lemma sapling_preimage_determines_fields_witness :
  nVersionGroupId sample_sapling mod 2 ^ 32 = nVersionGroupId sample_branch_zero mod 2 ^ 32.
Proof.
  eapply (@sapling_preimage_determines_fields test_primitives sample_sapling
            sample_branch_zero 1 1 0%nat 0%nat [x51] [x51]).
  - intros p d. apply le_bytes_length.
  - reflexivity.
  - reflexivity.
  - vm_compute. reflexivity.
Defined.

Lemma later_calls_unaffected_witness :
  (Heap.sighash 10%nat 1 0 11%nat
     (Heap.sighash 10%nat 0x83 1 11%nat Heap.sample_heap).1).2
  = (Heap.sighash 10%nat 1 0 11%nat Heap.sample_heap).2.
Proof.
  apply (@later_calls_unaffected test_primitives Heap.sample_heap 10%nat 11%nat
           sample_legacy [x51; xab] 0x83 1 1%nat 0%nat).
  - vm_compute. reflexivity.
  - vm_compute. reflexivity.
Defined.

Lemma store_sign_then_verify_witness :
  exists sig,
    (Heap.sign 10%nat (5 : @PrivateKey test_primitives) 1 1 11%nat Heap.sample_heap).2
    = Ok sig
    /\ (Heap.verify (Some 10%nat) (Some sig) (5 : @PublicKey test_primitives) 1 11%nat
          (Heap.sign 10%nat (5 : @PrivateKey test_primitives) 1 1 11%nat
             Heap.sample_heap).1).2 = Ok true.
Proof.
  apply (@store_sign_then_verify test_primitives Heap.sample_heap 10%nat 11%nat
           sample_legacy [x51; xab] 5 1 1%nat).
  - exact test_primitives_contract.
  - vm_compute. reflexivity.
  - vm_compute. reflexivity.
  - reflexivity.
Defined.

Lemma signature_follows_digest_witness :
  exists sig,
    sign sample_legacy (5 : @PrivateKey test_primitives) 0x81 0 [x51] = Ok sig
    /\ verify (Some (mutate_input sample_legacy 1 [x6a] 0)) (Some sig)
         (5 : @PublicKey test_primitives) 0 [x51] = Ok true.
Proof.
  apply (@signature_follows_digest test_primitives sample_legacy
           (mutate_input sample_legacy 1 [x6a] 0) 5 0x81 0%nat 0%nat [x51] [x51]).
  - exact test_primitives_contract.
  - reflexivity.
  - vm_compute. reflexivity.
Defined.
